(** * dfact/qr.py — Householder QR, WY form, recursive QR and block-power SVD

    A shallow embedding of [src/qr.py] and the properties its specification
    states about it.

    Arrays are modelled by their shape together with an indexing function;
    the scalar type (the array's dtype) is a parameter, given by a class of
    operations.  Three dtypes are instantiated:
    - [float]: IEEE-754 binary64, the arithmetic the program runs (the
      values computed below at concrete inputs are the same in binary32);
    - [R]: exact real arithmetic, the arithmetic the algebraic statements
      of the specification are meant in;
    - [Z]: exact integers, for the routines that only add and multiply.

    Exact arithmetic has no infinities or NaNs, so a division is a partial
    operation: it yields [None] on a zero divisor in [R] and is total in
    [float], where it produces an infinity or a NaN as the hardware does. *)

From Stdlib Require Import ZArith List String Bool Arith Lia.
From Stdlib Require Import Reals Lra Floats Ring.
From Equations Require Import Equations.
Import ListNotations.

Set Implicit Arguments.

(** ** Scalars (the dtype of an array) *)

Class ScalarOps (T : Type) := {
  s0 : T;
  s1 : T;
  sadd : T -> T -> T;
  smul : T -> T -> T;
  ssub : T -> T -> T;
  sopp : T -> T;
  sconj : T -> T
}.

(** What [house] needs on top of the ring operations.  Real quantities
    (norms, absolute values, [.real]) live in the same type, as they do
    after numpy's dtype promotion. *)
Class FieldOps (T : Type) `{ScalarOps T} := {
  sdiv : T -> T -> option T;
  sabs : T -> T;
  ssqrt : T -> T;
  sre : T -> T;
  seqb : T -> T -> bool;
  sleb : T -> T -> bool
}.

Declare Scope scalar_scope.
Delimit Scope scalar_scope with S.
Infix "+" := sadd : scalar_scope.
Infix "*" := smul : scalar_scope.
Infix "-" := ssub : scalar_scope.
Notation "- x" := (sopp x) : scalar_scope.

(** Option as the error monad of partial arithmetic. *)
Definition obind {A B} (o : option A) (k : A -> option B) : option B :=
  match o with Some a => k a | None => None end.
Notation "x <- o ;; k" := (obind o (fun x => k))
  (at level 61, o at next level, right associativity).
Notation "' pat <- o ;; k" := (obind o (fun x => match x with pat => k end))
  (at level 61, pat pattern, o at next level, right associativity).

(** ** Arrays *)

Section Arrays.
Context {T : Type} `{ScalarOps T}.
Local Open Scope scalar_scope.

(** A one-dimensional array. *)
Record vec := Vec { vlen : nat; vget : nat -> T }.

(** A two-dimensional array, row-major: [mget A i k] is [A[i, k]]. *)
Record mat := Mat { mrows : nat; mcols : nat; mget : nat -> nat -> T }.

Definition shape (A : mat) : nat * nat := (mrows A, mcols A).

(** Equality of arrays: same shape, same entries. *)
Definition veq (u w : vec) : Prop :=
  vlen u = vlen w /\ forall i, i < vlen u -> vget u i = vget w i.
Definition meq (A B : mat) : Prop :=
  mrows A = mrows B /\ mcols A = mcols B /\
  forall i k, i < mrows A -> k < mcols A -> mget A i k = mget B i k.

Definition vec_to_list (v : vec) : list T := map (vget v) (seq 0 (vlen v)).
Definition mat_to_rows (A : mat) : list (list T) :=
  map (fun i => map (mget A i) (seq 0 (mcols A))) (seq 0 (mrows A)).
Definition vec_of_list (l : list T) : vec :=
  Vec (List.length l) (fun i => nth i l s0).
Definition mat_of_rows (n : nat) (rows : list (list T)) : mat :=
  Mat (List.length rows) n (fun i k => nth k (nth i rows []) s0).

(** [sum_{l < n} f l], accumulated from index 0 upwards. *)
Fixpoint ssum (n : nat) (f : nat -> T) : T :=
  match n with
  | 0 => s0
  | S k => ssum k f + f k
  end.

Definition s2 : T := s1 + s1.

(** *** Constructors *)
Definition jnp_eye (m : nat) : mat :=
  Mat m m (fun i k => if i =? k then s1 else s0).
Definition jnp_zeros (m n : nat) : mat := Mat m n (fun _ _ => s0).
Definition jnp_zeros1 (m : nat) : vec := Vec m (fun _ => s0).
Definition jnp_triu (h : mat) : mat :=
  Mat (mrows h) (mcols h) (fun i k => if i <=? k then mget h i k else s0).

(** *** Slices (reads) *)
(** [v[r:]] *)
Definition vfrom (v : vec) (r : nat) : vec :=
  Vec (vlen v - r) (fun i => vget v (r + i)).
(** [A[r:, c]] *)
Definition col_from (A : mat) (r c : nat) : vec :=
  Vec (mrows A - r) (fun i => mget A (r + i) c).
(** [A[r:, c:]] *)
Definition block_from (A : mat) (r c : nat) : mat :=
  Mat (mrows A - r) (mcols A - c) (fun i k => mget A (r + i) (c + k)).
(** [A[r:, :c]] *)
Definition block_rows_from_cols_upto (A : mat) (r c : nat) : mat :=
  Mat (mrows A - r) (Nat.min c (mcols A)) (fun i k => mget A (r + i) k).
(** [A[:, :c]] *)
Definition cols_upto (A : mat) (c : nat) : mat :=
  Mat (mrows A) (Nat.min c (mcols A)) (mget A).
(** [A[:r, :c]] *)
Definition block_upto (A : mat) (r c : nat) : mat :=
  Mat (Nat.min r (mrows A)) (Nat.min c (mcols A)) (mget A).
(** [A[:, c:]] *)
Definition cols_from (A : mat) (c : nat) : mat := block_from A 0 c.

(** *** [index_update] and [index_add] (functional writes) *)
(** [index_update(v, index[i], x)] *)
Definition vupd (v : vec) (i : nat) (x : T) : vec :=
  Vec (vlen v) (fun l => if l =? i then x else vget v l).
(** [index_update(v, index[r:], w)] *)
Definition vupd_from (v : vec) (r : nat) (w : vec) : vec :=
  Vec (vlen v) (fun l => if r <=? l then vget w (l - r) else vget v l).
(** [index_add(v, index[r:], w)] *)
Definition vadd_from (v : vec) (r : nat) (w : vec) : vec :=
  Vec (vlen v) (fun l => if r <=? l then vget v l + vget w (l - r) else vget v l).
(** [index_update(A, index[r:, c:], X)] *)
Definition upd_block (A : mat) (r c : nat) (X : mat) : mat :=
  Mat (mrows A) (mcols A)
      (fun i k => if (r <=? i) && (c <=? k) then mget X (i - r) (k - c)
                  else mget A i k).
(** [index_update(A, index[r:, c], w)] *)
Definition upd_col_from (A : mat) (r c : nat) (w : vec) : mat :=
  Mat (mrows A) (mcols A)
      (fun i k => if (r <=? i) && (k =? c) then vget w (i - r) else mget A i k).
(** [index_update(A, index[:, c], w)] *)
Definition upd_col (A : mat) (c : nat) (w : vec) : mat := upd_col_from A 0 c w.
(** [index_update(A, index[:, c:], X)] *)
Definition upd_cols_from (A : mat) (c : nat) (X : mat) : mat := upd_block A 0 c X.

(** *** Arithmetic *)
Definition vneg (v : vec) : vec := Vec (vlen v) (fun i => - vget v i).
Definition vscale (c : T) (v : vec) : vec := Vec (vlen v) (fun i => c * vget v i).
Definition msub (A B : mat) : mat :=
  Mat (mrows A) (mcols A) (fun i k => mget A i k - mget B i k).
Definition jnp_outer (u w : vec) : mat :=
  Mat (vlen u) (vlen w) (fun i k => vget u i * vget w k).
(** [u @ A] for a 1-D [u]: [jnp.dot(u, A)]. *)
Definition vecmat (u : vec) (A : mat) : vec :=
  Vec (mcols A) (fun k => ssum (vlen u) (fun l => vget u l * mget A l k)).
(** [A @ v] for a 1-D [v]. *)
Definition matvec (A : mat) (v : vec) : vec :=
  Vec (mrows A) (fun i => ssum (mcols A) (fun l => mget A i l * vget v l)).
(** [A @ B] *)
Definition matmul (A B : mat) : mat :=
  Mat (mrows A) (mcols B)
      (fun i k => ssum (mcols A) (fun l => mget A i l * mget B l k)).
(** [u * s] for a matrix [u] and a 1-D [s]: the columns of [u] are scaled. *)
Definition mul_cols (U : mat) (s : vec) : mat :=
  Mat (mrows U) (mcols U) (fun i k => mget U i k * vget s k).
Definition jnp_hstack (A B : mat) : mat :=
  Mat (mrows A) (mcols A + mcols B)
      (fun i k => if k <? mcols A then mget A i k else mget B i (k - mcols A)).
Definition jnp_vstack (A B : mat) : mat :=
  Mat (mrows A + mrows B) (mcols A)
      (fun i k => if i <? mrows A then mget A i k else mget B (i - mrows A) k).
(** [jnp.diag] of a matrix: its main diagonal. *)
Definition jnp_diag (A : mat) : vec :=
  Vec (Nat.min (mrows A) (mcols A)) (fun i => mget A i i).

(** Modelled from the spec: [dfact.matutils.dag], which is not among the
    sources; the specification calls it the conjugate transpose.  On a
    one-dimensional array there is nothing to transpose. *)
Definition dag (A : mat) : mat :=
  Mat (mcols A) (mrows A) (fun i k => sconj (mget A k i)).
Definition dag1 (v : vec) : vec := Vec (vlen v) (fun i => sconj (vget v i)).

(** Modelled from the spec: [dfact.matutils.matshape], which is not among
    the sources; it is used as [m, n = matutils.matshape(A)]. *)
Definition matshape (A : mat) : nat * nat := shape A.

(** [jnp.array([1.] + list(w))] and [jnp.concatenate((jnp.array([1.]), w))] *)
Definition cons1 (w : vec) : vec :=
  Vec (S (vlen w)) (fun i => match i with 0 => s1 | S l => vget w l end).

(** [jnp.array([0.]*k + list(w))]: [k] zeros, then [w]. *)
Definition zeros_then (k : nat) (w : vec) : vec :=
  Vec (k + vlen w) (fun i => if i <? k then s0 else vget w (i - k)).

(** [enumerate(betas)] *)
Definition enumerate (betas : vec) : list (nat * T) :=
  map (fun j => (j, vget betas j)) (seq 0 (vlen betas)).
End Arrays.

Arguments vec T : clear implicits.
Arguments mat T : clear implicits.

(** ** Utilities and computation of Householder vectors *)

Section Householder.
Context {T : Type} `{FieldOps T}.
Local Open Scope scalar_scope.

(** [sign(num)]: [0 * num] when [num == 0], else [num / |num|]. *)
Definition sign (num : T) : option T :=
  if seqb num s0 then Some (s0 * num) else sdiv num (sabs num).

(** [jnp.linalg.norm] of a one-dimensional array: the square root of the
    sum of the squared moduli, each taken as [real(x * conj(x))]. *)
Definition jnp_linalg_norm (x : vec T) : T :=
  ssqrt (ssum (vlen x) (fun i => sre (vget x i * sconj (vget x i)))).

(** [w / c], elementwise: every entry is divided, so the quotient exists
    when each of the divisions does. *)
Definition vdiv (w : vec T) (c : T) : option (vec T) :=
  if forallb (fun i => match sdiv (vget w i) c with Some _ => true | None => false end)
             (seq 0 (vlen w))
  then Some (Vec (vlen w)
                 (fun i => match sdiv (vget w i) c with Some q => q | None => s0 end))
  else None.

(** Handles [house(x)] in the case that [norm(x[1:]) == 0]. *)
Definition __house_zero_norm (x_in : vec T) : vec T * T :=
  let v_out := x_in in
  let v_out := vupd v_out 0 s1 in
  let beta := sre (if seqb (vget x_in 0) s0
                   then vget x_in 0 * s0
                   else vget x_in 0 * s0 + s2) in
  (v_out, beta).

(** Handles [house(x)] in the case that [norm(x[1:]) != 0]. *)
Definition __house_nonzero_norm (xtup : vec T * T) : option (vec T * T) :=
  let '(x_in, x_2_norm) := xtup in
  let x_norm := jnp_linalg_norm (vec_of_list [vget x_in 0; x_2_norm]) in
  sgn <- sign (vget x_in 0) ;;
  let rho := sgn * x_norm in
  let v_1p := vget x_in 0 + rho in
  let v_1pabs := sabs v_1p in
  let v_1m := vget x_in 0 - rho in
  let v_1mabs := sabs v_1m in
  let '(v_1, v_1abs) :=
    if sleb v_1mabs v_1pabs then (v_1p, v_1pabs) else (v_1m, v_1mabs) in
  let v_out := x_in in
  tail <- vdiv (vfrom v_out 1) v_1 ;;
  let v_out := vupd_from v_out 1 tail in
  let v_out := vupd v_out 0 s1 in
  v_2_norm <- sdiv x_2_norm v_1abs ;;
  let v_norm_sqr := s1 + v_2_norm * v_2_norm in
  q <- sdiv s2 v_norm_sqr ;;
  let beta := sre q in
  Some (v_out, beta).

(** [house(x_in)]: the Householder vector [v] and its normalisation
    [beta].  A one-dimensional array is its own [ravel()].  The model is
    that of a non-empty [x_in]: on an empty array the source fails at
    [x_in[0]] with an index error, which the model does not show. *)
Definition house (x_in : vec T) : option (vec T * T) :=
  let x_2_norm := jnp_linalg_norm (vfrom x_in 1) in
  let switch := seqb x_2_norm s0 in
  if switch then Some (__house_zero_norm x_in)
  else __house_nonzero_norm (x_in, x_2_norm).
End Householder.

(** ** Manipulation of Householder vectors *)

Section Reflectors.
Context {T : Type} `{ScalarOps T}.
Local Open Scope scalar_scope.

(** [P = I - beta * outer(v, dag(v))] *)
Definition form_dense_P (hlist : vec T * T) : mat T :=
  let '(v, beta) := hlist in
  let Id := jnp_eye (vlen v) in
  msub Id (Mat (vlen v) (vlen v)
               (fun i k => beta * mget (jnp_outer v (dag1 v)) i k)).

(** [C = A - outer(beta*v, dot(dag(v), A))], that is [P A]. *)
Definition house_leftmult (A : mat T) (v : vec T) (beta : T) : mat T :=
  msub A (jnp_outer (vscale beta v) (vecmat (dag1 v) A)).

(** [C = A - outer(A@v, beta*dag(v))], that is [A P]. *)
Definition house_rightmult (A : mat T) (v : vec T) (beta : T) : mat T :=
  msub A (jnp_outer (matvec A v) (vscale beta (dag1 v))).

(** [P @ x] for a one-dimensional [x]. *)
Definition apply_P (hlist : vec T * T) (x : vec T) : vec T :=
  matvec (form_dense_P hlist) x.
End Reflectors.

(** ** The three dtypes *)

#[export] Instance float_ops : ScalarOps float := {
  s0 := 0%float; s1 := 1%float;
  sadd := PrimFloat.add; smul := PrimFloat.mul; ssub := PrimFloat.sub;
  sopp := PrimFloat.opp; sconj := fun x => x
}.
#[export] Instance float_field : @FieldOps float float_ops := {
  sdiv := fun a b => Some (PrimFloat.div a b);
  sabs := PrimFloat.abs; ssqrt := PrimFloat.sqrt; sre := fun x => x;
  seqb := PrimFloat.eqb; sleb := PrimFloat.leb
}.

#[export] Instance R_ops : ScalarOps R := {
  s0 := 0%R; s1 := 1%R;
  sadd := Rplus; smul := Rmult; ssub := Rminus; sopp := Ropp;
  sconj := fun x => x
}.
#[export] Instance R_field : @FieldOps R R_ops := {
  sdiv := fun a b => if Req_dec_T b 0 then None else Some (a / b)%R;
  sabs := Rabs; ssqrt := R_sqrt.sqrt; sre := fun x => x;
  seqb := fun a b => if Req_dec_T a b then true else false;
  sleb := fun a b => if Rle_lt_dec a b then true else false
}.

#[export] Instance Z_ops : ScalarOps Z := {
  s0 := 0%Z; s1 := 1%Z;
  sadd := Z.add; smul := Z.mul; ssub := Z.sub; sopp := Z.opp;
  sconj := fun x => x
}.

(** ** What a Python call can do *)

(** The values that appear as arguments of the errors raised. *)
Inductive pyval :=
| PyNone
| PyInt (z : Z)
| PyStr (s : string).

(** The exceptions of [qr.py].  [ValueError] carries the pair of arguments
    it is raised with: the message and the offending value. *)
Inductive exn :=
| NotImplementedError (msg : string)
| ValueError (msg : string) (offending : pyval)
| TypeError (msg : string).

(** The outcome of a call: a value, an exception, or [Undefined] when the
    arithmetic of the run has no value (a division by zero in exact
    arithmetic; never in [float]). *)
Inductive result (A : Type) :=
| Ok (a : A)
| Raise (e : exn)
| Undefined.
Arguments Ok {A} a.
Arguments Raise {A} e.
Arguments Undefined {A}.

Definition rbind {A B} (r : result A) (k : A -> result B) : result B :=
  match r with
  | Ok a => k a
  | Raise e => Raise e
  | Undefined => Undefined
  end.
Definition of_option {A} (o : option A) : result A :=
  match o with Some a => Ok a | None => Undefined end.

(** What a call leaves behind besides its outcome: the calls it made to
    the routines that compute (the external collaborators and the
    factorisation workhorses) and the lines it printed, in order. *)
Inductive event (T : Type) :=
| Call (routine : string)
| Print (msg : string) (value : T).
Arguments Call {T} routine.
Arguments Print {T} msg value.

Definition io (T A : Type) : Type := list (event T) * result A.

Definition ret {T A} (a : A) : io T A := ([], Ok a).
Definition raise {T A} (e : exn) : io T A := ([], Raise e).
Definition call {T A} (routine : string) (r : result A) : io T A :=
  ([Call routine], r).
Definition print {T} (msg : string) (value : T) : io T unit :=
  ([Print msg value], Ok tt).
Definition bind {T A B} (m : io T A) (k : A -> io T B) : io T B :=
  match snd m with
  | Ok a => (fst m ++ fst (k a), snd (k a))
  | Raise e => (fst m, Raise e)
  | Undefined => (fst m, Undefined)
  end.
Notation "x <~ m ;; k" := (bind m (fun x => k))
  (at level 61, m at next level, right associativity).
Notation "' pat <~ m ;; k" := (bind m (fun x => match x with pat => k end))
  (at level 61, pat pattern, m at next level, right associativity).

Definition is_print {T} (e : event T) : bool :=
  match e with Print _ _ => true | Call _ => false end.

(** ** Manipulation of the factored and WY representations *)

Section Representations.
Context {T : Type} `{ScalarOps T}.
Local Open Scope scalar_scope.

(** One pass of the loop of [factored_rightmult_dense]; [n] is the number
    of columns of the argument [A].  Python's [[0.]*nminus] is empty for a
    negative [nminus], as the truncated subtraction has it. *)
Definition factored_rightmult_dense_step (H0 : mat T) (n : nat) (C : mat T)
           (jb : nat * T) : mat T :=
  let '(j, beta) := jb in
  let vnz := cons1 (col_from H0 (j + 1) j) in
  let nminus := (n - vlen vnz)%nat in
  let v := zeros_then nminus vnz in
  let P := form_dense_P (v, beta) in
  upd_block C 0 0 (matmul C P).

(** [factored_rightmult_dense(A, H, betas)] *)
Definition factored_rightmult_dense (A H0 : mat T) (betas : vec T) : mat T :=
  let C := A in
  let n := mcols C in
  fold_left (factored_rightmult_dense_step H0 n) (enumerate betas) C.

(** One pass of the loop of [factored_rightmult]. *)
Definition factored_rightmult_step (H0 : mat T) (C : mat T) (jb : nat * T) : mat T :=
  let '(j, beta) := jb in
  let v := cons1 (col_from H0 (j + 1) j) in
  upd_cols_from C j (house_rightmult (cols_from C j) v beta).

(** [factored_rightmult(A, H, betas)] *)
Definition factored_rightmult (A H0 : mat T) (betas : vec T) : mat T :=
  let C := A in
  fold_left (factored_rightmult_step H0) (enumerate betas) C.

(** One pass of the loop of [factored_to_QR]. *)
Definition factored_to_QR_step (h : mat T) (beta : vec T) (Q : mat T) (j : nat)
  : mat T :=
  let v := cons1 (col_from h (j + 1) j) in
  upd_block Q j j (house_leftmult (block_from Q j j) v (vget beta j)).

(** [factored_to_QR(h, beta)]: dense [Q] and [R]; the loop runs over
    [range(n-1, -1, -1)]. *)
Definition factored_to_QR (h : mat T) (beta : vec T) : mat T * mat T :=
  let '(m, n) := shape h in
  let R := jnp_triu h in
  let Q := jnp_eye m in
  let Q := fold_left (factored_to_QR_step h beta) (rev (seq 0 n)) Q in
  (Q, R).

(** One pass of the loop of [factored_to_WY], on the loop-carried
    [(vj, W, Y)]. *)
Definition factored_to_WY_step (H0 : mat T) (betas : vec T)
           (st : vec T * mat T * mat T) (j : nat) : vec T * mat T * mat T :=
  let '(vj, W, Y) := st in
  let vj := vupd_from vj (j + 1) (col_from H0 (j + 1) j) in
  let vj := vupd vj j s1 in
  let YHv := matvec (dag (block_rows_from_cols_upto Y j j)) (vfrom vj j) in
  let z := matvec (cols_upto W j) YHv in
  let z := vadd_from z j (vneg (vfrom vj j)) in
  let z := vscale (- vget betas j) z in
  let W := upd_col W j z in
  let Y := upd_col_from Y j j (vfrom vj j) in
  (vj, W, Y).

(** The body of [factored_to_WY([H, betas])] up to the end of its loop,
    which runs over [range(1, n)]: the final [(vj, W, Y)]. *)
Definition factored_to_WY_loop (hbetalist : mat T * vec T) : vec T * mat T * mat T :=
  let '(H0, betas) := hbetalist in
  let '(m, n) := matshape H0 in
  let W := jnp_zeros (mrows H0) (mcols H0) in
  let vj := cons1 (col_from H0 1 0) in
  let W := upd_col W 0 (vscale (vget betas 0) vj) in
  let Y := jnp_zeros (mrows H0) (mcols H0) in
  let Y := upd_col Y 0 vj in
  fold_left (factored_to_WY_step H0 betas) (seq 1 (n - 1)) (vj, W, Y).

(** [factored_to_WY([H, betas])]: the pair [[W, YH]] with [YH = dag(Y)]. *)
Definition factored_to_WY (hbetalist : mat T * vec T) : mat T * mat T :=
  let '(vj, W, Y) := factored_to_WY_loop hbetalist in
  let YH := dag Y in
  (W, YH).

(** [C = B - (B@W)@YH] *)
Definition B_times_Q_WY (B W YH : mat T) : mat T :=
  msub B (matmul (matmul B W) YH).

(** [C = B - dag(YH)@(dag(W)@B)] *)
Definition Qdag_WY_times_B (B W YH : mat T) : mat T :=
  msub B (matmul (dag YH) (matmul (dag W) B)).

(** [WY_to_Q(W, YH)] *)
Definition WY_to_Q (W YH : mat T) : mat T :=
  let m := mrows W in
  let Id := jnp_eye m in
  B_times_Q_WY Id W YH.
End Representations.

(** ** QR decomposition *)

Section Factorisation.
Context {T : Type} `{FieldOps T}.
Local Open Scope scalar_scope.

(** One pass of the loop of [__house_qr_factored], on [(H, beta)]. *)
Definition __house_qr_factored_step (M : nat) (st : mat T * list T) (j : nat)
  : option (mat T * list T) :=
  let '(H1, beta) := st in
  '(v, thisbeta) <- house (col_from H1 j j) ;;
  let beta := beta ++ [thisbeta] in
  let H1 := upd_block H1 j j (house_leftmult (block_from H1 j j) v thisbeta) in
  let H1 := if j <? M then upd_col_from H1 (j + 1) j (vfrom v 1) else H1 in
  Some (H1, beta).

Fixpoint for_range {S : Type} (body : S -> nat -> option S) (js : list nat) (st : S)
  : option S :=
  match js with
  | [] => Some st
  | j :: js' => st' <- body st j ;; for_range body js' st'
  end.

(** [__house_qr_factored(A)]: the pair [[H, beta]].  The model is that of
    a matrix with [N <= M]: on a wider one the source reaches an empty
    column [H[j:, j]], on which [house] fails (see [house]). *)
Definition __house_qr_factored (A : mat T) : option (mat T * vec T) :=
  let H1 := A in
  let '(M, N) := matshape A in
  '(H1, beta) <- for_range (__house_qr_factored_step M) (seq 0 (mcols A)) (H1, []) ;;
  Some (H1, vec_of_list beta).
End Factorisation.

(** What [jnp.linalg.qr] returns: the pair [(Q, R)], or [R] alone in mode
    ['r']. *)
Inductive qr_ret (T : Type) :=
| QRpair (Q R : mat T)
| QRr (R : mat T).

(** What [house_qr] returns, by mode. *)
Inductive qr_output (T : Type) :=
| OutDense (d : qr_ret T)
| OutFactored (H0 : mat T) (beta : vec T)
| OutWY (W YH R : mat T).

Section Drivers.
Context {T : Type} `{FieldOps T}.
Local Open Scope scalar_scope.
Local Open Scope string_scope.

(** The external dense QR, [jnp.linalg.qr(A, mode=mode)]. *)
Variable jnp_linalg_qr : mat T -> string -> result (qr_ret T).

(** Modelled from the spec: [dfact.matutils.gaussian_random_fill], which
    is not among the sources; the specification has it return a matrix
    of the shape of its argument with entries drawn at random. *)
Variable gaussian_random_fill : mat T -> mat T.

(** [house_qr(A, mode)] *)
Definition house_qr (A : mat T) (mode : string) : io T (qr_output T) :=
  if (mode =? "reduced") || (mode =? "complete") || (mode =? "r") then
    d <~ call "jnp.linalg.qr" (jnp_linalg_qr A mode) ;;
    ret (OutDense d)
  else
    let '(m, n) := shape A in
    if (m <? n)%nat then
      raise (NotImplementedError
               ("n > m QR not implemented in factored" ++ "or WY mode."))
    else if mode =? "factored" then
      '(H1, beta) <~ call "__house_qr_factored" (of_option (__house_qr_factored A)) ;;
      ret (OutFactored H1 beta)
    else if mode =? "WY" then
      hbetalist <~ call "__house_qr_factored" (of_option (__house_qr_factored A)) ;;
      let R := jnp_triu (fst hbetalist) in
      WYlist <~ call "factored_to_WY" (Ok (factored_to_WY hbetalist)) ;;
      ret (OutWY (fst WYlist) (snd WYlist) R)
    else
      raise (ValueError "Invalid mode: " (PyStr mode)).

(** [Q, R = jnp.linalg.qr(A, mode="reduced")]: the call and the unpacking
    of the pair it returns. *)
Definition qr_reduced (A : mat T) : io T (mat T * mat T) :=
  d <~ call "jnp.linalg.qr" (jnp_linalg_qr A "reduced") ;;
  match d with
  | QRpair Q R => ret (Q, R)
  | QRr _ => raise (ValueError "too many values to unpack (expected 2)" PyNone)
  end.

(** [__recursiveQR(A, n_block)]; [recursiveQR] only forwards to it, so
    the two recursive calls of the source come back here. *)
Equations? __recursiveQR (A : mat T) (n_block : Z) : io T (mat T * mat T)
  by wf (mcols A) lt :=
__recursiveQR A n_block with Z_lt_dec n_block 1 => {
  | left _ =>
      raise (ValueError "n_block must be greater than 0; it was " (PyInt n_block));
  | right _ with Z_le_dec (Z.of_nat (mcols A)) n_block => {
    | left _ => qr_reduced A;
    | right _ =>
        let n0 := (mcols A / 2)%nat in
        '(Q0, R00) <~ __recursiveQR (cols_upto A n0) n_block ;;
        let R01 := matmul (dag Q0) (cols_from A n0) in
        let A' := upd_cols_from A n0 (msub (cols_from A n0) (matmul Q0 R01)) in
        let R0 := jnp_hstack R00 R01 in
        '(Q1, R11) <~ __recursiveQR (cols_from A' n0) n_block ;;
        let Q := jnp_hstack Q0 Q1 in
        let R10 := jnp_zeros (mrows R11) (mcols R00) in
        let R1 := jnp_hstack R10 R11 in
        let R := jnp_vstack R0 R1 in
        ret (Q, R) } }.
Proof.
  all: assert (Hn0 : n0 = (mcols A / 2)%nat) by reflexivity; clearbody n0.
  all: assert (2 <= mcols A)%nat by lia.
  all: pose proof (Nat.div_lt (mcols A) 2).
  all: pose proof (Nat.div_str_pos (mcols A) 2); lia.
Qed.

(** [recursiveQR(A, n_block=1)] *)
Definition recursiveQR (A : mat T) (n_block : Z) : io T (mat T * mat T) :=
  __recursiveQR A n_block.

(** [recursiveQR_nojit(A, n_block)]: the body of [__recursiveQR] once
    more; its two recursive calls go to [recursiveQR]. *)
Definition recursiveQR_nojit (A : mat T) (n_block : Z) : io T (mat T * mat T) :=
  if (n_block <? 1)%Z then
    raise (ValueError "n_block must be greater than 0; it was " (PyInt n_block))
  else
    let '(m, n) := shape A in
    if (Z.of_nat n <=? n_block)%Z then
      qr_reduced A
    else
      let n0 := (n / 2)%nat in
      '(Q0, R00) <~ recursiveQR (cols_upto A n0) n_block ;;
      let R01 := matmul (dag Q0) (cols_from A n0) in
      let A' := upd_cols_from A n0 (msub (cols_from A n0) (matmul Q0 R01)) in
      let R0 := jnp_hstack R00 R01 in
      '(Q1, R11) <~ recursiveQR (cols_from A' n0) n_block ;;
      let Q := jnp_hstack Q0 Q1 in
      let R10 := jnp_zeros (mrows R11) (mcols R00) in
      let R1 := jnp_hstack R10 R11 in
      let R := jnp_vstack R0 R1 in
      ret (Q, R).

(** [jnp.abs] of a matrix and [jnp.linalg.norm] of a matrix (Frobenius). *)
Definition jnp_abs (A : mat T) : mat T :=
  Mat (mrows A) (mcols A) (fun i k => sabs (mget A i k)).
Definition jnp_linalg_norm_fro (A : mat T) : T :=
  ssqrt (ssum (mrows A) (fun i =>
           ssum (mcols A) (fun k => sre (mget A i k * sconj (mget A i k))))).

(** [__block_svd_iteration(A, V, s)]: [[U, Sigma, V, err]]. *)
Definition __block_svd_iteration (A V : mat T) (s : nat)
  : io T (mat T * vec T * mat T * T) :=
  '(Ql, Rl) <~ qr_reduced (matmul A V) ;;
  let U := cols_upto Ql s in
  '(Qr, Rr) <~ qr_reduced (matmul (dag A) U) ;;
  let Sigma := jnp_diag (block_upto Rr s s) in
  let V := cols_upto Qr s in
  let err_l := matmul A V in
  let err_r := mul_cols U Sigma in
  let err := jnp_linalg_norm_fro (jnp_abs (msub err_l err_r)) in
  ret (U, Sigma, V, err).

(** The [while not done] loop of [block_power_svd], entered with
    [done = False] and the current [V] and [n_iter]: one pass of the body,
    then the loop again unless [done]. *)
Equations? block_power_svd_loop (A : mat T) (s : nat) (tol : T) (max_iter : Z)
           (V : mat T) (n_iter : Z) : io T (mat T * vec T * mat T)
  by wf (Z.to_nat (max_iter - n_iter)) lt :=
block_power_svd_loop A s tol max_iter V n_iter :=
  let n_iter' := (n_iter + 1)%Z in
  '(U, Sigma, V', err) <~ __block_svd_iteration A V s ;;
  let done := sleb err tol || (n_iter' >=? max_iter)%Z in
  _ <~ (if (n_iter' >=? max_iter)%Z
        then print "Warning: max_iter reached, err was: " err
        else ret tt) ;;
  match sumbool_of_bool done with
  | left _ => ret (U, Sigma, V')
  | right _ => block_power_svd_loop A s tol max_iter V' n_iter'
  end.
Proof.
  subst n_iter'. apply orb_false_elim in e as [_ e].
  rewrite Z.geb_leb in e. apply Z.leb_gt in e. lia.
Qed.

(** [block_power_svd(A, s, tol, max_iter)]: [[U, Sigma, V]].  The
    comparison [s < 0] is the first use of [s]; Python has no order
    between [None] (or a string) and an integer. *)
Definition block_power_svd (A : mat T) (s : pyval) (tol : T) (max_iter : Z)
  : io T (mat T * vec T * mat T) :=
  let '(m, n) := shape A in
  match s with
  | PyNone =>
      raise (TypeError "'<' not supported between instances of 'NoneType' and 'int'")
  | PyStr _ =>
      raise (TypeError "'<' not supported between instances of 'str' and 'int'")
  | PyInt sz =>
      if (sz <? 0)%Z || (Z.of_nat n <=? sz)%Z then
        raise (ValueError
                 "s must be a smaller natural number than the columns of A; it was "
                 (PyInt sz))
      else
        V <~ call "gaussian_random_fill"
               (Ok (gaussian_random_fill (jnp_zeros n (Z.to_nat sz)))) ;;
        block_power_svd_loop A (Z.to_nat sz) tol max_iter V 0
  end.
End Drivers.

(** * The vocabulary of the statements *)

(** ** What the specification speaks of *)

(** The [j]-th Householder vector of the factored form [H]: zero above
    position [j], one at position [j], column [j] of [H] below. *)
Definition householder_vector {T : Type} `{ScalarOps T} (H0 : mat T) (j : nat) : vec T :=
  Vec (mrows H0)
      (fun l => if l <? j then s0 else if l =? j then s1 else mget H0 l j).

Definition vsub {T : Type} `{ScalarOps T} (u w : vec T) : vec T :=
  Vec (vlen u) (fun i => ssub (vget u i) (vget w i)).

(** [A[:, c]] *)
Definition col {T : Type} `{ScalarOps T} (A : mat T) (c : nat) : vec T :=
  col_from A 0 c.

(** The vector [c * (v_j - W[:, :j] (Y[:, :j]^* v_j))]. *)
Definition wy_column {T : Type} `{ScalarOps T} (c : T) (H0 W Y : mat T) (j : nat)
  : vec T :=
  let v_j := householder_vector H0 j in
  vscale c (vsub v_j (matvec (cols_upto W j) (matvec (dag (cols_upto Y j)) v_j))).

(** What the specification says of column [j] of [W] and [Y], with the
    factor in front of [(v_j - W[:, :j] (Y[:, :j]^* v_j))] computed from
    [beta_j] by [factor]. *)
Definition wy_column_claim {T : Type} `{ScalarOps T} (factor : T -> T)
           (H0 : mat T) (betas : vec T) (j : nat) : Prop :=
  let '(vj, W, Y) := factored_to_WY_loop (H0, betas) in
  veq (col W j) (wy_column (factor (vget betas j)) H0 W Y j)
  /\ veq (col_from Y j j) (vfrom (householder_vector H0 j) j).

(** The laws of the scalars that the equality of the two needs: those of
    a commutative ring, and that the conjugate of zero is zero. *)
Record scalar_laws (T : Type) {ops : ScalarOps T} : Prop := {
  sl_ring : ring_theory s0 s1 sadd smul ssub sopp eq;
  sl_conj0 : sconj s0 = s0
}.
Arguments scalar_laws T {ops}.

(** The external dense QR in reduced mode, on a matrix that is not wider
    than tall, returns [Q] of the shape of its argument and a square [R]
    ([(M, K)] and [(K, N)] with [K = min(M, N) = N]). *)
Definition reduced_shapes {T : Type}
           (jnp_linalg_qr : mat T -> string -> result (qr_ret T)) : Prop :=
  forall B, mcols B <= mrows B ->
  exists Q R, jnp_linalg_qr B "reduced"%string = Ok (QRpair Q R)
              /\ shape Q = (mrows B, mcols B) /\ shape R = (mcols B, mcols B).

(** What the specification says of recursive QR: whenever the factored
    QR of [A] is [(H, betas)], [recursiveQR(A, n_block)] returns the [Q]
    and [R] of [factored_to_QR(H, betas)]. *)
Definition recursiveQR_matches_factored {T : Type} `{FieldOps T}
           (jnp_linalg_qr : mat T -> string -> result (qr_ret T))
           (A : mat T) (n_block : Z) : Prop :=
  forall H1 betas, __house_qr_factored A = Some (H1, betas) ->
  exists Q R l,
    recursiveQR jnp_linalg_qr A n_block = (l, Ok (Q, R))
    /\ meq Q (fst (factored_to_QR H1 betas))
    /\ meq R (snd (factored_to_QR H1 betas)).

(** What is read off a reflector, a factored form and a pair of dense
    factors when they are shown. *)
Definition show_reflector {T : Type} `{ScalarOps T} (p : vec T * T) : list T * T :=
  (vec_to_list (fst p), snd p).
Definition show_factored {T : Type} `{ScalarOps T} (p : mat T * vec T)
  : list (list T) * list T :=
  (mat_to_rows (fst p), vec_to_list (snd p)).
Definition show_QR {T : Type} `{ScalarOps T} (p : mat T * mat T)
  : list (list T) * list (list T) :=
  (mat_to_rows (fst p), mat_to_rows (snd p)).

Definition event_name {T} (e : event T) : string :=
  match e with Call r => r | Print msg _ => msg end.

(** ** Concrete inputs *)

(** The external dense QR used to run the drivers on concrete input: any
    function will do where only the control flow is observed. *)
Definition qr_stub {T : Type} `{ScalarOps T} (A : mat T) (mode : string)
  : result (qr_ret T) :=
  Ok (QRpair (Mat (mrows A) (Nat.min (mrows A) (mcols A)) (mget A))
             (jnp_eye (Nat.min (mrows A) (mcols A)))).

Definition wide_1x2 : mat float := mat_of_rows 2 [[1%float; 2%float]].
Definition tall_3x2 : mat float :=
  mat_of_rows 2 [[3%float; 1%float]; [4%float; 2%float]; [0%float; 5%float]].
Definition tall_2x1 : mat float := mat_of_rows 1 [[3%float]; [4%float]].
Definition A01_R : mat R := mat_of_rows 1 [[0%R]; [1%R]].
Definition A01 : mat float := mat_of_rows 1 [[0%float]; [1%float]].
Definition x01_R : vec R := vec_of_list [0%R; 1%R].
Definition x01 : vec float := vec_of_list [0%float; 1%float].
Definition x34_R : vec R := vec_of_list [3%R; 4%R; 0%R].
Definition eye2_R : mat R := jnp_eye 2.

(** The factored form of the 2x2 identity, as [__house_qr_factored]
    computes it: both reflectors are sign flips, with [beta = 2]. *)
Definition H_id2 : mat Z := mat_of_rows 2 [[-1; 0]; [0; -1]]%Z.
Definition betas_id2 : vec Z := vec_of_list [2; 2]%Z.

(** * Properties *)

(** ** The guards of the drivers *)

Section Guards.
Context {T : Type} `{FieldOps T}.
Variable jnp_linalg_qr : mat T -> string -> result (qr_ret T).
Variable gaussian_random_fill : mat T -> mat T.
Local Open Scope string_scope.

Lemma dense_mode_false (mode : string) :
  mode = "factored" \/ mode = "WY" ->
  (mode =? "reduced") || (mode =? "complete") || (mode =? "r") = false.
Proof. intros [-> | ->]; reflexivity. Qed.

(** An unrecognised mode on a matrix that is not wider than tall is
    refused with [ValueError], the mode in its arguments, and nothing has
    been called. *)
Lemma house_qr_invalid_mode (A : mat T) (mode : string) :
  (mode =? "reduced") || (mode =? "complete") || (mode =? "r") = false ->
  (mode =? "factored") = false -> (mode =? "WY") = false ->
  (mcols A <= mrows A)%nat ->
  house_qr jnp_linalg_qr A mode = ([], Raise (ValueError "Invalid mode: " (PyStr mode))).
Proof.
  intros Hd Hf Hw Hs. unfold house_qr, shape. rewrite Hd, Hf, Hw.
  apply Nat.ltb_ge in Hs. rewrite Hs. reflexivity.
Qed.

(** A block size below 1 is refused with [ValueError], the block size in
    its arguments, and nothing has been called. *)
Lemma recursiveQR_invalid_block (A : mat T) (n_block : Z) :
  (n_block < 1)%Z ->
  recursiveQR jnp_linalg_qr A n_block =
  ([], Raise (ValueError "n_block must be greater than 0; it was " (PyInt n_block))).
Proof.
  intros Hb. unfold recursiveQR. simp __recursiveQR.
  destruct (Z_lt_dec n_block 1); [reflexivity | contradiction].
Qed.

(** An integer [s] outside [[0, N)] is refused with [ValueError], [s] in
    its arguments, and nothing has been called. *)
Lemma block_power_svd_invalid_s (A : mat T) (s : Z) (tol : T) (max_iter : Z) :
  (s < 0 \/ Z.of_nat (mcols A) <= s)%Z ->
  block_power_svd jnp_linalg_qr gaussian_random_fill A (PyInt s) tol max_iter =
  ([], Raise (ValueError
                "s must be a smaller natural number than the columns of A; it was "
                (PyInt s))).
Proof.
  intros Hs. unfold block_power_svd, shape.
  assert (E : ((s <? 0)%Z || (Z.of_nat (mcols A) <=? s)%Z) = true).
  { apply orb_true_iff. destruct Hs; [left; apply Z.ltb_lt | right; apply Z.leb_le]; lia. }
  rewrite E. reflexivity.
Qed.
End Guards.

(** C6. For every matrix with more columns than rows, [house_qr] in mode
    ['factored'] or ['WY'] raises [NotImplementedError]; the log of calls is
    empty, so no factorisation was performed. *)
Theorem house_qr_wide_not_implemented
        {T : Type} `{FieldOps T}
        (jnp_linalg_qr : mat T -> string -> result (qr_ret T))
        (A : mat T) (mode : string) :
  (mrows A < mcols A)%nat ->
  mode = "factored"%string \/ mode = "WY"%string ->
  house_qr jnp_linalg_qr A mode =
  ([], Raise (NotImplementedError "n > m QR not implemented in factoredor WY mode.")).
Proof.
  intros Hs Hm. unfold house_qr, shape.
  rewrite (dense_mode_false Hm).
  apply Nat.ltb_lt in Hs. rewrite Hs. reflexivity.
Qed.

Lemma house_qr_wide_not_implemented_witness :
  house_qr qr_stub wide_1x2 "WY" =
  ([], Raise (NotImplementedError "n > m QR not implemented in factoredor WY mode.")).
Proof.
  apply (house_qr_wide_not_implemented qr_stub wide_1x2 (mode := "WY")).
  - simpl. lia.
  - right. reflexivity.
Defined.

(** C9, at the input where it fails.  An unrecognised mode on a matrix with
    more columns than rows does not reach the mode check: the shape check
    comes first and raises [NotImplementedError], whose text speaks of the
    factored and WY modes; no [ValueError] reports the mode. *)
Theorem house_qr_invalid_mode_wide :
  house_qr qr_stub wide_1x2 "bogus" =
  ([], Raise (NotImplementedError "n > m QR not implemented in factoredor WY mode."))
  /\ (forall msg v,
         snd (house_qr qr_stub wide_1x2 "bogus") <> Raise (ValueError msg v))
  /\ (mrows wide_1x2 = 1 /\ mcols wide_1x2 = 2).
Proof.
  split; [reflexivity | split].
  - intros msg v. discriminate.
  - split; reflexivity.
Qed.

(** C10. Without [s] (the default [None]) [block_power_svd] raises
    [TypeError] at [s < 0], before anything is called; the outcome is not
    the [ValueError] of the range check. *)
Theorem block_power_svd_default_s_type_error
        {T : Type} `{FieldOps T}
        (jnp_linalg_qr : mat T -> string -> result (qr_ret T))
        (gaussian_random_fill : mat T -> mat T)
        (A : mat T) (tol : T) (max_iter : Z) :
  block_power_svd jnp_linalg_qr gaussian_random_fill A PyNone tol max_iter =
  ([], Raise (TypeError "'<' not supported between instances of 'NoneType' and 'int'"))
  /\ (forall msg v,
         snd (block_power_svd jnp_linalg_qr gaussian_random_fill A PyNone tol max_iter)
         <> Raise (ValueError msg v))
  /\ (forall r,
         snd (block_power_svd jnp_linalg_qr gaussian_random_fill A PyNone tol max_iter)
         <> Ok r).
Proof.
  unfold block_power_svd, shape. repeat split; intros; discriminate.
Qed.

(** ** The iteration of the block-power SVD *)

Section SVDLoop.
Context {T : Type} `{FieldOps T}.
Variable jnp_linalg_qr : mat T -> string -> result (qr_ret T).
Variables (A : mat T) (s : nat) (tol : T) (max_iter : Z).
Local Open Scope string_scope.

Local Notation "'iteration' V" := (__block_svd_iteration jnp_linalg_qr A V s)
  (at level 10, V at level 9).
Definition quad : Type := mat T * vec T * mat T * T.

Definition err_of (x : quad) : T := snd x.
Definition triple_of (x : quad) : mat T * vec T * mat T := fst x.

(** [svd_pass V k x]: started with [V], the [k]-th pass of the loop body
    ([k >= 1]) computes [x = (U, Sigma, V', err)]. *)
Inductive svd_pass : mat T -> nat -> quad -> Prop :=
| pass_first V l x :
    iteration V = (l, Ok x) -> svd_pass V 1 x
| pass_next V l y k x :
    iteration V = (l, Ok y) -> svd_pass (snd (fst y)) k x -> svd_pass V (S k) x.

Lemma svd_pass_pos V k x : svd_pass V k x -> (1 <= k)%nat.
Proof. induction 1; lia. Qed.

(** The dense QR answers every reduced-mode call with a pair. *)
Hypothesis qr_answers :
  forall B, exists Q R, jnp_linalg_qr B "reduced" = Ok (QRpair Q R).

Lemma qr_reduced_ok B :
  exists Q R, qr_reduced jnp_linalg_qr B = ([Call "jnp.linalg.qr"], Ok (Q, R)).
Proof.
  destruct (qr_answers B) as (Q & R & E). exists Q, R.
  unfold qr_reduced, bind, call. simpl. rewrite E. reflexivity.
Qed.

Lemma iteration_ok V :
  exists x, iteration V = ([Call "jnp.linalg.qr"; Call "jnp.linalg.qr"], Ok x).
Proof.
  unfold __block_svd_iteration.
  destruct (qr_reduced_ok (matmul A V)) as (Ql & Rl & E1).
  rewrite E1. unfold bind at 1. simpl.
  destruct (qr_reduced_ok (matmul (dag A) (cols_upto Ql s))) as (Qr & Rr & E2).
  rewrite E2. unfold bind. simpl. eexists. reflexivity.
Qed.

(** The loop, entered with [V] and the counter at [n_iter]: it stops at
    the first pass [k] whose error is at most [tol] or whose count
    [n_iter + k] reaches [max_iter], returns the triple of that pass, and
    prints the warning exactly when the count has reached [max_iter]. *)
Lemma block_power_svd_loop_spec (n : nat) :
  forall V n_iter, Z.to_nat (max_iter - n_iter) = n ->
  exists k x l,
    block_power_svd_loop jnp_linalg_qr A s tol max_iter V n_iter = (l, Ok (triple_of x))
    /\ svd_pass V k x
    /\ (sleb (err_of x) tol = true \/ (n_iter + Z.of_nat k >= max_iter)%Z)
    /\ (forall k' x', svd_pass V k' x' -> (k' < k)%nat ->
                      sleb (err_of x') tol = false /\ (n_iter + Z.of_nat k' < max_iter)%Z)
    /\ filter is_print l =
       (if (n_iter + Z.of_nat k >=? max_iter)%Z
        then [Print "Warning: max_iter reached, err was: " (err_of x)] else []).
Proof.
  induction n as [n IH] using lt_wf_ind. intros V n_iter Hn.
  rewrite block_power_svd_loop_equation_1.
  destruct (iteration_ok V) as (x & Ex).
  destruct x as [[[U Sigma] V'] err] eqn:Hx.
  cbv zeta. rewrite Ex. unfold bind at 1. cbn [fst snd].
  destruct (sumbool_of_bool (sleb err tol || (n_iter + 1 >=? max_iter)%Z))
    as [Hdone | Hdone].
  - (* the loop stops after this pass *)
    exists 1%nat, x. subst x.
    change (Z.of_nat 1) with 1%Z.
    destruct (n_iter + 1 >=? max_iter)%Z eqn:Hcap;
      (eexists; split; [unfold bind; cbn; reflexivity|]).
    all: split; [|split; [|split]].
    all: try (eapply pass_first; eassumption).
    all: try (intros k' x' Hp Hlt; apply svd_pass_pos in Hp; lia).
    all: try reflexivity.
    + right. rewrite Z.geb_leb in Hcap. apply Z.leb_le in Hcap. lia.
    + left. rewrite orb_false_r in Hdone. exact Hdone.
  - (* another pass *)
    apply orb_false_elim in Hdone as [Herr Hcap].
    rewrite Hcap.
    assert (Hlt : (n_iter + 1 < max_iter)%Z).
    { rewrite Z.geb_leb in Hcap. apply Z.leb_gt in Hcap. lia. }
    destruct (IH (Z.to_nat (max_iter - (n_iter + 1))) ltac:(lia) V' (n_iter + 1)%Z eq_refl)
      as (k & x1 & l1 & Eloop & Hpass & Hstop & Hbefore & Hprint).
    exists (S k), x1. eexists. split; [|split; [|split; [|split]]].
    + unfold bind at 1. cbn [fst snd ret print].
      unfold bind. cbn [fst snd]. rewrite Eloop. cbn. reflexivity.
    + eapply pass_next; [exact Ex | exact Hpass].
    + destruct Hstop as [Hs | Hs]; [left; exact Hs | right; lia].
    + intros k' x' Hp Hk'. inversion Hp; subst.
      * rewrite Ex in H1. inversion H1; subst. cbn. split; [exact Herr | lia].
      * rewrite Ex in H1. inversion H1; subst. cbn in H2.
        destruct (Hbefore k0 x' H2 ltac:(lia)) as [Ha Hb]. split; [exact Ha | lia].
    + cbn [filter is_print]. rewrite Hprint.
      replace (n_iter + Z.of_nat (S k))%Z with (n_iter + 1 + Z.of_nat k)%Z by lia.
      reflexivity.
Qed.
End SVDLoop.

(** C8. [block_power_svd] with a valid [s] runs the passes of its loop up
    to the first one whose error is at most [tol] or whose number reaches
    [max_iter]; it returns the triple of that pass also when the cap was
    reached, having then printed the warning, and raises nothing. *)
Theorem block_power_svd_stops
        {T : Type} `{FieldOps T}
        (jnp_linalg_qr : mat T -> string -> result (qr_ret T))
        (gaussian_random_fill : mat T -> mat T)
        (A : mat T) (sz : Z) (tol : T) (max_iter : Z) :
  (forall B, exists Q R, jnp_linalg_qr B "reduced"%string = Ok (QRpair Q R)) ->
  (0 <= sz < Z.of_nat (mcols A))%Z ->
  let s := Z.to_nat sz in
  let V0 := gaussian_random_fill (jnp_zeros (mcols A) s) in
  exists k x l,
    block_power_svd jnp_linalg_qr gaussian_random_fill A (PyInt sz) tol max_iter
    = (Call "gaussian_random_fill" :: l, Ok (triple_of x))
    /\ svd_pass jnp_linalg_qr A s V0 k x
    /\ (sleb (err_of x) tol = true \/ (Z.of_nat k >= max_iter)%Z)
    /\ (forall k' x', svd_pass jnp_linalg_qr A s V0 k' x' -> (k' < k)%nat ->
                      sleb (err_of x') tol = false /\ (Z.of_nat k' < max_iter)%Z)
    /\ filter is_print l =
       (if (Z.of_nat k >=? max_iter)%Z
        then [Print "Warning: max_iter reached, err was: " (err_of x)] else []).
Proof.
  intros Hqr Hs s V0.
  destruct (block_power_svd_loop_spec jnp_linalg_qr A s tol max_iter Hqr
              V0 0%Z eq_refl)
    as (k & x & l & Eloop & Hpass & Hstop & Hbefore & Hprint).
  exists k, x, l. unfold block_power_svd, shape.
  assert (E : ((sz <? 0)%Z || (Z.of_nat (mcols A) <=? sz)%Z) = false).
  { apply orb_false_iff. split; [apply Z.ltb_ge | apply Z.leb_gt]; lia. }
  rewrite E. unfold bind at 1, call. cbn [fst snd].
  fold s. fold V0. rewrite Eloop. cbn [fst snd app].
  repeat split; try assumption.
  - apply (Hbefore k' x'); assumption.
  - apply (Hbefore k' x'); assumption.
Qed.

Lemma block_power_svd_stops_witness :
  exists k x l,
    block_power_svd qr_stub (fun V => jnp_eye 2) tall_3x2 (PyInt 1) 0%float 3
    = (Call "gaussian_random_fill" :: l, Ok (triple_of x))
    /\ svd_pass qr_stub tall_3x2 1 (jnp_eye 2) k x
    /\ (sleb (err_of x) 0%float = true \/ (Z.of_nat k >= 3)%Z)
    /\ (forall k' x', svd_pass qr_stub tall_3x2 1 (jnp_eye 2) k' x' -> (k' < k)%nat ->
                      sleb (err_of x') 0%float = false /\ (Z.of_nat k' < 3)%Z)
    /\ filter is_print l =
       (if (Z.of_nat k >=? 3)%Z
        then [Print "Warning: max_iter reached, err was: " (err_of x)] else []).
Proof.
  apply (block_power_svd_stops qr_stub (fun V => jnp_eye 2) tall_3x2 (sz := 1) 0%float 3).
  - intros B. unfold qr_stub. eexists _, _. reflexivity.
  - simpl. lia.
Defined.

(** The run of the witness: three passes, the third at the cap. *)

Example block_power_svd_cap_run :
  map event_name
      (fst (block_power_svd qr_stub (fun V => jnp_eye 2) tall_3x2 (PyInt 1) 0%float 3))
  = ["gaussian_random_fill";
     "jnp.linalg.qr"; "jnp.linalg.qr"; "jnp.linalg.qr"; "jnp.linalg.qr";
     "jnp.linalg.qr"; "jnp.linalg.qr";
     "Warning: max_iter reached, err was: "]%string
  /\ exists r,
      snd (block_power_svd qr_stub (fun V => jnp_eye 2) tall_3x2 (PyInt 1) 0%float 3) = Ok r.
Proof. split; [vm_compute; reflexivity | eexists; vm_compute; reflexivity]. Qed.

(** ** Sums over a commutative ring *)

Section Sums.
Context {T : Type} {ops : ScalarOps T}.
Context (laws : ring_theory s0 s1 sadd smul ssub sopp eq).
Add Ring scalar_ring : laws.
Local Open Scope scalar_scope.

Lemma ssum_ext n (f g : nat -> T) :
  (forall i, i < n -> f i = g i) -> ssum n f = ssum n g.
Proof.
  induction n as [|n IH]; intros E; simpl; [reflexivity|].
  rewrite IH by (intros; apply E; lia). rewrite E by lia. reflexivity.
Qed.

Lemma ssum_zero n (f : nat -> T) :
  (forall i, i < n -> f i = s0) -> ssum n f = s0.
Proof.
  induction n as [|n IH]; intros E; simpl; [reflexivity|].
  rewrite IH by (intros; apply E; lia). rewrite E by lia. ring.
Qed.

Lemma ssum_add n (f g : nat -> T) :
  ssum n (fun i => f i + g i) = ssum n f + ssum n g.
Proof. induction n as [|n IH]; simpl; [|rewrite IH]; ring. Qed.

Lemma ssum_sub n (f g : nat -> T) :
  ssum n (fun i => f i - g i) = ssum n f - ssum n g.
Proof. induction n as [|n IH]; simpl; [|rewrite IH]; ring. Qed.

Lemma ssum_scale_l n c (f : nat -> T) :
  ssum n (fun i => c * f i) = c * ssum n f.
Proof. induction n as [|n IH]; simpl; [|rewrite IH]; ring. Qed.

Lemma ssum_scale_r n c (f : nat -> T) :
  ssum n (fun i => f i * c) = ssum n f * c.
Proof. induction n as [|n IH]; simpl; [|rewrite IH]; ring. Qed.

Lemma ssum_swap n m (f : nat -> nat -> T) :
  ssum n (fun i => ssum m (fun k => f i k)) = ssum m (fun k => ssum n (fun i => f i k)).
Proof.
  induction n as [|n IH]; simpl.
  - symmetry. apply ssum_zero. reflexivity.
  - rewrite IH, <- ssum_add. reflexivity.
Qed.

(** The sum of a function that vanishes below [a]. *)
Lemma ssum_skip a b (f : nat -> T) :
  (forall i, i < a -> f i = s0) ->
  ssum (a + b)%nat f = ssum b (fun i => f (a + i)%nat).
Proof.
  intros Z0. induction b as [|b IH].
  - rewrite Nat.add_0_r. simpl. apply ssum_zero. exact Z0.
  - rewrite Nat.add_succ_r. simpl. rewrite IH. reflexivity.
Qed.

(** A sum against the rows or columns of the identity picks one term. *)
Lemma ssum_delta_l n i (f : nat -> T) :
  i < n -> ssum n (fun l => (if i =? l then s1 else s0) * f l) = f i.
Proof.
  induction n as [|n IH]; intros Hi; [lia|]. simpl.
  destruct (Nat.eq_dec i n) as [->|Hne].
  - rewrite Nat.eqb_refl. rewrite ssum_zero; [ring|].
    intros l Hl. destruct (Nat.eqb_spec n l); [lia | ring].
  - rewrite IH by lia. destruct (Nat.eqb_spec i n); [contradiction | ring].
Qed.

Lemma ssum_delta_r n k (f : nat -> T) :
  k < n -> ssum n (fun l => f l * (if l =? k then s1 else s0)) = f k.
Proof.
  intros Hk. rewrite <- (ssum_delta_l f Hk). apply ssum_ext.
  intros l _. rewrite (Nat.eqb_sym l k). ring.
Qed.
End Sums.

(** ** The WY form, column by column *)

Section WYColumns.
Context {T : Type} {ops : ScalarOps T}.
Context (laws : ring_theory s0 s1 sadd smul ssub sopp eq).
Add Ring scalar_ring_wy : laws.
Local Open Scope scalar_scope.

Variables (H0 : mat T) (betas : vec T).

Local Notation "'hv' j" := (vget (householder_vector H0 j)) (at level 10, j at level 9).

(** The loop state of [factored_to_WY] after the passes [1 .. k]. *)
Definition wy_state (k : nat) : vec T * mat T * mat T :=
  let W := jnp_zeros (mrows H0) (mcols H0) in
  let vj := cons1 (col_from H0 1 0) in
  let W := upd_col W 0 (vscale (vget betas 0) vj) in
  let Y := jnp_zeros (mrows H0) (mcols H0) in
  let Y := upd_col Y 0 vj in
  fold_left (factored_to_WY_step H0 betas) (seq 1 k) (vj, W, Y).

Lemma wy_state_S k :
  wy_state (S k) = factored_to_WY_step H0 betas (wy_state k) (S k).
Proof. unfold wy_state. rewrite seq_S, fold_left_app. reflexivity. Qed.

Lemma factored_to_WY_loop_state :
  factored_to_WY_loop (H0, betas) = wy_state (mcols H0 - 1).
Proof. reflexivity. Qed.

(** What holds of [(vj, W, Y)] after the passes [1 .. k]. *)
Record wy_inv (k : nat) (st : vec T * mat T * mat T) : Prop := {
  inv_W_rows : mrows (snd (fst st)) = mrows H0;
  inv_W_cols : mcols (snd (fst st)) = mcols H0;
  inv_Y_rows : mrows (snd st) = mrows H0;
  inv_Y_cols : mcols (snd st) = mcols H0;
  inv_vj : forall l, k <= l -> vget (fst (fst st)) l = hv k l;
  inv_Y_done : forall c l, c <= k -> mget (snd st) l c = hv c l;
  inv_Y_ahead : forall c l, k < c -> mget (snd st) l c = s0;
  inv_W_first : forall i, mget (snd (fst st)) i 0 = vget betas 0 * hv 0 i;
  inv_W_done : forall c i, 1 <= c <= k -> i < mrows H0 ->
      mget (snd (fst st)) i c =
      vget betas c *
      (hv c i - ssum c (fun c' => mget (snd (fst st)) i c' *
                  ssum (mrows H0) (fun l => sconj (mget (snd st) l c') * hv c l)))
}.

Lemma hv_above j l : l < j -> hv j l = s0.
Proof. intros Hl. simpl. apply Nat.ltb_lt in Hl. rewrite Hl. reflexivity. Qed.

Lemma hv_diag j : hv j j = s1.
Proof. simpl. rewrite Nat.ltb_irrefl, Nat.eqb_refl. reflexivity. Qed.

Lemma hv_below j l : j < l -> hv j l = mget H0 l j.
Proof.
  intros Hl. simpl.
  destruct (Nat.ltb_spec l j); [lia|]. destruct (Nat.eqb_spec l j); [lia|]. reflexivity.
Qed.

Lemma wy_inv_0 : wy_inv 0 (wy_state 0).
Proof.
  unfold wy_state. simpl fold_left.
  constructor; cbn [fst snd]; try reflexivity.
  - intros l _. destruct l as [|l]; reflexivity.
  - intros c l Hc. assert (c = 0) by lia. subst c.
    destruct l as [|l]; reflexivity.
  - intros c l Hc. cbn. destruct (Nat.eqb_spec c 0); [lia|]. reflexivity.
  - intros i. cbn. rewrite Nat.sub_0_r. destruct i as [|i]; reflexivity.
  - intros c i Hc. lia.
Qed.

(** The loop-carried [vj] after its two updates in pass [j]. *)
Lemma vj_updated (vj : vec T) k l :
  (forall l, k <= l -> vget vj l = hv k l) ->
  S k <= l ->
  vget (vupd (vupd_from vj (S k + 1) (col_from H0 (S k + 1) (S k))) (S k) s1) l
  = hv (S k) l.
Proof.
  intros Hvj Hl. cbn [vget vupd vupd_from col_from].
  destruct (Nat.eqb_spec l (S k)) as [->|Hne].
  - symmetry. apply hv_diag.
  - destruct (Nat.leb_spec (S k + 1) l); [|lia].
    rewrite hv_below by lia. f_equal. lia.
Qed.

Lemma wy_inv_step k st :
  S k < mcols H0 -> mcols H0 <= mrows H0 ->
  wy_inv k st -> wy_inv (S k) (factored_to_WY_step H0 betas st (S k)).
Proof.
  intros Hk Hshape Inv. destruct st as [[vj W] Y].
  destruct Inv as [HWr HWc HYr HYc Hvj HYd HYt HW0 HWd]. cbn [fst snd] in *.
  unfold factored_to_WY_step.
  set (vj' := vupd (vupd_from vj (S k + 1) (col_from H0 (S k + 1) (S k))) (S k) s1).
  assert (Hvj' : forall l, S k <= l -> vget vj' l = hv (S k) l).
  { intros l Hl. apply vj_updated; assumption. }
  constructor; cbn [fst snd].
  - exact HWr.
  - exact HWc.
  - exact HYr.
  - exact HYc.
  - exact Hvj'.
  - intros c l Hc. cbn [mget upd_col_from vfrom vget].
    destruct (Nat.eqb_spec c (S k)) as [->|Hne].
    + destruct (Nat.leb_spec (S k) l) as [Hl|Hl]; cbn [andb].
      * replace (S k + (l - S k))%nat with l by lia. apply Hvj'. exact Hl.
      * rewrite HYt by lia. symmetry. apply hv_above. exact Hl.
    + rewrite andb_false_r. apply HYd. lia.
  - intros c l Hc. cbn [mget upd_col_from].
    destruct (Nat.eqb_spec c (S k)); [lia|]. rewrite andb_false_r. apply HYt. lia.
  - intros i. cbn [mget upd_col upd_col_from]. cbn [Nat.eqb andb]. apply HW0.
  - intros c i Hc Hi.
    assert (Wold : forall c', c' < S k ->
              mget (upd_col W (S k) (vscale (- vget betas (S k))
                 (vadd_from (matvec (cols_upto W (S k))
                    (matvec (dag (block_rows_from_cols_upto Y (S k) (S k))) (vfrom vj' (S k))))
                    (S k) (vneg (vfrom vj' (S k)))))) i c' = mget W i c').
    { intros c' Hc'. cbn [mget upd_col upd_col_from].
      destruct (Nat.eqb_spec c' (S k)); [lia|]. rewrite andb_false_r. reflexivity. }
    assert (Yold : forall c' l, c' < S k ->
              mget (upd_col_from Y (S k) (S k) (vfrom vj' (S k))) l c' = mget Y l c').
    { intros c' l Hc'. cbn [mget upd_col_from].
      destruct (Nat.eqb_spec c' (S k)); [lia|]. rewrite andb_false_r. reflexivity. }
    destruct (Nat.eq_dec c (S k)) as [->|Hne].
    + (* the column written by this pass *)
      transitivity
        (vget betas (S k) *
         (hv (S k) i - ssum (S k) (fun c' => mget W i c' *
            ssum (mrows H0) (fun l => sconj (mget Y l c') * hv (S k) l)))).
      2:{ f_equal. f_equal. apply ssum_ext. intros c' Hc'.
          rewrite Wold by exact Hc'. f_equal. apply ssum_ext. intros l _.
          rewrite Yold by exact Hc'. reflexivity. }
      cbn [mget upd_col upd_col_from]. rewrite Nat.eqb_refl. cbn [Nat.leb andb].
      rewrite Nat.sub_0_r.
      cbn [vget vscale vadd_from vneg vfrom matvec cols_upto mcols mrows mget dag
           block_rows_from_cols_upto].
      rewrite HWc, HYr. rewrite (Nat.min_l (S k) (mcols H0)) by lia.
      assert (Einner : forall c',
                ssum (mrows H0 - S k)
                     (fun l => sconj (mget Y (S k + l) c') * vget vj' (S k + l))
                = ssum (mrows H0) (fun l => sconj (mget Y l c') * hv (S k) l)).
      { intros c'.
        replace (mrows H0) with (S k + (mrows H0 - S k))%nat at 2 by lia.
        rewrite (ssum_skip laws).
        - apply ssum_ext. intros l _. rewrite Hvj' by lia. reflexivity.
        - intros l Hl. rewrite hv_above by exact Hl. ring. }
      rewrite (ssum_ext _ (fun c' => mget W i c' *
                 ssum (mrows H0) (fun l => sconj (mget Y l c') * hv (S k) l)))
        by (intros c' _; rewrite Einner; reflexivity).
      destruct (Nat.leb_spec (S k) i) as [Hi'|Hi'].
      * replace (S k + (i - S k))%nat with i by lia. rewrite Hvj' by exact Hi'. ring.
      * rewrite (hv_above Hi'). ring.
    + (* an earlier column *)
      rewrite Wold by lia. rewrite HWd by lia.
      f_equal. f_equal. apply ssum_ext. intros c' Hc'.
      rewrite Wold by lia. f_equal. apply ssum_ext. intros l _.
      rewrite Yold by lia. reflexivity.
Qed.

Lemma wy_inv_state k :
  k < mcols H0 -> mcols H0 <= mrows H0 -> wy_inv k (wy_state k).
Proof.
  intros Hk Hshape. induction k as [|k IH].
  - apply wy_inv_0.
  - rewrite wy_state_S. apply wy_inv_step; [lia | exact Hshape | apply IH; lia].
Qed.
End WYColumns.

(** C5, as amended. For every column [j >= 1] of a factored form with
    [N <= M], column [j] of [W] is [beta_j * (v_j - W[:, :j] (Y[:, :j]^* v_j))]
    (the factor is [beta_j], not [-beta_j]), and column [j] of [Y] from row
    [j] down is [v_j[j:]]. *)
Theorem factored_to_WY_column
        {T : Type} {ops : ScalarOps T}
        (laws : ring_theory s0 s1 sadd smul ssub sopp eq)
        (H0 : mat T) (betas : vec T) (j : nat) :
  1 <= j < mcols H0 -> mcols H0 <= mrows H0 ->
  wy_column_claim (fun beta_j => beta_j) H0 betas j.
Proof.
  intros Hj Hshape. unfold wy_column_claim.
  rewrite factored_to_WY_loop_state.
  pose proof (wy_inv_state laws H0 betas (k := mcols H0 - 1)
                ltac:(lia) Hshape) as Inv.
  destruct (wy_state H0 betas (mcols H0 - 1)) as [[vj W] Y].
  destruct Inv as [HWr HWc HYr HYc Hvj HYd HYt HW0 HWd]. cbn [fst snd] in *.
  unfold col, wy_column.
  split; split; cbn [vlen col_from vscale vsub householder_vector vfrom].
  - lia.
  - intros i Hi. cbn [vget vscale vsub col_from Nat.add].
    rewrite HWd by lia.
    cbn [vget matvec cols_upto dag mcols mrows mget].
    rewrite HWc, HYr. rewrite (Nat.min_l j (mcols H0)) by lia. reflexivity.
  - lia.
  - intros i Hi. cbn [vget col_from vfrom]. rewrite HYd by lia. reflexivity.
Qed.

Lemma Z_laws : @ring_theory Z s0 s1 sadd smul ssub sopp eq.
Proof. exact InitialRing.Zth. Qed.

Lemma factored_to_WY_column_witness :
  wy_column_claim (fun beta_j => beta_j) H_id2 betas_id2 1.
Proof.
  apply (factored_to_WY_column Z_laws H_id2 betas_id2 (j := 1)).
  - simpl. lia.
  - simpl. lia.
Defined.

(** C5, as stated, fails: on the factored form of the 2x2 identity, column
    1 of [W] is [[0; 2]], whereas [-beta_1 * (v_1 - W[:, :1] (Y[:, :1]^* v_1))]
    is [[0; -2]]. *)
Lemma factored_to_WY_column_sign :
  ~ wy_column_claim sopp H_id2 betas_id2 1.
Proof.
  unfold wy_column_claim. intros [[_ Hcol] _].
  specialize (Hcol 1). vm_compute in Hcol.
  specialize (Hcol (le_n 2)). discriminate Hcol.
Qed.

Example factored_to_WY_id2 :
  let '(vj, W, Y) := factored_to_WY_loop (H_id2, betas_id2) in
  mat_to_rows W = [[2; 0]; [0; 2]]%Z
  /\ vec_to_list (wy_column (sopp (vget betas_id2 1)) H_id2 W Y 1) = [0; -2]%Z
  /\ vec_to_list (wy_column (vget betas_id2 1) H_id2 W Y 1) = [0; 2]%Z.
Proof. vm_compute. repeat split. Qed.

(** ** The dense [Q], from the factored form and from the WY form *)

Section DenseQ.
Context {T : Type} {ops : ScalarOps T}.
Context (laws : scalar_laws T).
Add Ring scalar_ring_q : (sl_ring laws).
Local Open Scope scalar_scope.

Variables (H0 : mat T) (betas : vec T).

Local Notation "'hv' j" := (vget (householder_vector H0 j)) (at level 10, j at level 9).

(** Entries of square matrices of order [M], compared inside the matrix. *)
Definition feq (X Y : nat -> nat -> T) : Prop :=
  forall i k, i < mrows H0 -> k < mrows H0 -> X i k = Y i k.

Definition delta (i k : nat) : T := if i =? k then s1 else s0.

(** [P_j X] and [X P_j] for the reflector [P_j = I - beta_j v_j v_j^*]. *)
Definition refl_left (j : nat) (X : nat -> nat -> T) : nat -> nat -> T :=
  fun i k => X i k - (vget betas j * hv j i) * ssum (mrows H0) (fun l => sconj (hv j l) * X l k).
Definition refl_right (j : nat) (X : nat -> nat -> T) : nat -> nat -> T :=
  fun i k => X i k - vget betas j * ssum (mrows H0) (fun l => X i l * hv j l) * sconj (hv j k).

(** [P_0 (P_1 (... (P_{n-1} X)))] and [((X P_0) P_1 ...) P_{n-1}]. *)
Fixpoint Lchain (n : nat) (X : nat -> nat -> T) : nat -> nat -> T :=
  match n with
  | 0 => X
  | S n' => Lchain n' (refl_left n' X)
  end.
Fixpoint Rchain (n : nat) (X : nat -> nat -> T) : nat -> nat -> T :=
  match n with
  | 0 => X
  | S n' => refl_right n' (Rchain n' X)
  end.

Lemma refl_left_ext j X Y : feq X Y -> feq (refl_left j X) (refl_left j Y).
Proof.
  intros E i k Hi Hk. unfold refl_left. rewrite (E i k Hi Hk).
  f_equal. f_equal. apply ssum_ext. intros l Hl. rewrite (E l k Hl Hk). reflexivity.
Qed.

Lemma refl_right_ext j X Y : feq X Y -> feq (refl_right j X) (refl_right j Y).
Proof.
  intros E i k Hi Hk. unfold refl_right. rewrite (E i k Hi Hk).
  f_equal. f_equal. f_equal. apply ssum_ext. intros l Hl.
  rewrite (E i l Hi Hl). reflexivity.
Qed.

Lemma Lchain_ext n : forall X Y, feq X Y -> feq (Lchain n X) (Lchain n Y).
Proof.
  induction n as [|n IH]; intros X Y E; simpl; [exact E|].
  apply IH. apply refl_left_ext. exact E.
Qed.

Lemma feq_trans X Y Z : feq X Y -> feq Y Z -> feq X Z.
Proof. intros E1 E2 i k Hi Hk. rewrite (E1 i k Hi Hk). apply E2; assumption. Qed.

Lemma feq_sym X Y : feq X Y -> feq Y X.
Proof. intros E i k Hi Hk. symmetry. apply E; assumption. Qed.

(** [P_j (X P_k) = (P_j X) P_k] *)
Lemma refl_comm j k X :
  feq (refl_left j (refl_right k X)) (refl_right k (refl_left j X)).
Proof.
  intros i c _ _. unfold refl_left, refl_right.
  set (A := fun l => ssum (mrows H0) (fun a => X l a * hv k a)).
  set (B := fun l => ssum (mrows H0) (fun l0 => sconj (hv j l0) * X l0 l)).
  assert (E1 : ssum (mrows H0)
                 (fun l => sconj (hv j l) *
                           (X l c - vget betas k * A l * sconj (hv k c)))
               = B c - (vget betas k * sconj (hv k c)) *
                       ssum (mrows H0) (fun l => sconj (hv j l) * A l)).
  { rewrite <- (ssum_scale_l (sl_ring laws)). unfold B.
    rewrite <- (ssum_sub (sl_ring laws)).
    apply ssum_ext. intros l _. ring. }
  assert (E2 : ssum (mrows H0)
                 (fun l => (X i l - vget betas j * hv j i * B l) * hv k l)
               = A i - (vget betas j * hv j i) *
                       ssum (mrows H0) (fun l => B l * hv k l)).
  { rewrite <- (ssum_scale_l (sl_ring laws)). unfold A.
    rewrite <- (ssum_sub (sl_ring laws)).
    apply ssum_ext. intros l _. ring. }
  assert (Eswap : ssum (mrows H0) (fun l => sconj (hv j l) * A l)
                  = ssum (mrows H0) (fun l => B l * hv k l)).
  { unfold A, B.
    transitivity (ssum (mrows H0) (fun l =>
                    ssum (mrows H0) (fun a => sconj (hv j l) * X l a * hv k a))).
    - apply ssum_ext. intros l _. rewrite <- (ssum_scale_l (sl_ring laws)).
      apply ssum_ext. intros a _. ring.
    - rewrite (ssum_swap (sl_ring laws)). apply ssum_ext. intros a _.
      rewrite <- (ssum_scale_r (sl_ring laws)). reflexivity. }
  change (X i c - vget betas k * A i * sconj (hv k c)
          - vget betas j * hv j i *
            ssum (mrows H0)
                 (fun l => sconj (hv j l) *
                           (X l c - vget betas k * A l * sconj (hv k c)))
          = X i c - vget betas j * hv j i * B c
            - vget betas k *
              ssum (mrows H0)
                   (fun l => (X i l - vget betas j * hv j i * B l) * hv k l)
              * sconj (hv k c)).
  rewrite E1, E2, Eswap. ring.
Qed.

Lemma Lchain_right n k : forall X,
  feq (Lchain n (refl_right k X)) (refl_right k (Lchain n X)).
Proof.
  induction n as [|n IH]; intros X; simpl.
  - intros i c _ _. reflexivity.
  - eapply feq_trans; [apply Lchain_ext, refl_comm | apply IH].
Qed.

Lemma refl_delta j : feq (refl_left j delta) (refl_right j delta).
Proof.
  intros i k Hi Hk. unfold refl_left, refl_right, delta.
  rewrite (ssum_delta_r (sl_ring laws) _ Hk).
  rewrite (ssum_delta_l (sl_ring laws) _ Hi). ring.
Qed.

(** The two products of the reflectors agree. *)
Lemma chains_agree n : feq (Lchain n delta) (Rchain n delta).
Proof.
  induction n as [|n IH]; simpl.
  - intros i k _ _. reflexivity.
  - eapply feq_trans; [apply Lchain_ext, refl_delta|].
    eapply feq_trans; [apply Lchain_right|].
    apply refl_right_ext. exact IH.
Qed.

(** *** [factored_to_QR] multiplies the reflectors from the left *)

Lemma cons1_hv j l : vget (cons1 (col_from H0 (j + 1) j)) l = hv j (j + l).
Proof.
  destruct l as [|l]; cbn [vget cons1 col_from].
  - rewrite Nat.add_0_r. symmetry. apply hv_diag.
  - rewrite hv_below by lia. f_equal. lia.
Qed.

Lemma ssum_hv_skip j (f : nat -> T) :
  j <= mrows H0 ->
  ssum (mrows H0 - j) (fun l => sconj (hv j (j + l)) * f (j + l)%nat)
  = ssum (mrows H0) (fun l => sconj (hv j l) * f l).
Proof.
  intros Hj. replace (mrows H0) with (j + (mrows H0 - j))%nat at 2 by lia.
  rewrite (ssum_skip (sl_ring laws)); [reflexivity|].
  intros l Hl. rewrite hv_above by exact Hl. rewrite (sl_conj0 laws). ring.
Qed.

(** [Q] is the identity outside its block [Q[j:, j:]]. *)
Definition id_outside (j : nat) (Q : mat T) : Prop :=
  forall i k, i < mrows H0 -> k < mrows H0 -> i < j \/ k < j -> mget Q i k = delta i k.

Lemma factored_to_QR_step_spec j Q :
  j < mrows H0 -> id_outside j Q ->
  feq (mget (factored_to_QR_step H0 betas Q j)) (refl_left j (mget Q))
  /\ id_outside j (factored_to_QR_step H0 betas Q j)
  /\ shape (factored_to_QR_step H0 betas Q j) = shape Q.
Proof.
  intros Hj Hid. split; [|split; [|reflexivity]].
  - intros i k Hi Hk. unfold factored_to_QR_step, refl_left.
    cbn [mget upd_block].
    destruct (Nat.leb_spec j i) as [Hji|Hji]; cbn [andb].
    + destruct (Nat.leb_spec j k) as [Hjk|Hjk].
      * unfold house_leftmult.
        cbn [mget msub jnp_outer vscale vget vecmat dag1 block_from mcols mrows].
        rewrite cons1_hv.
        change (vlen (dag1 (cons1 (col_from H0 (j + 1) j))))
          with (S (mrows H0 - (j + 1))).
        replace (j + (i - j))%nat with i by lia.
        replace (j + (k - j))%nat with k by lia.
        replace (S (mrows H0 - (j + 1))) with (mrows H0 - j)%nat by lia.
        f_equal. f_equal.
        rewrite <- (ssum_hv_skip (fun l => mget Q l k)) by lia.
        apply ssum_ext. intros l _. rewrite cons1_hv. reflexivity.
      * (* below the block's rows but left of its columns: nothing changes *)
        rewrite (ssum_zero (sl_ring laws)); [ring|].
        intros l Hl. destruct (Nat.ltb_spec l j) as [Hlj|Hlj].
        -- rewrite hv_above by exact Hlj. rewrite (sl_conj0 laws). ring.
        -- rewrite (Hid l k Hl Hk) by (right; exact Hjk). unfold delta.
           destruct (Nat.eqb_spec l k); [lia | ring].
    + rewrite hv_above by exact Hji. ring.
  - intros i k Hi Hk Hout. unfold factored_to_QR_step. cbn [mget upd_block].
    destruct (Nat.leb_spec j i); destruct (Nat.leb_spec j k); cbn [andb];
      try (apply Hid; assumption). lia.
Qed.

Lemma factored_to_QR_fold n : forall Q,
  n <= mrows H0 -> id_outside n Q ->
  feq (mget (fold_left (factored_to_QR_step H0 betas) (rev (seq 0 n)) Q))
      (Lchain n (mget Q))
  /\ shape (fold_left (factored_to_QR_step H0 betas) (rev (seq 0 n)) Q) = shape Q.
Proof.
  induction n as [|n IH]; intros Q Hn Hid.
  - simpl. split; [intros i k _ _; reflexivity | reflexivity].
  - rewrite seq_S, rev_app_distr. cbn [rev app fold_left Nat.add Lchain].
    assert (Hid' : id_outside n Q).
    { intros i k Hi Hk Hout. apply Hid; [assumption..|lia]. }
    destruct (factored_to_QR_step_spec (j := n) (Q := Q) ltac:(lia) Hid') as (Estep & Hid1 & Hsh).
    destruct (IH (factored_to_QR_step H0 betas Q n) ltac:(lia) Hid1) as (Efold & Hsh').
    split.
    + eapply feq_trans; [exact Efold|]. apply Lchain_ext. exact Estep.
    + rewrite Hsh'. exact Hsh.
Qed.

(** The [Q] of [factored_to_QR] is [P_0 P_1 ... P_{N-1}]. *)
Lemma factored_to_QR_Q :
  mcols H0 <= mrows H0 ->
  feq (mget (fst (factored_to_QR H0 betas))) (Lchain (mcols H0) delta)
  /\ shape (fst (factored_to_QR H0 betas)) = (mrows H0, mrows H0).
Proof.
  intros Hshape. unfold factored_to_QR, shape. cbn [fst].
  destruct (@factored_to_QR_fold (mcols H0) (jnp_eye (mrows H0)) Hshape)
    as (E & Hsh).
  - intros i k _ _ _. reflexivity.
  - split; [exact E | exact Hsh].
Qed.

(** *** [factored_to_WY] multiplies the reflectors from the right *)

Lemma WY_to_Q_entries (W Y : mat T) i k :
  i < mrows W ->
  mget (WY_to_Q W (dag Y)) i k
  = delta i k - ssum (mcols W) (fun c => mget W i c * sconj (mget Y k c)).
Proof.
  intros Hi. unfold WY_to_Q, B_times_Q_WY.
  cbn [mget msub matmul jnp_eye dag mcols mrows]. fold (delta i k).
  f_equal. apply ssum_ext. intros c _. f_equal.
  apply (ssum_delta_l (sl_ring laws) (fun a => mget W a c) Hi).
Qed.

Lemma WY_partial_product kk vj W Y :
  wy_inv H0 betas kk (vj, W, Y) ->
  forall c0, c0 <= kk ->
  feq (fun i k => delta i k - ssum (S c0) (fun c => mget W i c * sconj (mget Y k c)))
      (Rchain (S c0) delta).
Proof.
  intros Inv. destruct Inv as [HWr HWc HYr HYc Hvj HYd HYt HW0 HWd].
  cbn [fst snd] in *.
  induction c0 as [|c0 IH]; intros Hc0 i k Hi Hk.
  - cbn [ssum Rchain]. unfold refl_right.
    rewrite (ssum_delta_l (sl_ring laws) _ Hi).
    rewrite HW0, HYd by lia. ring.
  - specialize (IH ltac:(lia)).
    change (Rchain (S (S c0)) delta) with (refl_right (S c0) (Rchain (S c0) delta)).
    unfold refl_right.
    assert (E : ssum (mrows H0) (fun l => Rchain (S c0) delta i l * hv (S c0) l)
                = hv (S c0) i
                  - ssum (S c0) (fun c => mget W i c *
                      ssum (mrows H0) (fun l => sconj (mget Y l c) * hv (S c0) l))).
    { transitivity
        (ssum (mrows H0) (fun l => delta i l * hv (S c0) l)
         - ssum (mrows H0) (fun l =>
             ssum (S c0) (fun c => mget W i c * (sconj (mget Y l c) * hv (S c0) l)))).
      - rewrite <- (ssum_sub (sl_ring laws)). apply ssum_ext. intros l Hl.
        rewrite <- (IH i l Hi Hl). cbv beta.
        assert (Es : ssum (S c0)
                       (fun c => mget W i c * (sconj (mget Y l c) * hv (S c0) l))
                     = ssum (S c0) (fun c => mget W i c * sconj (mget Y l c))
                       * hv (S c0) l).
        { rewrite <- (ssum_scale_r (sl_ring laws)).
          apply ssum_ext. intros c _. ring. }
        rewrite Es. ring.
      - unfold delta at 1. rewrite (ssum_delta_l (sl_ring laws) _ Hi). f_equal.
        rewrite (ssum_swap (sl_ring laws)). apply ssum_ext. intros c _.
        rewrite (ssum_scale_l (sl_ring laws)). reflexivity. }
    rewrite <- (IH i k Hi Hk). cbv beta.
    rewrite E.
    change (ssum (S (S c0)) (fun c => mget W i c * sconj (mget Y k c)))
      with (ssum (S c0) (fun c => mget W i c * sconj (mget Y k c))
            + mget W i (S c0) * sconj (mget Y k (S c0))).
    rewrite (HWd (S c0) i) by lia. rewrite HYd by lia. ring.
Qed.

(** The dense [Q] recovered from the WY form of [(H, betas)] is the [Q]
    that [factored_to_QR] builds from it. *)
Lemma WY_to_Q_factored_to_QR :
  1 <= mcols H0 -> mcols H0 <= mrows H0 ->
  meq (WY_to_Q (fst (factored_to_WY (H0, betas))) (snd (factored_to_WY (H0, betas))))
      (fst (factored_to_QR H0 betas)).
Proof.
  intros Hn Hshape. unfold factored_to_WY.
  rewrite factored_to_WY_loop_state.
  pose proof (wy_inv_state (sl_ring laws) H0 betas (k := mcols H0 - 1)
                ltac:(lia) Hshape) as Inv.
  destruct (wy_state H0 betas (mcols H0 - 1)) as [[vj W] Y] eqn:Est.
  cbn [fst snd].
  destruct (factored_to_QR_Q Hshape) as (EQ & HshQ).
  pose proof (inv_W_rows Inv) as HWr. pose proof (inv_W_cols Inv) as HWc.
  cbn [fst snd] in HWr, HWc.
  unfold shape in HshQ. injection HshQ as HQr HQc.
  split; [|split].
  - cbn. rewrite HQr. exact HWr.
  - cbn. rewrite HQc. exact HWr.
  - intros i k Hi Hk. cbn [mrows mcols WY_to_Q B_times_Q_WY msub jnp_eye] in Hi, Hk.
    rewrite HWr in Hi, Hk.
    rewrite WY_to_Q_entries by lia. rewrite HWc.
    rewrite (EQ i k Hi Hk).
    rewrite (chains_agree (mcols H0) Hi Hk).
    pose proof (@WY_partial_product _ _ _ _ Inv (mcols H0 - 1) (le_n _) i k Hi Hk) as E.
    cbv beta in E. replace (S (mcols H0 - 1)) with (mcols H0) in E by lia.
    exact E.
Qed.
End DenseQ.

(** ** The factorisation keeps the shape of its argument *)

Section FactoredShape.
Context {T : Type} `{FieldOps T}.

Lemma for_range_invariant {S : Type} (P : S -> Prop) (body : S -> nat -> option S) :
  (forall st j st', P st -> body st j = Some st' -> P st') ->
  forall js st st', P st -> for_range body js st = Some st' -> P st'.
Proof.
  intros Hbody. induction js as [|j js IH]; intros st st' Hst E; simpl in E.
  - injection E as <-. exact Hst.
  - destruct (body st j) as [st1|] eqn:E1; simpl in E; [|discriminate].
    eapply IH; [eapply Hbody; eassumption | exact E].
Qed.

Lemma __house_qr_factored_step_shape M st j st' :
  __house_qr_factored_step M st j = Some st' -> shape (fst st') = shape (fst st).
Proof.
  destruct st as [H1 beta]. unfold __house_qr_factored_step.
  destruct (house (col_from H1 j j)) as [[v thisbeta]|]; simpl; [|discriminate].
  intros E. injection E as <-. destruct (j <? M); reflexivity.
Qed.

Lemma __house_qr_factored_shape (A H1 : mat T) (betas : vec T) :
  __house_qr_factored A = Some (H1, betas) -> shape H1 = shape A.
Proof.
  unfold __house_qr_factored, matshape, shape at 1.
  destruct (for_range (__house_qr_factored_step (mrows A)) (seq 0 (mcols A)) (A, []))
    as [[H2 beta]|] eqn:E; simpl; [|discriminate].
  intros E'. injection E' as <- _.
  apply (for_range_invariant (fun st => shape (fst st) = shape A)
           (__house_qr_factored_step (mrows A))) in E; [exact E | | reflexivity].
  intros st j st' Hst Estep.
  rewrite (__house_qr_factored_step_shape _ _ _ Estep). exact Hst.
Qed.
End FactoredShape.

(** C4. For every matrix with [1 <= N <= M] whose factored QR is
    [(H, betas)], the dense [Q] recovered from the WY form,
    [WY_to_Q(factored_to_WY([H, betas]))], is the [Q] of
    [factored_to_QR(H, betas)]: same shape, same entries. *)
Theorem WY_round_trip
        {T : Type} {ops : ScalarOps T} {fops : @FieldOps T ops}
        (laws : scalar_laws T) (A H1 : mat T) (betas : vec T) :
  1 <= mcols A <= mrows A ->
  __house_qr_factored A = Some (H1, betas) ->
  meq (WY_to_Q (fst (factored_to_WY (H1, betas))) (snd (factored_to_WY (H1, betas))))
      (fst (factored_to_QR H1 betas)).
Proof.
  intros Hshape E. apply __house_qr_factored_shape in E.
  unfold shape in E. injection E as Er Ec.
  apply (WY_to_Q_factored_to_QR laws); lia.
Qed.

(** *** The exact reals as scalars *)

Lemma R_laws : scalar_laws R.
Proof. split; [exact RTheory | reflexivity]. Qed.

Lemma R_seqb_true (a b : R) : a = b -> seqb a b = true.
Proof. intros E. simpl. destruct (Req_dec_T a b); [reflexivity | contradiction]. Qed.

Lemma R_seqb_false (a b : R) : a <> b -> seqb a b = false.
Proof. intros E. simpl. destruct (Req_dec_T a b); [contradiction | reflexivity]. Qed.

Lemma R_sdiv_defined (a b : R) : b <> 0%R -> sdiv a b = Some (a / b)%R.
Proof. intros E. simpl. destruct (Req_dec_T b 0); [contradiction | reflexivity]. Qed.

Lemma R_sdiv_zero (a : R) : sdiv a 0%R = None.
Proof. simpl. destruct (Req_dec_T 0 0); [reflexivity | contradiction]. Qed.

(** Over the reals, a vector whose tail has norm zero takes the first
    branch of [house]. *)
Lemma house_R_zero_tail (x : vec R) :
  jnp_linalg_norm (vfrom x 1) = 0%R -> house x = Some (__house_zero_norm x).
Proof. intros E. unfold house. rewrite E, R_seqb_true; reflexivity. Qed.

Lemma __house_qr_factored_eye2_R :
  exists H1 betas, __house_qr_factored eye2_R = Some (H1, betas).
Proof.
  eexists _, _.
  unfold __house_qr_factored, matshape, shape.
  cbn [mcols mrows eye2_R jnp_eye seq for_range].
  unfold __house_qr_factored_step at 1.
  rewrite house_R_zero_tail.
  2:{ unfold jnp_linalg_norm. cbn.
      replace (0 + 0 * 0)%R with 0%R by ring. apply sqrt_0. }
  unfold __house_zero_norm. cbv beta iota zeta. cbn [obind].
  unfold __house_qr_factored_step at 1.
  rewrite house_R_zero_tail.
  2:{ unfold jnp_linalg_norm. cbn. apply sqrt_0. }
  unfold __house_zero_norm. cbv beta iota zeta. cbn [obind]. reflexivity.
Qed.

Lemma WY_round_trip_witness :
  exists H1 betas,
    __house_qr_factored eye2_R = Some (H1, betas)
    /\ meq (WY_to_Q (fst (factored_to_WY (H1, betas))) (snd (factored_to_WY (H1, betas))))
           (fst (factored_to_QR H1 betas)).
Proof.
  destruct __house_qr_factored_eye2_R as (H1 & betas & E).
  exists H1, betas. split; [exact E|].
  apply (WY_round_trip R_laws eye2_R); [simpl; lia | exact E].
Defined.

(** ** [house] over the reals, away from the zero head *)

Section RealVectors.
Local Open Scope R_scope.

Lemma ssum_R_head n (f : nat -> R) :
  ssum (S n) f = f 0%nat + ssum n (fun i => f (S i)).
Proof.
  induction n as [|n IH].
  - simpl. ring.
  - change (ssum (S (S n)) f) with (ssum (S n) f + f (S n)).
    rewrite IH. simpl. ring.
Qed.

Lemma ssum_R_nonneg n (f : nat -> R) :
  (forall i, (i < n)%nat -> 0 <= f i) -> 0 <= ssum n f.
Proof.
  induction n as [|n IH]; intros Hf; simpl; [lra|].
  pose proof (IH (fun i Hi => Hf i (Nat.lt_lt_succ_r _ _ Hi))) as Hrest.
  pose proof (Hf n (Nat.lt_succ_diag_r n)). lra.
Qed.

Lemma ssum_R_squares_zero n (f : nat -> R) :
  ssum n (fun i => f i * f i) = 0 -> forall i, (i < n)%nat -> f i = 0.
Proof.
  induction n as [|n IH]; intros E i Hi; [lia|].
  simpl in E.
  pose proof (ssum_R_nonneg (n := n) (fun i => f i * f i)
                (fun i _ => Rle_0_sqr (f i))) as Hs.
  pose proof (Rle_0_sqr (f n)) as Hn. unfold Rsqr in Hn.
  destruct (Nat.eq_dec i n) as [->|Hne].
  - apply Rsqr_0_uniq. unfold Rsqr. lra.
  - apply IH; [lra | lia].
Qed.

Lemma ssum_R_delta n i (f : nat -> R) :
  (i < n)%nat -> ssum n (fun l => (if (i =? l)%nat then 1 else 0) * f l) = f i.
Proof. exact (ssum_delta_l (sl_ring R_laws) f (n := n) (i := i)). Qed.

Lemma ssum_R_zero n (f : nat -> R) :
  (forall i, (i < n)%nat -> f i = 0) -> ssum n f = 0.
Proof. exact (ssum_zero (sl_ring R_laws) (n := n) f). Qed.

Lemma ssum_R_scale_r n c (f : nat -> R) :
  ssum n (fun i => f i * c) = ssum n f * c.
Proof. exact (ssum_scale_r (sl_ring R_laws) n c f). Qed.

Variable x : vec R.
Hypothesis x_nonempty : (1 <= vlen x)%nat.

(** The sum of the squares of [x[1:]]. *)
Definition tail_sqr : R :=
  ssum (vlen x - 1) (fun i => vget x (S i) * vget x (S i)).

Lemma tail_sqr_nonneg : 0 <= tail_sqr.
Proof. apply ssum_R_nonneg. intros i _. apply Rle_0_sqr. Qed.

Lemma tail_norm_R : jnp_linalg_norm (vfrom x 1) = R_sqrt.sqrt tail_sqr.
Proof. reflexivity. Qed.

Lemma norm_R : jnp_linalg_norm x = R_sqrt.sqrt (vget x 0 * vget x 0 + tail_sqr).
Proof.
  unfold jnp_linalg_norm, tail_sqr. cbn [sre sconj R_field R_ops smul].
  destruct (vlen x) as [|n]; [lia|].
  rewrite ssum_R_head. cbn [Nat.sub]. rewrite Nat.sub_0_r. reflexivity.
Qed.

(** [v . x], split at the head. *)
Lemma dot_R_head (v : vec R) :
  ssum (vlen x) (fun l => vget v l * vget x l)
  = vget v 0 * vget x 0
    + ssum (vlen x - 1) (fun i => vget v (S i) * vget x (S i)).
Proof.
  destruct (vlen x) as [|n]; [lia|].
  rewrite ssum_R_head. cbn [Nat.sub]. rewrite Nat.sub_0_r. reflexivity.
Qed.

(** [P x], entry by entry, for a reflector [(v, beta)] of the length of [x]. *)
Lemma apply_P_R (v : vec R) (beta : R) i :
  vlen v = vlen x -> (i < vlen x)%nat ->
  vget (apply_P (v, beta) x) i
  = vget x i - beta * vget v i * ssum (vlen x) (fun l => vget v l * vget x l).
Proof.
  intros Hv Hi. unfold apply_P, form_dense_P.
  cbn [vget matvec mcols mrows msub jnp_eye mget jnp_outer dag1 sconj R_ops smul ssub
       s0 s1].
  rewrite Hv.
  rewrite (ssum_ext (fun l => ((if (i =? l)%nat then 1 else 0)
                               - beta * (vget v i * vget v l)) * vget x l)
                    (fun l => (if (i =? l)%nat then 1 else 0) * vget x l
                              - (beta * vget v i) * (vget v l * vget x l)))
    by (intros; cbv beta; ring).
  rewrite (ssum_sub (sl_ring R_laws)), (ssum_scale_l (sl_ring R_laws)).
  rewrite (ssum_R_delta (fun l => vget x l) Hi). reflexivity.
Qed.

Lemma apply_P_R_len (v : vec R) (beta : R) :
  vlen (apply_P (v, beta) x) = vlen v.
Proof. reflexivity. Qed.
End RealVectors.

Section HouseReflects.
Local Open Scope R_scope.

Lemma R_sleb_true (a b : R) : a <= b -> sleb a b = true.
Proof. intros E. simpl. destruct (Rle_lt_dec a b); [reflexivity | lra]. Qed.

Lemma vdiv_R_defined (w : vec R) (c : R) :
  c <> 0 ->
  vdiv w c = Some (Vec (vlen w)
                       (fun i => match sdiv (vget w i) c with
                                 | Some q => q
                                 | None => s0
                                 end)).
Proof.
  intros Hc. unfold vdiv.
  replace (forallb _ _) with true; [reflexivity|].
  symmetry. apply forallb_forall. intros i _.
  rewrite (R_sdiv_defined _ Hc). reflexivity.
Qed.

(** What the specification asks of the reflector that [house] returns. *)
Definition reflects (x : vec R) (p : vec R * R) : Prop :=
  vlen (fst p) = vlen x
  /\ vget (fst p) 0 = 1
  /\ (forall i, (1 <= i < vlen x)%nat -> vget (apply_P p x) i = 0)
  /\ jnp_linalg_norm (apply_P p x) = jnp_linalg_norm x.

(** [beta (2 - beta v . v) = 0]: the reflector is the identity or
    [beta = 2 / (v . v)], so that [P] squares to the identity. *)
Definition involutive (p : vec R * R) : Prop :=
  snd p * (2 - snd p * ssum (vlen (fst p)) (fun l => vget (fst p) l * vget (fst p) l))
  = 0.

Variable x : vec R.
Hypothesis x_nonempty : (1 <= vlen x)%nat.

(** It is enough that [P x] vanishes below the head and squares at the head
    to the squared norm of [x]. *)
Lemma reflects_from_entries (v : vec R) (beta : R) :
  vlen v = vlen x -> vget v 0 = 1 ->
  (forall i, (1 <= i < vlen x)%nat -> vget (apply_P (v, beta) x) i = 0) ->
  vget (apply_P (v, beta) x) 0 * vget (apply_P (v, beta) x) 0
  = vget x 0 * vget x 0 + tail_sqr x ->
  reflects x (v, beta).
Proof.
  intros Hlen Hv0 Hzero Hhead. repeat split; cbn [fst]; try assumption.
  rewrite (norm_R (apply_P (v, beta) x)) by (rewrite apply_P_R_len; lia).
  rewrite (norm_R x x_nonempty). f_equal.
  rewrite Hhead.
  replace (tail_sqr (apply_P (v, beta) x)) with 0; [ring|].
  symmetry. apply ssum_R_zero. intros i Hi.
  rewrite apply_P_R_len, Hlen in Hi.
  rewrite Hzero by lia. ring.
Qed.

Lemma house_R_zero_tail_reflects :
  R_sqrt.sqrt (tail_sqr x) = 0 ->
  exists p, house x = Some p /\ reflects x p /\ involutive p.
Proof.
  intros Ht. exists (__house_zero_norm x). split.
  - apply house_R_zero_tail. rewrite tail_norm_R. exact Ht.
  - assert (Ht2 : tail_sqr x = 0).
    { apply sqrt_eq_0; [apply tail_sqr_nonneg | exact Ht]. }
    assert (Hx : forall i, (i < vlen x - 1)%nat -> vget x (S i) = 0).
    { apply (ssum_R_squares_zero (fun i => vget x (S i))). exact Ht2. }
    unfold __house_zero_norm. cbv zeta.
    set (v := vupd x 0 s1). set (beta := sre _).
    assert (Hdot : ssum (vlen x) (fun l => vget v l * vget x l) = vget x 0).
    { rewrite (dot_R_head x x_nonempty). subst v. cbn [vget vupd Nat.eqb s1 R_ops].
      rewrite ssum_R_zero; [ring|]. intros i Hi. rewrite Hx by exact Hi. ring. }
    assert (Hbeta : beta = 0 \/ beta = 2).
    { subst beta. cbn [sre seqb R_field R_ops s0 s1 smul sadd]. unfold s2.
      cbn [sadd s1 R_ops].
      destruct (Req_dec_T (vget x 0) 0) as [E0|E0]; [left | right]; ring. }
    clearbody beta.
    split; [apply reflects_from_entries|].
    + reflexivity.
    + reflexivity.
    + intros i Hi. rewrite apply_P_R by (cbn; lia). rewrite Hdot.
      destruct i as [|i]; [lia|]. subst v. cbn [vget vupd Nat.eqb].
      rewrite Hx by lia. ring.
    + rewrite apply_P_R by (cbn; lia). rewrite Hdot, Ht2.
      subst v. cbn [vget vupd Nat.eqb s1 R_ops].
      destruct Hbeta as [-> | ->]; ring.
    + unfold involutive. cbn [fst snd].
      rewrite (dot_R_head v x_nonempty v).
      change (vlen v) with (vlen x).
      rewrite ssum_R_zero.
      * subst v. cbn [vget vupd Nat.eqb s1 R_ops].
        destruct Hbeta as [-> | ->]; ring.
      * intros i Hi. subst v. cbn [vget vupd Nat.eqb]. rewrite Hx by exact Hi. ring.
Qed.
End HouseReflects.

Section HousePivot.
Local Open Scope R_scope.

(** The arithmetic of [__house_nonzero_norm] for a head [a <> 0] and a tail
    of norm [t > 0]: the pivot [v_1 = a + sign(a) * norm] is the larger
    candidate and is not zero, and [beta * (v . x) = v_1]. *)
Variables (a t : R).
Hypothesis a_nonzero : a <> 0.
Hypothesis t_pos : 0 < t.

Definition x_norm : R := R_sqrt.sqrt (0 + a * a + t * t).
Definition rho : R := a / Rabs a * x_norm.

Lemma x_norm_sqr : x_norm * x_norm = a * a + t * t.
Proof.
  unfold x_norm. rewrite sqrt_sqrt; [ring|]. nra.
Qed.

Lemma x_norm_pos : 0 < x_norm.
Proof. unfold x_norm. apply sqrt_lt_R0. nra. Qed.

Lemma Rabs_a_pos : 0 < Rabs a.
Proof. apply Rabs_pos_lt. exact a_nonzero. Qed.

Lemma rho_sqr : rho * rho = a * a + t * t.
Proof.
  unfold rho. pose proof Rabs_a_pos as Ha.
  replace (a / Rabs a * x_norm * (a / Rabs a * x_norm))
    with ((a * a) / (Rabs a * Rabs a) * (x_norm * x_norm)) by (field; lra).
  rewrite x_norm_sqr.
  replace (Rabs a * Rabs a) with (a * a).
  - field. nra.
  - rewrite <- Rabs_mult. rewrite Rabs_pos_eq; [reflexivity | nra].
Qed.

Lemma pivot_abs : Rabs (a + rho) = Rabs a + x_norm.
Proof.
  pose proof Rabs_a_pos as Ha. pose proof x_norm_pos as Hn.
  unfold rho.
  replace (a + a / Rabs a * x_norm) with (a * (1 + x_norm / Rabs a)) by (field; lra).
  rewrite Rabs_mult.
  rewrite (Rabs_pos_eq (1 + x_norm / Rabs a)).
  - field. lra.
  - assert (0 < x_norm / Rabs a) by (apply Rdiv_lt_0_compat; lra). lra.
Qed.

Lemma rho_abs : Rabs rho = x_norm.
Proof.
  pose proof Rabs_a_pos as Ha. pose proof x_norm_pos as Hn.
  unfold rho. rewrite Rabs_mult. unfold Rdiv. rewrite Rabs_mult.
  rewrite Rabs_inv. rewrite (Rabs_pos_eq (Rabs a)) by lra.
  rewrite (Rabs_pos_eq x_norm) by lra. field. lra.
Qed.

Lemma pivot_larger : Rabs (a - rho) <= Rabs (a + rho).
Proof.
  rewrite pivot_abs, <- rho_abs.
  unfold Rminus. eapply Rle_trans; [apply Rabs_triang|].
  rewrite Rabs_Ropp. lra.
Qed.

Lemma pivot_nonzero : a + rho <> 0.
Proof.
  intros E. pose proof pivot_abs as Hp. rewrite E, Rabs_R0 in Hp.
  pose proof Rabs_a_pos. pose proof x_norm_pos. lra.
Qed.

Lemma pivot_abs_sqr : Rabs (a + rho) * Rabs (a + rho) = (a + rho) * (a + rho).
Proof. rewrite <- Rabs_mult. apply Rabs_pos_eq. exact (Rle_0_sqr (a + rho)). Qed.

Lemma beta_denominator_nonzero :
  1 + t / Rabs (a + rho) * (t / Rabs (a + rho)) <> 0.
Proof.
  pose proof (Rle_0_sqr (t / Rabs (a + rho))) as Hs. unfold Rsqr in Hs. lra.
Qed.

Lemma beta_times_dot :
  (1 + 1) / (1 + t / Rabs (a + rho) * (t / Rabs (a + rho)))
  * (1 * a + t * t / (a + rho))
  = a + rho.
Proof.
  pose proof pivot_nonzero as Hv. pose proof pivot_abs_sqr as Habs.
  pose proof rho_sqr as Hrho.
  assert (HA : Rabs (a + rho) <> 0).
  { intros E. rewrite E in Habs. apply Hv. nra. }
  set (v := a + rho) in *. set (A := Rabs v) in *.
  assert (Hkey : v * v + t * t = 2 * (a * v + t * t)) by (subst v; nra).
  assert (Hden : v * v + t * t <> 0) by nra.
  replace (t / A * (t / A)) with (t * t / (v * v)).
  2:{ rewrite <- Habs. field. exact HA. }
  replace ((1 + 1) / (1 + t * t / (v * v)) * (1 * a + t * t / v))
    with (v * (2 * (a * v + t * t)) / (v * v + t * t)).
  2:{ field. repeat split; [exact Hv | nra]. }
  rewrite <- Hkey. field. exact Hden.
Qed.
Lemma beta_normalized :
  (1 + 1) / (1 + t / Rabs (a + rho) * (t / Rabs (a + rho)))
  * (2 - (1 + 1) / (1 + t / Rabs (a + rho) * (t / Rabs (a + rho)))
         * (1 * 1 + t * t / ((a + rho) * (a + rho))))
  = 0.
Proof.
  pose proof pivot_nonzero as Hv. pose proof pivot_abs_sqr as Habs.
  assert (HA : Rabs (a + rho) <> 0).
  { intros E. rewrite E in Habs. apply Hv. nra. }
  set (v := a + rho) in *. set (A := Rabs v) in *.
  replace (t / A * (t / A)) with (t * t / (v * v)).
  2:{ rewrite <- Habs. field. exact HA. }
  assert (Hden : v * v + t * t <> 0).
  { pose proof (Rle_0_sqr t) as Hs. unfold Rsqr in Hs.
    pose proof (Rsqr_pos_lt v Hv) as Hvv. unfold Rsqr in Hvv. lra. }
  field. split; [exact Hv | exact Hden].
Qed.
End HousePivot.

Section HouseNonzeroHead.
Local Open Scope R_scope.
Variable x : vec R.
Hypothesis x_nonempty : (1 <= vlen x)%nat.
Hypothesis head_nonzero : vget x 0 <> 0.
Hypothesis tail_nonzero : R_sqrt.sqrt (tail_sqr x) <> 0.

Lemma tail_norm_pos : 0 < R_sqrt.sqrt (tail_sqr x).
Proof. pose proof (sqrt_pos (tail_sqr x)). lra. Qed.

Lemma tail_norm_sqr :
  R_sqrt.sqrt (tail_sqr x) * R_sqrt.sqrt (tail_sqr x) = tail_sqr x.
Proof. apply sqrt_sqrt. apply tail_sqr_nonneg. Qed.

Lemma house_R_nonzero_head_reflects :
  exists p, house x = Some p /\ reflects x p /\ involutive p.
Proof.
  pose proof tail_norm_pos as Ht. pose proof tail_norm_sqr as Ht2.
  set (a := vget x 0) in *. set (t := R_sqrt.sqrt (tail_sqr x)) in *.
  pose proof (@pivot_nonzero a t head_nonzero Ht) as Hv.
  pose proof (@pivot_larger a t head_nonzero Ht) as Hlarger.
  pose proof (pivot_abs_sqr a t) as Habs.
  pose proof (@beta_denominator_nonzero a t) as Hden.
  pose proof (@beta_times_dot a t head_nonzero Ht) as Hbeta.
  pose proof (@rho_sqr a t head_nonzero) as Hrho.
  assert (HA : Rabs (a + rho a t) <> 0).
  { intros E. rewrite E in Habs. apply Hv. nra. }
  eexists. split.
  - unfold house. cbv zeta. rewrite tail_norm_R. fold t.
    change (@s0 R R_ops) with 0. rewrite (@R_seqb_false t 0 tail_nonzero).
    unfold __house_nonzero_norm. fold a.
    change (jnp_linalg_norm (vec_of_list [a; t])) with (x_norm a t).
    unfold sign. change (@s0 R R_ops) with 0. rewrite (@R_seqb_false a 0 head_nonzero).
    rewrite (@R_sdiv_defined a (sabs a)) by (apply Rabs_no_R0; exact head_nonzero).
    cbn [obind].
    cbn [sabs sadd ssub smul R_field R_ops]. fold (rho a t).
    rewrite (@R_sleb_true _ _ Hlarger).
    rewrite (@vdiv_R_defined (vfrom x 1) _ Hv). cbn [obind].
    rewrite (@R_sdiv_defined t _ HA). cbn [obind].
    rewrite (@R_sdiv_defined s2 _ Hden). cbn [obind].
    reflexivity.
  - set (v1 := a + rho a t) in *.
    set (tl := Vec (vlen (vfrom x 1))
                   (fun i => match sdiv (vget (vfrom x 1) i) v1 with
                             | Some q => q
                             | None => s0
                             end)).
    set (v := vupd (vupd_from x 1 tl) 0 s1).
    set (beta := sre _).
    assert (Hvtail : forall i, vget v (S i) = vget x (S i) / v1).
    { intros i. subst v tl. cbn [vget vupd vupd_from vfrom Nat.eqb Nat.leb Nat.sub Nat.add].
      rewrite Nat.sub_0_r. rewrite (@R_sdiv_defined _ _ Hv). reflexivity. }
    assert (Hdot : ssum (vlen x) (fun l => vget v l * vget x l) = 1 * a + t * t / v1).
    { rewrite (dot_R_head x x_nonempty). f_equal.
      rewrite Ht2. unfold tail_sqr. unfold Rdiv. rewrite <- ssum_R_scale_r.
      apply ssum_ext. intros i _. rewrite Hvtail. field. exact Hv. }
    assert (Hbd : beta * (1 * a + t * t / v1) = v1) by exact Hbeta.
    split; [apply reflects_from_entries|].
    + exact x_nonempty.
    + reflexivity.
    + reflexivity.
    + intros i Hi. rewrite apply_P_R by (cbn; lia). rewrite Hdot.
      destruct i as [|i]; [lia|]. rewrite Hvtail.
      replace (beta * (vget x (S i) / v1) * (1 * a + t * t / v1))
        with (vget x (S i) / v1 * (beta * (1 * a + t * t / v1))) by ring.
      rewrite Hbd. field. exact Hv.
    + rewrite apply_P_R by (cbn; lia). rewrite Hdot.
      change (vget v 0) with 1. fold a.
      replace (a - beta * 1 * (1 * a + t * t / v1))
        with (a - beta * (1 * a + t * t / v1)) by ring.
      rewrite Hbd. rewrite <- Ht2. subst v1. nra.
    + unfold involutive. cbn [fst snd].
      rewrite (dot_R_head v x_nonempty v).
      change (vlen v) with (vlen x). change (vget v 0) with 1.
      assert (Htl : ssum (vlen x - 1) (fun i => vget v (S i) * vget v (S i))
                    = t * t / (v1 * v1)).
      { rewrite Ht2. unfold tail_sqr. unfold Rdiv. rewrite <- ssum_R_scale_r.
        apply ssum_ext. intros i _. rewrite Hvtail. field. exact Hv. }
      rewrite Htl. exact (@beta_normalized a t head_nonzero Ht).
Qed.
End HouseNonzeroHead.

(** Over the reals, on every non-empty vector whose head is not zero or
    whose tail is zero, [house] returns a reflector [(v, beta)] with
    [v[0] = 1] such that [P x] vanishes below index 0 and has the norm of
    [x].  Together with [house_R_zero_head] this settles every non-empty
    real vector. *)
Lemma house_R_reflects (x : vec R) :
  1 <= vlen x ->
  vget x 0 <> 0%R \/ jnp_linalg_norm (vfrom x 1) = 0%R ->
  exists p, house x = Some p /\ reflects x p /\ involutive p.
Proof.
  intros Hlen Hcase.
  destruct (Req_dec_T (jnp_linalg_norm (vfrom x 1)) 0) as [Ht|Ht].
  - apply house_R_zero_tail_reflects; [exact Hlen | exact Ht].
  - destruct Hcase as [Hx0|Ht0]; [|contradiction].
    apply house_R_nonzero_head_reflects; [exact Hlen | exact Hx0 | exact Ht].
Qed.

Example house_R_reflects_x34 :
  exists p, house x34_R = Some p /\ reflects x34_R p /\ involutive p.
Proof.
  apply house_R_reflects; [simpl; lia | left; simpl; lra].
Qed.

(** ** [house] on a vector with a zero head and a non-zero tail *)

(** Over the reals, dividing the entries of a non-empty array by zero has
    no value. *)
Lemma vdiv_R_zero (w : vec R) (c : R) :
  c = 0%R -> 1 <= vlen w -> vdiv w c = None.
Proof.
  intros -> Hlen. unfold vdiv.
  destruct (vlen w) as [|n]; [lia|].
  cbn [seq forallb]. rewrite R_sdiv_zero. reflexivity.
Qed.

(** Over the reals [house] has no value on any vector whose head is zero
    and whose tail is not: [sign(0) = 0] makes [rho], both candidate
    pivots and hence the chosen [v_1] zero, and [x[1:] / v_1] divides by
    it. *)
Lemma house_R_zero_head (x : vec R) :
  vget x 0 = 0%R -> jnp_linalg_norm (vfrom x 1) <> 0%R -> house x = None.
Proof.
  intros Hx0 Htail.
  assert (Hlen : 1 <= vlen (vfrom x 1)).
  { destruct (vlen (vfrom x 1)) as [|n] eqn:E; [|lia].
    exfalso. apply Htail. unfold jnp_linalg_norm. rewrite E. apply sqrt_0. }
  unfold house. cbv zeta. change (@s0 R R_ops) with 0%R.
  rewrite (R_seqb_false Htail).
  unfold __house_nonzero_norm, sign. rewrite Hx0. change (@s0 R R_ops) with 0%R.
  rewrite (R_seqb_true (a := 0%R) (b := 0%R) eq_refl). cbn [obind].
  match goal with
  | |- context [if ?b then _ else _] => destruct b
  end.
  all: rewrite vdiv_R_zero; [reflexivity | simpl; ring | exact Hlen].
Qed.

Lemma house_x01_R : house x01_R = None.
Proof.
  apply house_R_zero_head; [reflexivity|].
  unfold jnp_linalg_norm. cbn.
  replace (0 + 1 * 1)%R with 1%R by ring. rewrite sqrt_1. lra.
Qed.

(** C3, at the input where it fails: [x = [0, 1]].  In exact arithmetic
    [house] divides by zero and has no value; in binary64 the division
    yields an infinite entry of [v] and [beta = 0]. *)
Theorem house_divides_by_zero :
  house x01_R = None
  /\ option_map show_reflector (house x01) = Some ([1%float; infinity], 0%float).
Proof. split; [exact house_x01_R | vm_compute; reflexivity]. Qed.

(** C2, at the input where it fails: for [x = [0, 1]], [v[0]] is 1, but
    [P x] with [P = I - beta v v^*] is [[nan, nan]] in binary64: the entry
    below index 0 is not zero and the norm is not that of [x]; in exact
    arithmetic there is no reflector to apply. *)
Theorem house_reflector_zero_head :
  option_map (fun p => vget (fst p) 0) (house x01) = Some 1%float
  /\ option_map (fun p => vec_to_list (apply_P p x01)) (house x01) = Some [nan; nan]
  /\ option_map (fun p => jnp_linalg_norm (apply_P p x01)) (house x01) = Some nan
  /\ jnp_linalg_norm x01 = 1%float
  /\ option_map (fun p => vec_to_list (apply_P p x01_R)) (house x01_R) = None.
Proof.
  repeat split; try (vm_compute; reflexivity).
  rewrite house_x01_R. reflexivity.
Qed.

Lemma __house_qr_factored_A01_R : __house_qr_factored A01_R = None.
Proof.
  unfold __house_qr_factored, matshape, shape.
  cbn [mcols mrows A01_R mat_of_rows seq for_range List.length].
  unfold __house_qr_factored_step at 1.
  rewrite house_R_zero_head; [reflexivity | reflexivity |].
  unfold jnp_linalg_norm. cbn.
  replace (0 + 1 * 1)%R with 1%R by ring. rewrite sqrt_1. lra.
Qed.

(** C1, at the input where it fails: the 2x1 matrix [A = [[0], [1]]].
    In binary64 the factored form is [[[nan], [inf]]] with [beta = [0]];
    the dense [Q] is all NaN, [R = [[nan], [0]]] and [Q R] is not [A]; in
    exact arithmetic the factorisation has no value. *)
Theorem factored_QR_zero_head :
  option_map show_factored (__house_qr_factored A01)
  = Some ([[nan]; [infinity]], [0%float])
  /\ option_map (fun hb => show_QR (factored_to_QR (fst hb) (snd hb)))
                (__house_qr_factored A01)
     = Some ([[nan; nan]; [nan; nan]], [[nan]; [0%float]])
  /\ option_map (fun hb => let '(Q, R) := factored_to_QR (fst hb) (snd hb) in
                           mat_to_rows (matmul Q R))
                (__house_qr_factored A01)
     = Some [[nan]; [nan]]
  /\ mat_to_rows A01 = [[0%float]; [1%float]]
  /\ __house_qr_factored A01_R = None.
Proof.
  repeat split; try (vm_compute; reflexivity).
  exact __house_qr_factored_A01_R.
Qed.

(** ** The factored QR over the reals, where it has a value *)

(** *** Products of reflectors *)

Section ReflectorProducts.
Local Open Scope R_scope.

(** The order [M], the Householder vectors [vs j] and their
    normalisations [bs j]. *)
Variables (m : nat) (vs : nat -> nat -> R) (bs : nat -> R).

(** Entries compared on the rows below [M]. *)
Definition rows_eq (X Y : nat -> nat -> R) : Prop :=
  forall i k, (i < m)%nat -> X i k = Y i k.

(** [P_j X], [X P_j], [X Y] and the transpose. *)
Definition reflL (j : nat) (X : nat -> nat -> R) : nat -> nat -> R :=
  fun i k => X i k - (bs j * vs j i) * ssum m (fun l => vs j l * X l k).
Definition reflR (j : nat) (X : nat -> nat -> R) : nat -> nat -> R :=
  fun i k => X i k - bs j * ssum m (fun l => X i l * vs j l) * vs j k.
Definition mulf (X Y : nat -> nat -> R) : nat -> nat -> R :=
  fun i k => ssum m (fun l => X i l * Y l k).
Definition trf (X : nat -> nat -> R) : nat -> nat -> R := fun i k => X k i.
Definition deltaR (i k : nat) : R := if (i =? k)%nat then 1 else 0.

(** [P_{k-1} (... (P_0 X))] and [P_0 (... (P_{k-1} X))]. *)
Fixpoint Lrev (k : nat) (X : nat -> nat -> R) : nat -> nat -> R :=
  match k with
  | O => X
  | S k' => reflL k' (Lrev k' X)
  end.
Fixpoint Lfwd (k : nat) (X : nat -> nat -> R) : nat -> nat -> R :=
  match k with
  | O => X
  | S k' => Lfwd k' (reflL k' X)
  end.

(** [beta_j (2 - beta_j v_j . v_j) = 0]: the reflector [P_j] squares to the
    identity. *)
Definition normalized (j : nat) : Prop :=
  bs j * (2 - bs j * ssum m (fun l => vs j l * vs j l)) = 0.

Lemma ssum_R_ext n (f g : nat -> R) :
  (forall i, (i < n)%nat -> f i = g i) -> ssum n f = ssum n g.
Proof. exact (@ssum_ext R R_ops n f g). Qed.

Lemma ssum_R_sub n (f g : nat -> R) :
  ssum n (fun i => f i - g i) = ssum n f - ssum n g.
Proof. exact (ssum_sub (sl_ring R_laws) n f g). Qed.

Lemma ssum_R_scale_l n c (f : nat -> R) :
  ssum n (fun i => c * f i) = c * ssum n f.
Proof. exact (ssum_scale_l (sl_ring R_laws) n c f). Qed.

Lemma ssum_R_swap n n' (f : nat -> nat -> R) :
  ssum n (fun i => ssum n' (fun k => f i k)) = ssum n' (fun k => ssum n (fun i => f i k)).
Proof. exact (ssum_swap (sl_ring R_laws) n n' f). Qed.

Lemma reflL_ext j X Y : rows_eq X Y -> rows_eq (reflL j X) (reflL j Y).
Proof.
  intros E i k Hi. unfold reflL. rewrite (E i k Hi). f_equal. f_equal.
  apply ssum_R_ext. intros l Hl. rewrite (E l k Hl). reflexivity.
Qed.

Lemma Lrev_ext k X Y : rows_eq X Y -> rows_eq (Lrev k X) (Lrev k Y).
Proof.
  intros E. induction k as [|k IH]; simpl; [exact E|]. apply reflL_ext. exact IH.
Qed.

Lemma Lfwd_ext k : forall X Y, rows_eq X Y -> rows_eq (Lfwd k X) (Lfwd k Y).
Proof.
  induction k as [|k IH]; intros X Y E; simpl; [exact E|].
  apply IH. apply reflL_ext. exact E.
Qed.

(** [v_j . (P_j X)[:, k] = (1 - beta_j v_j . v_j) (v_j . X[:, k])] *)
Lemma reflL_dot j X k :
  ssum m (fun l => vs j l * reflL j X l k)
  = (1 - bs j * ssum m (fun l => vs j l * vs j l)) * ssum m (fun l => vs j l * X l k).
Proof.
  unfold reflL.
  transitivity (ssum m (fun l => vs j l * X l k)
                - (bs j * ssum m (fun l => vs j l * X l k))
                  * ssum m (fun l => vs j l * vs j l)); [|ring].
  rewrite <- ssum_R_scale_l, <- ssum_R_sub.
  apply ssum_R_ext. intros l _. ring.
Qed.

Lemma reflL_invol j X : normalized j -> rows_eq (reflL j (reflL j X)) X.
Proof.
  intros Hn i k _. unfold normalized in Hn.
  unfold reflL at 1. rewrite reflL_dot. unfold reflL.
  set (S := ssum m (fun l => vs j l * X l k)) in *.
  set (N := ssum m (fun l => vs j l * vs j l)) in *.
  replace (X i k - bs j * vs j i * S - bs j * vs j i * ((1 - bs j * N) * S))
    with (X i k - vs j i * S * (bs j * (2 - bs j * N))) by ring.
  rewrite Hn. ring.
Qed.

Lemma Lfwd_Lrev k X :
  (forall j, (j < k)%nat -> normalized j) -> rows_eq (Lfwd k (Lrev k X)) X.
Proof.
  induction k as [|k IH]; intros Hn; simpl.
  - intros i c _. reflexivity.
  - intros i c Hi.
    rewrite (Lfwd_ext k (reflL_invol (Lrev k X) (Hn k (Nat.lt_succ_diag_r k))) c Hi).
    apply IH; [|exact Hi]. intros j Hj. apply Hn. lia.
Qed.

Lemma Lrev_Lfwd k : forall X,
  (forall j, (j < k)%nat -> normalized j) -> rows_eq (Lrev k (Lfwd k X)) X.
Proof.
  induction k as [|k IH]; intros X Hn; simpl.
  - intros i c _. reflexivity.
  - intros i c Hi.
    assert (E : rows_eq (Lrev k (Lfwd k (reflL k X))) (reflL k X)).
    { apply IH. intros j Hj. apply Hn. lia. }
    rewrite (reflL_ext k E c Hi).
    apply reflL_invol; [apply Hn; lia | exact Hi].
Qed.

(** [(P_j X) Y = P_j (X Y)] *)
Lemma reflL_mulf j X Y : rows_eq (mulf (reflL j X) Y) (reflL j (mulf X Y)).
Proof.
  intros i k _. unfold mulf, reflL.
  transitivity (ssum m (fun l => X i l * Y l k)
                - (bs j * vs j i)
                  * ssum m (fun l => ssum m (fun a => vs j a * X a l) * Y l k)).
  - rewrite <- ssum_R_scale_l, <- ssum_R_sub. apply ssum_R_ext. intros l _. ring.
  - f_equal. f_equal.
    transitivity (ssum m (fun l => ssum m (fun a => vs j a * X a l * Y l k))).
    + apply ssum_R_ext. intros l _. rewrite <- ssum_R_scale_r. reflexivity.
    + rewrite ssum_R_swap. apply ssum_R_ext. intros a _.
      rewrite <- ssum_R_scale_l. apply ssum_R_ext. intros l _. ring.
Qed.

Lemma mulf_ext_l X X' Y : rows_eq X X' -> rows_eq (mulf X Y) (mulf X' Y).
Proof.
  intros E i k Hi. unfold mulf. apply ssum_R_ext. intros l _.
  rewrite (E i l Hi). reflexivity.
Qed.

Lemma mulf_delta Y : rows_eq (mulf deltaR Y) Y.
Proof.
  intros i k Hi. unfold mulf, deltaR.
  apply (ssum_R_delta (fun l => Y l k) Hi).
Qed.

Lemma Lfwd_mulf k : forall X Y, rows_eq (mulf (Lfwd k X) Y) (Lfwd k (mulf X Y)).
Proof.
  induction k as [|k IH]; intros X Y; simpl.
  - intros i c _. reflexivity.
  - intros i c Hi. rewrite (IH (reflL k X) Y i c Hi).
    apply Lfwd_ext; [apply reflL_mulf | exact Hi].
Qed.

Lemma Lrev_mulf k X Y : rows_eq (mulf (Lrev k X) Y) (Lrev k (mulf X Y)).
Proof.
  induction k as [|k IH]; simpl.
  - intros i c _. reflexivity.
  - intros i c Hi. rewrite (reflL_mulf k (Lrev k X) Y c Hi).
    apply reflL_ext; [exact IH | exact Hi].
Qed.
End ReflectorProducts.

Section ReflectorTranspose.
Local Open Scope R_scope.
Variables (m : nat) (vs : nat -> nat -> R) (bs : nat -> R).

(** [((X P_0) ...) P_{k-1}] *)
Fixpoint Rfwd (k : nat) (X : nat -> nat -> R) : nat -> nat -> R :=
  match k with
  | O => X
  | S k' => reflR m vs bs k' (Rfwd k' X)
  end.

(** [(X P_j)^T = P_j X^T]: the reflectors are symmetric. *)
Lemma trf_reflR j X i k :
  trf (reflR m vs bs j X) i k = reflL m vs bs j (trf X) i k.
Proof.
  unfold trf, reflR, reflL.
  rewrite (ssum_R_ext (fun l => X k l * vs j l) (fun l => vs j l * X k l))
    by (intros; ring).
  ring.
Qed.

Lemma trf_Rfwd k X : rows_eq m (trf (Rfwd k X)) (Lrev m vs bs k (trf X)).
Proof.
  induction k as [|k IH]; simpl.
  - intros i c _. reflexivity.
  - intros i c Hi. rewrite trf_reflR.
    apply reflL_ext; [exact IH | exact Hi].
Qed.

Lemma trf_deltaR i k : trf deltaR i k = deltaR i k.
Proof. unfold trf, deltaR. rewrite Nat.eqb_sym. reflexivity. Qed.

(** What [P_0 .. P_{k-1}] depends on. *)
Variables (vs' : nat -> nat -> R) (bs' : nat -> R).

Lemma reflL_params j X i c :
  (forall l, vs j l = vs' j l) -> bs j = bs' j ->
  reflL m vs bs j X i c = reflL m vs' bs' j X i c.
Proof.
  intros Hv Hb. unfold reflL. rewrite Hb, (Hv i). f_equal. f_equal.
  apply ssum_R_ext. intros l _. rewrite (Hv l). reflexivity.
Qed.

Lemma Lrev_params k X :
  (forall j l, (j < k)%nat -> vs j l = vs' j l) ->
  (forall j, (j < k)%nat -> bs j = bs' j) ->
  forall i c, (i < m)%nat -> Lrev m vs bs k X i c = Lrev m vs' bs' k X i c.
Proof.
  induction k as [|k IH]; intros Hv Hb i c Hi; simpl; [reflexivity|].
  rewrite (@reflL_params k (Lrev m vs bs k X) i c (fun l => Hv k l (Nat.lt_succ_diag_r k))
             (Hb k (Nat.lt_succ_diag_r k))).
  apply reflL_ext; [|exact Hi].
  intros i' c' Hi'. apply IH; [| |exact Hi'].
  - intros j l Hj. apply Hv. lia.
  - intros j Hj. apply Hb. lia.
Qed.

Lemma normalized_params j :
  (forall l, vs j l = vs' j l) -> bs j = bs' j ->
  normalized m vs bs j -> normalized m vs' bs' j.
Proof.
  intros Hv Hb. unfold normalized. rewrite Hb.
  rewrite (ssum_R_ext (fun l => vs j l * vs j l) (fun l => vs' j l * vs' j l))
    by (intros l _; rewrite (Hv l); reflexivity).
  trivial.
Qed.
End ReflectorTranspose.

(** What [house] returns over the reals, whenever it returns. *)
Lemma house_R_Some (x : vec R) (p : vec R * R) :
  1 <= vlen x -> house x = Some p -> reflects x p /\ involutive p.
Proof.
  intros Hlen E.
  destruct (Req_dec_T (vget x 0) 0) as [Hx0|Hx0];
    [destruct (Req_dec_T (jnp_linalg_norm (vfrom x 1)) 0) as [Ht|Ht]|].
  - destruct (house_R_reflects x Hlen (or_intror Ht)) as (p' & E' & Hp).
    rewrite E in E'. injection E' as <-. exact Hp.
  - rewrite (house_R_zero_head x Hx0 Ht) in E. discriminate E.
  - destruct (house_R_reflects x Hlen (or_introl Hx0)) as (p' & E' & Hp).
    rewrite E in E'. injection E' as <-. exact Hp.
Qed.

(** *** The loop of [__house_qr_factored] *)

Section FactoredReal.
Local Open Scope R_scope.
Variable A : mat R.
Hypothesis A_tall : (mcols A <= mrows A)%nat.

(** The Householder vectors and normalisations stored in a state
    [(H, beta)] of the loop. *)
Definition vs_of (H1 : mat R) : nat -> nat -> R :=
  fun j l => vget (householder_vector H1 j) l.
Definition bs_of (bl : list R) : nat -> R := fun j => nth j bl 0.

(** After [k] passes: the first [k] reflectors square to the identity;
    [H] holds [P_{k-1} ... P_0 A] in the columns still to come and on and
    above the diagonal; and [P_{k-1} ... P_0 A] vanishes below the diagonal
    in the first [k] columns. *)
Record qr_inv (k : nat) (st : mat R * list R) : Prop := {
  qi_shape : shape (fst st) = shape A;
  qi_len : List.length (snd st) = k;
  qi_norm : forall j, (j < k)%nat ->
      normalized (mrows A) (vs_of (fst st)) (bs_of (snd st)) j;
  qi_upper : forall i c, (i < mrows A)%nat -> (c < mcols A)%nat ->
      (k <= c \/ i <= c)%nat ->
      mget (fst st) i c
      = Lrev (mrows A) (vs_of (fst st)) (bs_of (snd st)) k (mget A) i c;
  qi_zero : forall i c, (i < mrows A)%nat -> (c < k)%nat -> (c < i)%nat ->
      Lrev (mrows A) (vs_of (fst st)) (bs_of (snd st)) k (mget A) i c = 0
}.

Lemma qr_inv_0 : qr_inv 0 (A, []).
Proof.
  constructor; cbn [fst snd]; try reflexivity.
  - intros j Hj. lia.
  - intros i c _ Hc. lia.
Qed.

Lemma vs_of_above H1 j l : (l < j)%nat -> vs_of H1 j l = 0.
Proof.
  intros Hl. unfold vs_of, householder_vector. cbn [vget].
  apply Nat.ltb_lt in Hl. rewrite Hl. reflexivity.
Qed.

Lemma qr_inv_step k st st' :
  (k < mcols A)%nat -> qr_inv k st ->
  __house_qr_factored_step (mrows A) st k = Some st' ->
  qr_inv (S k) st'.
Proof.
  intros Hk Inv E. destruct st as [Hk0 bl].
  destruct Inv as [Hshape Hlen Hnorm Hupper Hzero]. cbn [fst snd] in *.
  unfold shape in Hshape. injection Hshape as Hr Hc.
  unfold __house_qr_factored_step in E.
  destruct (house (col_from Hk0 k k)) as [[v beta]|] eqn:Ehouse; cbn [obind] in E;
    [|discriminate E].
  assert (Hkm : (k <? mrows A)%nat = true) by (apply Nat.ltb_lt; lia).
  rewrite Hkm in E. injection E as <-.
  set (x := col_from Hk0 k k) in *.
  assert (Hxlen : vlen x = (mrows A - k)%nat) by (subst x; cbn; lia).
  destruct (house_R_Some x ltac:(lia) Ehouse) as ((Hvlen & Hv0 & Hbelow & _) & Hinv).
  cbn [fst snd] in Hvlen, Hv0, Hinv. unfold involutive in Hinv. cbn [fst snd] in Hinv.
  set (LM := house_leftmult (block_from Hk0 k k) v beta).
  set (H' := upd_col_from (upd_block Hk0 k k LM) (k + 1) k (vfrom v 1)).
  set (vs := vs_of Hk0) in *. set (bs := bs_of bl) in *.
  set (vs' := vs_of H'). set (bs' := bs_of (bl ++ [beta])).
  set (T := Lrev (mrows A) vs bs k (mget A)) in *.
  (* the entries of the new state *)
  assert (HH' : forall i c,
             mget H' i c
             = if ((k + 1 <=? i) && (c =? k))%nat then vget v (i - k)
               else if ((k <=? i) && (k <=? c))%nat then mget LM (i - k) (c - k)
                    else mget Hk0 i c).
  { intros i c. subst H'. cbn [mget upd_col_from upd_block vfrom vget].
    destruct ((k + 1 <=? i) && (c =? k))%nat eqn:Ecol; [|reflexivity].
    apply andb_prop in Ecol as [Hi _]. apply Nat.leb_le in Hi. f_equal. lia. }
  assert (F1 : forall j l, (j < k)%nat -> vs j l = vs' j l).
  { intros j l Hj. subst vs vs'. unfold vs_of, householder_vector. cbn [vget].
    rewrite HH'.
    destruct (Nat.eqb_spec j k); [lia|]. rewrite andb_false_r.
    destruct (Nat.leb_spec k j); [lia|]. rewrite andb_false_r. reflexivity. }
  assert (F2 : forall j, (j < k)%nat -> bs j = bs' j).
  { intros j Hj. subst bs bs'. unfold bs_of. rewrite app_nth1 by lia. reflexivity. }
  assert (F3 : forall l, vs' k l = if (l <? k)%nat then 0 else vget v (l - k)).
  { intros l. subst vs'. unfold vs_of, householder_vector. cbn [vget].
    destruct (Nat.ltb_spec l k) as [Hl|Hl]; [reflexivity|].
    destruct (Nat.eqb_spec l k) as [->|Hne].
    - rewrite Nat.sub_diag. symmetry. exact Hv0.
    - rewrite HH'. rewrite Nat.eqb_refl, andb_true_r.
      destruct (Nat.leb_spec (k + 1) l); [reflexivity | lia]. }
  assert (F4 : bs' k = beta).
  { subst bs'. unfold bs_of. rewrite app_nth2 by lia.
    rewrite Hlen, Nat.sub_diag. reflexivity. }
  assert (HT : forall i c, (i < mrows A)%nat ->
             Lrev (mrows A) vs' bs' k (mget A) i c = T i c).
  { intros i c Hi. subst T. symmetry. apply Lrev_params; assumption. }
  (* [v_k . X[:, c]] over all rows is [v . X[k:, c]] *)
  assert (Hskip : forall (X : nat -> nat -> R) c,
             ssum (mrows A) (fun l => vs' k l * X l c)
             = ssum (mrows A - k) (fun l => vget v l * X (k + l)%nat c)).
  { intros X c. replace (mrows A) with (k + (mrows A - k))%nat at 1 by lia.
    rewrite (ssum_skip (sl_ring R_laws)).
    - apply ssum_R_ext. intros l _. rewrite F3.
      destruct (Nat.ltb_spec (k + l) k); [lia|].
      replace (k + l - k)%nat with l by lia. reflexivity.
    - intros l Hl. rewrite F3. apply Nat.ltb_lt in Hl. rewrite Hl.
      change (@s0 R R_ops) with 0. ring. }
  (* the next product of reflectors *)
  assert (HT' : forall i c, (i < mrows A)%nat ->
             Lrev (mrows A) vs' bs' (S k) (mget A) i c
             = T i c - beta * vs' k i
                       * ssum (mrows A - k) (fun l => vget v l * T (k + l)%nat c)).
  { intros i c Hi. cbn [Lrev]. unfold reflL at 1. rewrite F4.
    rewrite (HT i c Hi). rewrite Hskip. f_equal. f_equal.
    apply ssum_R_ext. intros l Hl. rewrite HT by lia. reflexivity. }
  constructor; cbn [fst snd].
  all: change (vs_of H') with vs'; change (bs_of (bl ++ [beta])) with bs'.
  - unfold shape. subst H'. cbn [mrows mcols upd_col_from upd_block].
    rewrite Hr, Hc. reflexivity.
  - rewrite length_app. cbn. lia.
  - intros j Hj. destruct (Nat.eq_dec j k) as [->|Hne].
    + unfold normalized. rewrite F4. rewrite (Hskip (fun l _ => vs' k l) 0%nat).
      rewrite (ssum_R_ext (fun l => vget v l * vs' k (k + l)%nat)
                          (fun l => vget v l * vget v l)).
      * rewrite Hvlen, Hxlen in Hinv. exact Hinv.
      * intros l _. rewrite F3. destruct (Nat.ltb_spec (k + l) k); [lia|].
        replace (k + l - k)%nat with l by lia. reflexivity.
    + apply (normalized_params (vs := vs) (bs := bs)).
      * intros l. apply F1. lia.
      * apply F2. lia.
      * apply Hnorm. lia.
  - intros i c Hi Hcn Hcase. rewrite HT' by exact Hi. rewrite HH'.
    destruct (Nat.eqb_spec c k) as [->|Hck].
    + (* the column of this pass, on or above the diagonal *)
      assert (Hik : (i <= k)%nat) by lia.
      destruct (Nat.leb_spec (k + 1) i); [lia|]. cbn [andb].
      rewrite Nat.leb_refl, andb_true_r.
      destruct (Nat.leb_spec k i) as [Hki|Hki].
      * assert (i = k) by lia. subst i.
        subst LM. unfold house_leftmult.
        cbn [mget msub jnp_outer vscale vget vecmat dag1 block_from mcols mrows vlen
             sconj R_ops smul ssub].
        rewrite Nat.sub_diag, Nat.add_0_r. rewrite F3, Nat.ltb_irrefl, Nat.sub_diag.
        rewrite (Hupper k k Hi Hcn (or_introl (le_n k))).
        rewrite Hvlen, Hxlen. f_equal. f_equal.
        apply ssum_R_ext. intros l Hl. f_equal.
        apply Hupper; [lia | exact Hcn | left; lia].
      * rewrite F3. apply Nat.ltb_lt in Hki as Hki'. rewrite Hki'.
        rewrite (Hupper i k Hi Hcn (or_intror Hik)). ring.
    + rewrite andb_false_r.
      destruct (Nat.leb_spec k i) as [Hki|Hki]; destruct (Nat.leb_spec k c) as [Hkc|Hkc];
        cbn [andb].
      * subst LM. unfold house_leftmult.
        cbn [mget msub jnp_outer vscale vget vecmat dag1 block_from mcols mrows vlen
             sconj R_ops smul ssub].
        replace (k + (i - k))%nat with i by lia.
        replace (k + (c - k))%nat with c by lia.
        rewrite F3. destruct (Nat.ltb_spec i k); [lia|].
        rewrite (Hupper i c Hi Hcn (or_introl Hkc)).
        rewrite Hvlen, Hxlen. f_equal. f_equal.
        apply ssum_R_ext. intros l Hl. f_equal.
        apply Hupper; [lia | exact Hcn | left; exact Hkc].
      * lia.
      * rewrite F3. apply Nat.ltb_lt in Hki as Hki'. rewrite Hki'.
        rewrite (Hupper i c Hi Hcn ltac:(lia)). ring.
      * rewrite F3. apply Nat.ltb_lt in Hki as Hki'. rewrite Hki'.
        rewrite (Hupper i c Hi Hcn ltac:(lia)). ring.
  - intros i c Hi Hck Hci. rewrite HT' by exact Hi.
    destruct (Nat.eq_dec c k) as [->|Hne].
    + (* the column of this pass, below the diagonal: [P x] vanishes there *)
      specialize (Hbelow (i - k)%nat ltac:(lia)).
      rewrite apply_P_R in Hbelow by lia.
      rewrite Hxlen in Hbelow. subst x. cbn [vget col_from] in Hbelow.
      replace (k + (i - k))%nat with i in Hbelow by lia.
      rewrite F3. destruct (Nat.ltb_spec i k); [lia|].
      rewrite <- (Hupper i k Hi Hk (or_introl (le_n k))).
      rewrite <- Hbelow. f_equal. f_equal.
      apply ssum_R_ext. intros l Hl. f_equal. symmetry.
      apply Hupper; [lia | exact Hk | left; lia].
    + rewrite (Hzero i c Hi ltac:(lia) Hci).
      rewrite (ssum_R_zero (fun l => vget v l * T (k + l)%nat c)); [ring|].
      intros l Hl. rewrite (Hzero (k + l)%nat c) by lia. ring.
Qed.
End FactoredReal.

Lemma for_range_seq_invariant {S : Type}
      (P : nat -> S -> Prop) (body : S -> nat -> option S) :
  forall len a st st',
    (forall k s s', a <= k < a + len -> P k s -> body s k = Some s' -> P (Datatypes.S k) s') ->
    P a st -> for_range body (seq a len) st = Some st' -> P (a + len) st'.
Proof.
  induction len as [|len IH]; intros a st st' Hbody Hst E; simpl in E.
  - injection E as <-. rewrite Nat.add_0_r. exact Hst.
  - destruct (body st a) as [st1|] eqn:E1; simpl in E; [|discriminate].
    rewrite Nat.add_succ_r, <- Nat.add_succ_l.
    apply (IH (Datatypes.S a) st1 st').
    + intros k s s' Hk. apply Hbody. lia.
    + apply (Hbody a st st1); [lia | exact Hst | exact E1].
    + exact E.
Qed.

(** The state of the loop at its end. *)
Lemma __house_qr_factored_R_inv (A H1 : mat R) (betas : vec R) :
  mcols A <= mrows A ->
  __house_qr_factored A = Some (H1, betas) ->
  exists bl, betas = vec_of_list bl /\ qr_inv A (mcols A) (H1, bl).
Proof.
  intros Htall E. unfold __house_qr_factored, matshape, shape in E.
  destruct (for_range (__house_qr_factored_step (mrows A)) (seq 0 (mcols A)) (A, []))
    as [[H2 bl]|] eqn:Erun; simpl in E; [|discriminate].
  injection E as <- <-. exists bl. split; [reflexivity|].
  apply (@for_range_seq_invariant _ (qr_inv A) (__house_qr_factored_step (mrows A))
           (mcols A) 0 (A, []) (H2, bl)).
  - intros k s s' Hk Hs Es.
    apply (@qr_inv_step A Htall k s s'); [lia | exact Hs | exact Es].
  - apply qr_inv_0. exact Htall.
  - exact Erun.
Qed.

Section ChainsBridge.
Variables (H0 : mat R) (betas : vec R).

Lemma Lchain_Lfwd n : forall X,
  Lchain H0 betas n X = Lfwd (mrows H0) (vs_of H0) (vget betas) n X.
Proof. induction n as [|n IH]; intros X; simpl; [reflexivity | exact (IH _)]. Qed.

Lemma Rchain_Rfwd n X :
  Rchain H0 betas n X = Rfwd (mrows H0) (vs_of H0) (vget betas) n X.
Proof.
  induction n as [|n IH]; simpl; [reflexivity|].
  rewrite <- IH. reflexivity.
Qed.
End ChainsBridge.

(** Over the reals, whenever the factored QR of a matrix [A] with [N <= M]
    has a value [(H, betas)], the dense factors [Q, R] of
    [factored_to_QR(H, betas)] satisfy [Q R = A] and [Q^T Q = I], and [R] is
    upper triangular.  With [house_R_zero_head] and [house_R_reflects]:
    what keeps a factorisation from having a value is a pass that meets a
    column with a zero head and a non-zero tail. *)
Lemma factored_QR_R_correct (A H1 : mat R) (betas : vec R) :
  mcols A <= mrows A ->
  __house_qr_factored A = Some (H1, betas) ->
  meq (matmul (fst (factored_to_QR H1 betas)) (snd (factored_to_QR H1 betas))) A
  /\ meq (matmul (dag (fst (factored_to_QR H1 betas))) (fst (factored_to_QR H1 betas)))
         (jnp_eye (mrows A))
  /\ (forall i k, k < i -> mget (snd (factored_to_QR H1 betas)) i k = 0%R).
Proof.
  intros Htall E.
  destruct (@__house_qr_factored_R_inv A H1 betas Htall E) as (bl & -> & Inv).
  destruct Inv as [Hshape Hlen Hnorm Hupper Hzero]. cbn [fst snd] in *.
  unfold shape in Hshape. injection Hshape as Hr Hc.
  destruct (factored_to_QR_Q R_laws H1 (vec_of_list bl) ltac:(lia)) as (EQ & HshQ).
  rewrite Lchain_Lfwd in EQ. rewrite Hr, Hc in EQ.
  change (feq H1 (mget (fst (factored_to_QR H1 (vec_of_list bl))))
              (Lfwd (mrows A) (vs_of H1) (bs_of bl) (mcols A) deltaR)) in EQ.
  pose proof (chains_agree R_laws H1 (vec_of_list bl) (mcols A)) as Eagree.
  rewrite Lchain_Lfwd, Rchain_Rfwd in Eagree. rewrite Hr in Eagree.
  change (feq H1 (Lfwd (mrows A) (vs_of H1) (bs_of bl) (mcols A) deltaR)
              (Rfwd (mrows A) (vs_of H1) (bs_of bl) (mcols A) deltaR)) in Eagree.
  unfold feq in EQ, Eagree. rewrite Hr in EQ, Eagree.
  set (Q := fst (factored_to_QR H1 (vec_of_list bl))) in *.
  change (snd (factored_to_QR H1 (vec_of_list bl))) with (jnp_triu H1).
  set (m := mrows A) in *. set (n := mcols A) in *.
  set (vs := vs_of H1) in *. set (bs := bs_of bl) in *.
  set (T := Lrev m vs bs n (mget A)) in *.
  assert (HQr : mrows Q = m).
  { transitivity (mrows H1); [exact (f_equal fst HshQ) | exact Hr]. }
  assert (HQc : mcols Q = m).
  { transitivity (mrows H1); [exact (f_equal snd HshQ) | exact Hr]. }
  assert (HR : forall l c, l < m -> c < n -> mget (jnp_triu H1) l c = T l c).
  { intros l c Hl Hcn. cbn [mget jnp_triu].
    destruct (Nat.leb_spec l c) as [Hlc|Hlc].
    - apply Hupper; [exact Hl | exact Hcn | right; exact Hlc].
    - symmetry. apply Hzero; [exact Hl | exact Hcn | exact Hlc]. }
  split; [|split].
  - (* Q R = A *)
    split; [|split].
    + cbn [mrows matmul]. exact HQr.
    + cbn [mcols matmul jnp_triu]. exact Hc.
    + intros i c Hi Hcn. cbn [mrows mcols matmul jnp_triu] in Hi, Hcn.
      rewrite HQr in Hi. rewrite Hc in Hcn. fold m in Hi. fold n in Hcn.
      cbn [mget matmul]. rewrite HQc. fold m.
      transitivity (mulf m (Lfwd m vs bs n deltaR) T i c).
      { unfold mulf. apply ssum_R_ext. intros l Hl.
        rewrite (EQ i l Hi Hl), (HR l c Hl Hcn). reflexivity. }
      rewrite (@Lfwd_mulf m vs bs n deltaR T i c Hi).
      rewrite (@Lfwd_ext m vs bs n _ _ (@mulf_delta m T) i c Hi).
      exact (@Lfwd_Lrev m vs bs n (mget A) Hnorm i c Hi).
  - (* Q^T Q = I *)
    split; [|split].
    + cbn [mrows matmul dag]. exact HQc.
    + cbn [mcols matmul jnp_eye]. exact HQc.
    + intros i k Hi Hk. cbn [mrows mcols matmul dag] in Hi, Hk.
      rewrite HQc in Hi, Hk. fold m in Hi, Hk.
      cbn [mget matmul dag mcols jnp_eye sconj R_ops]. rewrite HQr. fold m.
      transitivity (mulf m (Lrev m vs bs n deltaR) (Lfwd m vs bs n deltaR) i k).
      { unfold mulf. apply ssum_R_ext. intros l Hl.
        rewrite (EQ l i Hl Hi), (EQ l k Hl Hk).
        assert (Ht : Lfwd m vs bs n deltaR l i = Lrev m vs bs n deltaR i l).
        { rewrite (Eagree l i Hl Hi).
          change (Rfwd m vs bs n deltaR l i) with (trf (Rfwd m vs bs n deltaR) i l).
          rewrite (@trf_Rfwd m vs bs n deltaR i l Hi).
          apply (@Lrev_ext m vs bs n); [|exact Hi]. intros i' k' _. apply trf_deltaR. }
        rewrite Ht. reflexivity. }
      rewrite (@Lrev_mulf m vs bs n deltaR (Lfwd m vs bs n deltaR) i k Hi).
      rewrite (@Lrev_ext m vs bs n _ _ (@mulf_delta m (Lfwd m vs bs n deltaR)) i k Hi).
      exact (@Lrev_Lfwd m vs bs n deltaR Hnorm i k Hi).
  - (* R is upper triangular *)
    intros i k Hki. cbn [mget jnp_triu].
    destruct (Nat.leb_spec i k); [lia | reflexivity].
Qed.

Example factored_QR_R_correct_eye2 :
  exists H1 betas,
    __house_qr_factored eye2_R = Some (H1, betas)
    /\ meq (matmul (fst (factored_to_QR H1 betas)) (snd (factored_to_QR H1 betas)))
           eye2_R.
Proof.
  destruct __house_qr_factored_eye2_R as (H1 & betas & E).
  exists H1, betas. split; [exact E|].
  apply (@factored_QR_R_correct eye2_R H1 betas); [simpl; lia | exact E].
Qed.

(** ** The shapes of recursive QR and of the dense factored form *)

Section RecursiveShapes.
Context {T : Type} `{ScalarOps T}.
Variable jnp_linalg_qr : mat T -> string -> result (qr_ret T).
Hypothesis qr_shapes : reduced_shapes jnp_linalg_qr.

Lemma qr_reduced_shapes (B : mat T) :
  mcols B <= mrows B ->
  exists Q R l, qr_reduced jnp_linalg_qr B = (l, Ok (Q, R))
                /\ shape Q = (mrows B, mcols B) /\ shape R = (mcols B, mcols B).
Proof.
  intros HB. destruct (qr_shapes B HB) as (Q & R & E & HQ & HR).
  exists Q, R. eexists. unfold qr_reduced, bind, call. cbn [fst snd].
  rewrite E. cbn. repeat split; assumption.
Qed.

Lemma __recursiveQR_shapes (n : nat) : forall (A : mat T) (n_block : Z),
  mcols A = n -> mcols A <= mrows A -> (1 <= n_block)%Z ->
  exists Q R l, __recursiveQR jnp_linalg_qr A n_block = (l, Ok (Q, R))
                /\ shape Q = (mrows A, mcols A) /\ shape R = (mcols A, mcols A).
Proof.
  induction n as [n IH] using lt_wf_ind. intros A n_block Hn Hshape Hb.
  rewrite __recursiveQR_equation_1.
  destruct (Z_lt_dec n_block 1) as [Hlt|Hge]; [lia|].
  cbn [__recursiveQR_unfold_clause_1].
  destruct (Z_le_dec (Z.of_nat (mcols A)) n_block) as [Hbase|Hrec];
    cbn [__recursiveQR_unfold_clause_1_clause_2].
  - apply qr_reduced_shapes. exact Hshape.
  - cbv zeta.
    assert (Hn2 : 2 <= mcols A) by lia.
    pose proof (Nat.div_lt (mcols A) 2 ltac:(lia) ltac:(lia)) as Hlt0.
    pose proof (Nat.div_str_pos (mcols A) 2 ltac:(lia)) as Hpos0.
    set (n0 := mcols A / 2) in *.
    destruct (IH (mcols (cols_upto A n0)) ltac:(simpl; lia) (cols_upto A n0) n_block
                 eq_refl ltac:(simpl; lia) Hb)
      as (Q0 & R00 & l0 & E0 & HQ0 & HR00).
    rewrite E0. unfold bind at 1. cbn [fst snd].
    set (A' := upd_cols_from A n0
                 (msub (cols_from A n0) (matmul Q0 (matmul (dag Q0) (cols_from A n0))))).
    destruct (IH (mcols (cols_from A' n0)) ltac:(simpl; lia) (cols_from A' n0) n_block
                 eq_refl ltac:(simpl; lia) Hb)
      as (Q1 & R11 & l1 & E1 & HQ1 & HR11).
    rewrite E1. unfold bind. cbn [fst snd ret].
    eexists _, _, _. split; [reflexivity|].
    unfold shape in *. cbn [mrows mcols cols_upto cols_from block_from upd_cols_from
                            upd_block] in HQ0, HR00, HQ1, HR11.
    injection HQ0 as HQ0r HQ0c. injection HR00 as HR00r HR00c.
    injection HQ1 as HQ1r HQ1c. injection HR11 as HR11r HR11c.
    cbn [mrows mcols jnp_hstack jnp_vstack jnp_zeros matmul dag cols_from block_from].
    split; f_equal; lia.
Qed.

Lemma factored_to_QR_fold_shape (h : mat T) (beta : vec T) (js : list nat) :
  forall Q, shape (fold_left (factored_to_QR_step h beta) js Q) = shape Q.
Proof.
  induction js as [|j js IHjs]; intros Q; cbn [fold_left]; [reflexivity|].
  rewrite IHjs. reflexivity.
Qed.

(** The dense factors of [factored_to_QR]: [Q] is square of order [M], [R]
    has the shape of [H]. *)
Lemma factored_to_QR_shapes (h : mat T) (beta : vec T) :
  shape (fst (factored_to_QR h beta)) = (mrows h, mrows h)
  /\ shape (snd (factored_to_QR h beta)) = shape h.
Proof.
  unfold factored_to_QR. cbn [fst snd shape]. split; [|reflexivity].
  apply (factored_to_QR_fold_shape h beta (rev (seq 0 (mcols h))) (jnp_eye (mrows h))).
Qed.
End RecursiveShapes.

(** The shapes alone. For every matrix with [N <= M] and every block size
    [>= 1], given a dense QR that returns reduced shapes, recursive QR
    returns reduced shapes too, [Q] of shape [(M, N)] and [R] of shape
    [(N, N)], and for a block size of at least [N] exactly what the dense
    QR returns on [A]; the factored form converted to dense gives the
    complete factors, [Q] of shape [(M, M)] and [R] of shape [(M, N)]. *)
Theorem recursiveQR_reduced_factors
        {T : Type} `{FieldOps T}
        (jnp_linalg_qr : mat T -> string -> result (qr_ret T))
        (A : mat T) (n_block : Z) :
  reduced_shapes jnp_linalg_qr ->
  mcols A <= mrows A -> (1 <= n_block)%Z ->
  (exists Q R l, recursiveQR jnp_linalg_qr A n_block = (l, Ok (Q, R))
                 /\ shape Q = (mrows A, mcols A) /\ shape R = (mcols A, mcols A))
  /\ ((Z.of_nat (mcols A) <= n_block)%Z ->
      recursiveQR jnp_linalg_qr A n_block = qr_reduced jnp_linalg_qr A)
  /\ (forall H1 betas, __house_qr_factored A = Some (H1, betas) ->
        shape (fst (factored_to_QR H1 betas)) = (mrows A, mrows A)
        /\ shape (snd (factored_to_QR H1 betas)) = (mrows A, mcols A)).
Proof.
  intros Hqr Hshape Hb. split; [|split].
  - apply (__recursiveQR_shapes Hqr (n := mcols A)); [reflexivity | exact Hshape | exact Hb].
  - intros Hbase. unfold recursiveQR. rewrite __recursiveQR_equation_1.
    destruct (Z_lt_dec n_block 1) as [Hlt|Hge]; [lia|].
    cbn [__recursiveQR_unfold_clause_1].
    destruct (Z_le_dec (Z.of_nat (mcols A)) n_block) as [Hle|Hgt]; [reflexivity | lia].
  - intros H1 betas E. apply __house_qr_factored_shape in E.
    destruct (factored_to_QR_shapes H1 betas) as (HQ & HR).
    rewrite HQ, HR, E. unfold shape in E. injection E as -> _.
    split; reflexivity.
Qed.

Lemma qr_stub_reduced_shapes {T : Type} `{ScalarOps T} : reduced_shapes (qr_stub (T := T)).
Proof.
  intros B HB. unfold qr_stub. eexists _, _. split; [reflexivity|].
  unfold shape. cbn [mrows mcols jnp_eye]. rewrite Nat.min_r by exact HB.
  split; reflexivity.
Qed.

Lemma recursiveQR_reduced_factors_witness :
  (exists Q R l, recursiveQR qr_stub tall_3x2 1 = (l, Ok (Q, R))
                 /\ shape Q = (3, 2) /\ shape R = (2, 2))
  /\ ((Z.of_nat 2 <= 1)%Z -> recursiveQR qr_stub tall_3x2 1 = qr_reduced qr_stub tall_3x2)
  /\ (forall H1 betas, __house_qr_factored tall_3x2 = Some (H1, betas) ->
        shape (fst (factored_to_QR H1 betas)) = (3, 3)
        /\ shape (snd (factored_to_QR H1 betas)) = (3, 2)).
Proof.
  apply (recursiveQR_reduced_factors (jnp_linalg_qr := qr_stub) tall_3x2
           (n_block := 1)).
  - apply qr_stub_reduced_shapes.
  - simpl. lia.
  - lia.
Defined.

(** Read as an equality of whole arrays, the statement on recursive QR
    fails by shape: on the 2x1 matrix [[[3], [4]]] with block size 1,
    whatever the dense QR returns in reduced mode, the [Q] of recursive QR
    has one column and the [Q] of the dense factored form has two. *)
Lemma recursiveQR_not_factored_dense :
  ~ exists jnp_linalg_qr,
      reduced_shapes jnp_linalg_qr
      /\ recursiveQR_matches_factored jnp_linalg_qr tall_2x1 1.
Proof.
  intros (jqr & Hqr & Hclaim).
  assert (Hf : exists H1 betas, __house_qr_factored tall_2x1 = Some (H1, betas)).
  { eexists _, _. vm_compute. reflexivity. }
  destruct Hf as (H1 & betas & E).
  destruct (Hclaim H1 betas E) as (Q & R & l & Erec & (_ & HQc & _) & _).
  destruct (__recursiveQR_shapes Hqr (n := 1) tall_2x1 (n_block := 1) eq_refl
              ltac:(simpl; lia) ltac:(lia))
    as (Q' & R' & l' & Erec' & HQ' & _).
  unfold recursiveQR in Erec. rewrite Erec in Erec'.
  injection Erec' as _ <- _.
  destruct (factored_to_QR_shapes H1 betas) as (HQf & _).
  apply __house_qr_factored_shape in E.
  apply (f_equal snd) in HQ'. change (mcols Q = 1) in HQ'.
  apply (f_equal snd) in HQf.
  change (mcols (fst (factored_to_QR H1 betas)) = mrows H1) in HQf.
  apply (f_equal fst) in E. change (mrows H1 = 2) in E.
  rewrite HQ', HQf, E in HQc. discriminate HQc.
Qed.

(** * Further properties of the code *)

(** ** The reflector routines against the dense reflector *)

(** The laws of the conjugation: an involution that respects the ring
    operations. *)
Record conj_laws (T : Type) {ops : ScalarOps T} : Prop := {
  cl_ring : ring_theory s0 s1 sadd smul ssub sopp eq;
  cl_0 : sconj s0 = s0;
  cl_1 : sconj s1 = s1;
  cl_sub : forall a b, sconj (ssub a b) = ssub (sconj a) (sconj b);
  cl_mul : forall a b, sconj (smul a b) = smul (sconj a) (sconj b);
  cl_invol : forall a, sconj (sconj a) = a
}.
Arguments conj_laws T {ops}.

Lemma R_conj_laws : conj_laws R.
Proof. split; try reflexivity. exact RTheory. Qed.

Lemma Z_conj_laws : conj_laws Z.
Proof. split; try reflexivity. exact InitialRing.Zth. Qed.

(** The Gaussian integers [a + b i], as pairs [(a, b)]: scalars whose
    conjugation is not the identity. *)
Definition gauss : Type := (Z * Z)%type.

#[export] Instance gauss_ops : ScalarOps gauss := {
  s0 := (0, 0)%Z;
  s1 := (1, 0)%Z;
  sadd := fun x y => (fst x + fst y, snd x + snd y)%Z;
  smul := fun x y => (fst x * fst y - snd x * snd y, fst x * snd y + snd x * fst y)%Z;
  ssub := fun x y => (fst x - fst y, snd x - snd y)%Z;
  sopp := fun x => (- fst x, - snd x)%Z;
  sconj := fun x => (fst x, - snd x)%Z
}.

Lemma gauss_conj_laws : conj_laws gauss.
Proof.
  split; [split|..]; try reflexivity.
  all: repeat (intros [? ?]); cbn [fst snd s0 s1 sadd smul ssub sopp sconj gauss_ops];
    f_equal; ring.
Qed.

Definition v_1i : vec gauss := vec_of_list [(1, 0); (0, 1)]%Z.

Section ReflectorAlgebra.
Context {T : Type} {ops : ScalarOps T}.
Context (laws : ring_theory s0 s1 sadd smul ssub sopp eq).
Add Ring scalar_ring_refl : laws.
Local Open Scope scalar_scope.

Lemma ssum_split a b (f : nat -> T) :
  ssum (a + b)%nat f = ssum a f + ssum b (fun i => f (a + i)%nat).
Proof.
  induction b as [|b IH].
  - rewrite Nat.add_0_r. simpl. ring.
  - rewrite Nat.add_succ_r. simpl. rewrite IH. ring.
Qed.

(** [P A] for [P = I - beta v v^H], column [k] at row [i]. *)
Lemma dense_P_times (v : vec T) (beta : T) (X : nat -> T) i :
  i < vlen v ->
  ssum (vlen v) (fun l => mget (form_dense_P (v, beta)) i l * X l)
  = X i - (beta * vget v i) * ssum (vlen v) (fun l => sconj (vget v l) * X l).
Proof.
  intros Hi.
  transitivity (ssum (vlen v) (fun l => (if i =? l then s1 else s0) * X l)
                - ssum (vlen v) (fun l => (beta * vget v i) * (sconj (vget v l) * X l))).
  - rewrite <- (ssum_sub laws). apply ssum_ext. intros l _.
    cbn [form_dense_P mget msub jnp_eye jnp_outer dag1 vget]. ring.
  - rewrite (ssum_delta_l laws _ Hi), (ssum_scale_l laws). reflexivity.
Qed.

(** [A P] for [P = I - beta v v^H], row [i] at column [k]. *)
Lemma times_dense_P (v : vec T) (beta : T) (X : nat -> T) k :
  k < vlen v ->
  ssum (vlen v) (fun l => X l * mget (form_dense_P (v, beta)) l k)
  = X k - ssum (vlen v) (fun l => X l * vget v l) * (beta * sconj (vget v k)).
Proof.
  intros Hk.
  transitivity (ssum (vlen v) (fun l => X l * (if l =? k then s1 else s0))
                - ssum (vlen v) (fun l => (X l * vget v l) * (beta * sconj (vget v k)))).
  - rewrite <- (ssum_sub laws). apply ssum_ext. intros l _.
    cbn [form_dense_P mget msub jnp_eye jnp_outer dag1 vget]. ring.
  - rewrite (ssum_delta_r laws _ Hk), (ssum_scale_r laws). reflexivity.
Qed.

(** X1. [house_leftmult(A, v, beta)] is the product [P A] of the dense
    reflector [P = form_dense_P([v, beta])] with [A], for [v] as long as
    [A] has rows. *)
Theorem house_leftmult_is_P_times_A (A : mat T) (v : vec T) (beta : T) :
  vlen v = mrows A ->
  meq (house_leftmult A v beta) (matmul (form_dense_P (v, beta)) A).
Proof.
  intros Hv. split; [|split].
  - cbn. symmetry. exact Hv.
  - reflexivity.
  - intros i k Hi Hk. cbn [mrows house_leftmult msub] in Hi.
    change (mget (matmul (form_dense_P (v, beta)) A) i k)
      with (ssum (vlen v) (fun l => mget (form_dense_P (v, beta)) i l * mget A l k)).
    rewrite (dense_P_times v beta (fun l => mget A l k)) by lia.
    reflexivity.
Qed.

(** X2. [house_rightmult(A, v, beta)] is the product [A P] of [A] with the
    dense reflector [P = form_dense_P([v, beta])], for [v] as long as [A]
    has columns. *)
Theorem house_rightmult_is_A_times_P (A : mat T) (v : vec T) (beta : T) :
  vlen v = mcols A ->
  meq (house_rightmult A v beta) (matmul A (form_dense_P (v, beta))).
Proof.
  intros Hv. split; [|split].
  - reflexivity.
  - cbn. symmetry. exact Hv.
  - intros i k Hi Hk. cbn [mcols house_rightmult msub] in Hk.
    change (mget (matmul A (form_dense_P (v, beta))) i k)
      with (ssum (mcols A) (fun l => mget A i l * mget (form_dense_P (v, beta)) l k)).
    rewrite <- Hv.
    rewrite (times_dense_P v beta (fun l => mget A i l)) by lia.
    cbn [house_rightmult msub mget jnp_outer matvec vscale dag1 vget].
    rewrite <- Hv. reflexivity.
Qed.
End ReflectorAlgebra.

Lemma house_leftmult_is_P_times_A_witness :
  meq (house_leftmult (jnp_eye 2) (vec_of_list [1; 1]%Z) 1%Z)
      (matmul (form_dense_P (vec_of_list [1; 1]%Z, 1%Z)) (jnp_eye 2)).
Proof.
  apply (house_leftmult_is_P_times_A Z_laws (jnp_eye 2) (vec_of_list [1; 1]%Z) 1%Z).
  reflexivity.
Defined.

Lemma house_rightmult_is_A_times_P_witness :
  meq (house_rightmult (jnp_eye 2) (vec_of_list [1; 1]%Z) 1%Z)
      (matmul (jnp_eye 2) (form_dense_P (vec_of_list [1; 1]%Z, 1%Z))).
Proof.
  apply (house_rightmult_is_A_times_P Z_laws (jnp_eye 2) (vec_of_list [1; 1]%Z) 1%Z).
  reflexivity.
Defined.

Section DenseReflector.
Context {T : Type} {ops : ScalarOps T}.
Context (claws : conj_laws T).
Add Ring scalar_ring_dense : (cl_ring claws).
Local Open Scope scalar_scope.

Variables (v : vec T) (beta : T).

(** [v^H v] *)
Definition vnorm_sqr : T := ssum (vlen v) (fun l => sconj (vget v l) * vget v l).

(** [beta (2 - beta v^H v) = 0]: [beta] is zero or [2 / (v^H v)]. *)
Definition normalised : Prop := beta * (s2 - beta * vnorm_sqr) = s0.

Lemma form_dense_P_dag_entry i k :
  sconj beta = beta ->
  sconj (mget (form_dense_P (v, beta)) k i) = mget (form_dense_P (v, beta)) i k.
Proof.
  intros Hb. cbn [form_dense_P mget msub jnp_eye jnp_outer dag1 vget].
  rewrite (cl_sub claws), !(cl_mul claws), (cl_invol claws), Hb.
  rewrite (Nat.eqb_sym k i).
  destruct (i =? k); [rewrite (cl_1 claws) | rewrite (cl_0 claws)]; ring.
Qed.

Lemma form_dense_P_square_entry i k :
  normalised -> i < vlen v -> k < vlen v ->
  ssum (vlen v) (fun l => mget (form_dense_P (v, beta)) i l * mget (form_dense_P (v, beta)) l k)
  = if i =? k then s1 else s0.
Proof.
  intros Hn Hi Hk.
  rewrite (dense_P_times (cl_ring claws) v beta
             (fun l => mget (form_dense_P (v, beta)) l k) Hi).
  rewrite (times_dense_P (cl_ring claws) v beta (fun l => sconj (vget v l)) Hk).
  fold vnorm_sqr.
  cbn [form_dense_P mget msub jnp_eye jnp_outer dag1 vget].
  transitivity ((if i =? k then s1 else s0)
                - (vget v i * sconj (vget v k)) * (beta * (s2 - beta * vnorm_sqr))).
  - unfold s2. ring.
  - rewrite Hn. ring.
Qed.

Lemma form_dense_P_unitary :
  sconj beta = beta -> normalised ->
  meq (matmul (dag (form_dense_P (v, beta))) (form_dense_P (v, beta)))
      (jnp_eye (vlen v)).
Proof.
  intros Hb Hn. split; [reflexivity | split; [reflexivity|]].
  intros i k Hi Hk. cbn [mrows mcols matmul dag form_dense_P msub jnp_eye] in Hi, Hk.
  change (mget (matmul (dag (form_dense_P (v, beta))) (form_dense_P (v, beta))) i k)
    with (ssum (vlen v) (fun l => sconj (mget (form_dense_P (v, beta)) l i)
                                  * mget (form_dense_P (v, beta)) l k)).
  change (mget (jnp_eye (vlen v)) i k) with (if i =? k then s1 else s0).
  rewrite <- (form_dense_P_square_entry Hn Hi Hk).
  apply ssum_ext. intros l _. rewrite (form_dense_P_dag_entry i l Hb). reflexivity.
Qed.

(** X3. For a real [beta] that is zero or [2 / (v^H v)], the dense matrix
    [P = form_dense_P([v, beta])] is Hermitian and unitary:
    [dag(P) = P] and [dag(P) P = I]. *)
Theorem form_dense_P_hermitian_unitary :
  sconj beta = beta -> normalised ->
  meq (dag (form_dense_P (v, beta))) (form_dense_P (v, beta))
  /\ meq (matmul (dag (form_dense_P (v, beta))) (form_dense_P (v, beta)))
         (jnp_eye (vlen v)).
Proof.
  intros Hb Hn. split; [|apply form_dense_P_unitary; assumption].
  split; [reflexivity | split; [reflexivity|]].
  intros i k _ _. cbn [dag mget]. apply form_dense_P_dag_entry. exact Hb.
Qed.
End DenseReflector.

Lemma form_dense_P_hermitian_unitary_witness :
  meq (dag (form_dense_P (v_1i, (1, 0)%Z))) (form_dense_P (v_1i, (1, 0)%Z))
  /\ meq (matmul (dag (form_dense_P (v_1i, (1, 0)%Z))) (form_dense_P (v_1i, (1, 0)%Z)))
         (jnp_eye 2).
Proof.
  apply (@form_dense_P_hermitian_unitary _ _ gauss_conj_laws v_1i (1, 0)%Z);
    reflexivity.
Defined.

(** The reflector of [v = [1, i]] with [beta = 2 / (v^H v) = 1]. *)
Example form_dense_P_1i :
  mat_to_rows (form_dense_P (v_1i, (1, 0)%Z))
  = [[(0, 0); (0, 1)]; [(0, -1); (0, 0)]]%Z.
Proof. vm_compute. reflexivity. Qed.

(** ** The factored form as a product of reflectors *)

(** The [j]-th reflector of the factored form [(H, betas)], as a dense
    matrix of order [M], and the product [P_0 (P_1 (... P_{n-1}))]. *)
Definition reflector {T : Type} `{ScalarOps T} (H0 : mat T) (betas : vec T) (j : nat)
  : mat T :=
  form_dense_P (householder_vector H0 j, vget betas j).
Definition reflector_product {T : Type} `{ScalarOps T} (H0 : mat T) (betas : vec T)
           (n : nat) : mat T :=
  fold_right (fun j X => matmul (reflector H0 betas j) X) (jnp_eye (mrows H0)) (seq 0 n).

Section FactoredProducts.
Context {T : Type} {ops : ScalarOps T}.
Context (laws : scalar_laws T).
Add Ring scalar_ring_fp : (sl_ring laws).
Local Open Scope scalar_scope.

Variables (H0 : mat T) (betas : vec T).

Local Notation "'hv' j" := (vget (householder_vector H0 j)) (at level 10, j at level 9).
Local Notation "'M'" := (mrows H0).

Lemma refl_left_matmul j (X : mat T) :
  feq H0 (refl_left H0 betas j (mget X)) (mget (matmul (reflector H0 betas j) X)).
Proof.
  intros i k Hi _. unfold refl_left, reflector.
  change (mget (matmul (form_dense_P (householder_vector H0 j, vget betas j)) X) i k)
    with (ssum (vlen (householder_vector H0 j))
               (fun l => mget (form_dense_P (householder_vector H0 j, vget betas j)) i l
                         * mget X l k)).
  rewrite (dense_P_times (sl_ring laws) (householder_vector H0 j) (vget betas j)
             (fun l => mget X l k) (i := i)) by exact Hi.
  reflexivity.
Qed.

Lemma Lchain_fold n : forall X : mat T,
  feq H0 (Lchain H0 betas n (mget X))
      (mget (fold_right (fun j Y => matmul (reflector H0 betas j) Y) X (seq 0 n))).
Proof.
  induction n as [|n IH]; intros X.
  - intros i k _ _. reflexivity.
  - rewrite seq_S, fold_right_app. cbn [fold_right Nat.add Lchain].
    eapply feq_trans; [|apply IH].
    apply Lchain_ext. apply refl_left_matmul.
Qed.

Lemma reflector_product_shape n :
  shape (reflector_product H0 betas n) = (M, M).
Proof.
  unfold reflector_product. destruct n as [|n]; [reflexivity|].
  cbn [seq fold_right]. unfold shape. cbn [mrows mcols matmul reflector form_dense_P msub
                                            jnp_eye householder_vector vlen].
  f_equal. generalize 1 at 1. induction n as [|n IH]; intros a; [reflexivity|].
  cbn [seq fold_right mcols matmul]. apply IH.
Qed.

(** [X P_j], row by row. *)
Lemma refl_right_row j (X Y : nat -> nat -> T) i k :
  (forall l, l < M -> X i l = Y i l) -> k < M ->
  refl_right H0 betas j X i k = refl_right H0 betas j Y i k.
Proof.
  intros E Hk. unfold refl_right. rewrite (E k Hk). f_equal. f_equal. f_equal.
  apply ssum_ext. intros l Hl. rewrite (E l Hl). reflexivity.
Qed.

Lemma Rchain_row n : forall (X Y : nat -> nat -> T) i,
  (forall l, l < M -> X i l = Y i l) ->
  forall k, k < M -> Rchain H0 betas n X i k = Rchain H0 betas n Y i k.
Proof.
  induction n as [|n IH]; intros X Y i E k Hk; cbn [Rchain].
  - apply E. exact Hk.
  - apply refl_right_row; [|exact Hk]. intros l Hl. apply IH; assumption.
Qed.

(** [((X P_0) ...) P_{n-1} = X (P_0 ... P_{n-1})] *)
Lemma Rchain_linear n : forall (X : nat -> nat -> T) i k,
  k < M ->
  Rchain H0 betas n X i k
  = ssum M (fun l => X i l * Rchain H0 betas n delta l k).
Proof.
  induction n as [|n IH]; intros X i k Hk; cbn [Rchain].
  - unfold delta. rewrite (ssum_delta_r (sl_ring laws) _ Hk). reflexivity.
  - unfold refl_right at 1. rewrite (IH X i k Hk).
    assert (E : ssum M (fun a => Rchain H0 betas n X i a * hv n a)
                = ssum M (fun l => X i l *
                    ssum M (fun a => Rchain H0 betas n delta l a * hv n a))).
    { transitivity (ssum M (fun a => ssum M (fun l =>
                      X i l * Rchain H0 betas n delta l a * hv n a))).
      - apply ssum_ext. intros a Ha. rewrite (IH X i a Ha).
        rewrite <- (ssum_scale_r (sl_ring laws)). reflexivity.
      - rewrite (ssum_swap (sl_ring laws)). apply ssum_ext. intros l _.
        rewrite <- (ssum_scale_l (sl_ring laws)). apply ssum_ext. intros a _. ring. }
    rewrite E.
    transitivity (ssum M (fun l => X i l * Rchain H0 betas n delta l k)
                  - ssum M (fun l => (X i l * ssum M (fun a =>
                        Rchain H0 betas n delta l a * hv n a))
                      * (vget betas n * sconj (hv n k)))).
    + rewrite (ssum_scale_r (sl_ring laws)). ring.
    + rewrite <- (ssum_sub (sl_ring laws)). apply ssum_ext. intros l _.
      unfold refl_right. ring.
Qed.

(** One pass of [factored_rightmult] multiplies by [P_j] from the right. *)
Lemma factored_rightmult_step_spec j (C : mat T) i k :
  j < M -> mcols C = M -> k < M ->
  mget (factored_rightmult_step H0 C (j, vget betas j)) i k
  = refl_right H0 betas j (mget C) i k.
Proof.
  intros Hj HC Hk. unfold factored_rightmult_step, refl_right, upd_cols_from.
  cbn [mget upd_block Nat.leb andb].
  assert (Esum : ssum (M - j) (fun l => mget C i (j + l) * hv j (j + l))
                 = ssum M (fun l => mget C i l * hv j l)).
  { replace M with (j + (M - j))%nat at 2 by lia.
    rewrite (ssum_skip (sl_ring laws)); [reflexivity|].
    intros l Hl. rewrite (hv_above H0 Hl). ring. }
  destruct (Nat.leb_spec j k) as [Hjk|Hjk].
  - unfold house_rightmult.
    cbn [mget msub jnp_outer matvec vscale dag1 vget cols_from block_from mcols mrows
         Nat.add].
    rewrite HC. rewrite Nat.sub_0_r.
    rewrite (cons1_hv H0 j (k - j)). replace (j + (k - j))%nat with k by lia.
    rewrite <- Esum.
    transitivity (mget C i k
                  - ssum (M - j) (fun l => mget C i (j + l) * hv j (j + l))
                    * (vget betas j * sconj (hv j k))); [|ring].
    f_equal. f_equal. apply ssum_ext. intros l _. rewrite (cons1_hv H0 j l). reflexivity.
  - rewrite (hv_above H0 Hjk), (sl_conj0 laws). ring.
Qed.

(** One pass of [factored_rightmult_dense] does the same. *)
Lemma factored_rightmult_dense_step_spec j (C : mat T) i k :
  j < M -> mcols C = M -> k < M ->
  mget (factored_rightmult_dense_step H0 M C (j, vget betas j)) i k
  = refl_right H0 betas j (mget C) i k.
Proof.
  intros Hj HC Hk. unfold factored_rightmult_dense_step, refl_right.
  cbn [mget upd_block Nat.leb andb]. rewrite !Nat.sub_0_r.
  set (v := zeros_then (M - vlen (cons1 (col_from H0 (j + 1) j)))
                       (cons1 (col_from H0 (j + 1) j))).
  assert (Hlen : vlen v = M).
  { unfold v. cbn [vlen zeros_then cons1 col_from]. lia. }
  assert (Hv : forall l, vget v l = hv j l).
  { intros l. unfold v. cbn [vget zeros_then vlen cons1 col_from].
    replace (M - S (M - (j + 1)))%nat with j by lia.
    destruct (Nat.ltb_spec l j) as [Hl|Hl].
    - symmetry. apply (hv_above H0 Hl).
    - change (vget (cons1 (col_from H0 (j + 1) j)) (l - j) = hv j l).
      rewrite (cons1_hv H0 j (l - j)). f_equal. lia. }
  change (mget (matmul C (form_dense_P (v, vget betas j))) i k)
    with (ssum (mcols C) (fun l => mget C i l * mget (form_dense_P (v, vget betas j)) l k)).
  rewrite HC. rewrite <- Hlen at 1.
  rewrite (times_dense_P (sl_ring laws) v (vget betas j) (fun l => mget C i l) (k := k))
    by lia.
  rewrite Hlen, Hv.
  transitivity (mget C i k
                - ssum M (fun l => mget C i l * hv j l)
                  * (vget betas j * sconj (hv j k))); [|ring].
  f_equal. f_equal. apply ssum_ext. intros l _. rewrite Hv. reflexivity.
Qed.

(** A loop over [enumerate(betas)] whose passes multiply by [P_j] from the
    right ends with [((A P_0) ...) P_{n-1}]. *)
Lemma rightmult_fold (step : mat T -> nat * T -> mat T) (A : mat T) :
  mcols A = M ->
  (forall j C, j < M -> mcols C = M ->
     shape (step C (j, vget betas j)) = shape C
     /\ forall i k, k < M ->
          mget (step C (j, vget betas j)) i k = refl_right H0 betas j (mget C) i k) ->
  forall n, n <= M ->
  let C := fold_left step (map (fun j => (j, vget betas j)) (seq 0 n)) A in
  shape C = shape A
  /\ forall i k, k < M -> mget C i k = Rchain H0 betas n (mget A) i k.
Proof.
  intros HA Hstep. induction n as [|n IH]; intros Hn.
  - cbn. split; [reflexivity | intros; reflexivity].
  - rewrite seq_S, map_app, fold_left_app. cbn [map fold_left Nat.add].
    destruct (IH ltac:(lia)) as (Hsh & Hent).
    set (C := fold_left step (map (fun j => (j, vget betas j)) (seq 0 n)) A) in *.
    assert (HC : mcols C = M).
    { apply (f_equal snd) in Hsh. cbn in Hsh. rewrite Hsh. exact HA. }
    destruct (Hstep n C ltac:(lia) HC) as (Hsh' & Hent').
    split.
    + rewrite Hsh'. exact Hsh.
    + intros i k Hk. rewrite (Hent' i k Hk). cbn [Rchain].
      apply refl_right_row; [|exact Hk]. intros l Hl. apply Hent. exact Hl.
Qed.

Lemma factored_rightmult_Rchain (A : mat T) :
  mcols A = M -> vlen betas <= M ->
  shape (factored_rightmult A H0 betas) = shape A
  /\ forall i k, k < M ->
       mget (factored_rightmult A H0 betas) i k
       = Rchain H0 betas (vlen betas) (mget A) i k.
Proof.
  intros HA Hb. unfold factored_rightmult, enumerate.
  apply (rightmult_fold (factored_rightmult_step H0) A HA); [|exact Hb].
  intros j C Hj HC. split; [reflexivity|].
  intros i k Hk. apply factored_rightmult_step_spec; assumption.
Qed.

Lemma factored_rightmult_dense_Rchain (A : mat T) :
  mcols A = M -> vlen betas <= M ->
  shape (factored_rightmult_dense A H0 betas) = shape A
  /\ forall i k, k < M ->
       mget (factored_rightmult_dense A H0 betas) i k
       = Rchain H0 betas (vlen betas) (mget A) i k.
Proof.
  intros HA Hb. unfold factored_rightmult_dense, enumerate. cbv zeta. rewrite HA.
  apply (rightmult_fold (factored_rightmult_dense_step H0 M) A HA); [|exact Hb].
  intros j C Hj HC. split; [reflexivity|].
  intros i k Hk. apply factored_rightmult_dense_step_spec; assumption.
Qed.

(** X4. The dense [Q] of [factored_to_QR(H, betas)] is the product
    [P_0 P_1 ... P_{N-1}] of the dense reflectors
    [P_j = form_dense_P([v_j, betas[j]])], for [N <= M]. *)
Theorem factored_to_QR_is_reflector_product :
  mcols H0 <= M ->
  meq (fst (factored_to_QR H0 betas)) (reflector_product H0 betas (mcols H0)).
Proof.
  intros Hshape.
  destruct (factored_to_QR_Q laws H0 betas Hshape) as (EQ & HQ).
  pose proof (reflector_product_shape (mcols H0)) as HP.
  assert (HQr : mrows (fst (factored_to_QR H0 betas)) = M) by exact (f_equal fst HQ).
  assert (HQc : mcols (fst (factored_to_QR H0 betas)) = M) by exact (f_equal snd HQ).
  assert (HPr : mrows (reflector_product H0 betas (mcols H0)) = M) by exact (f_equal fst HP).
  assert (HPc : mcols (reflector_product H0 betas (mcols H0)) = M) by exact (f_equal snd HP).
  split; [|split].
  - rewrite HQr, HPr. reflexivity.
  - rewrite HQc, HPc. reflexivity.
  - intros i k Hi Hk. rewrite HQr in Hi. rewrite HQc in Hk.
    rewrite (EQ i k Hi Hk).
    apply (Lchain_fold (mcols H0) (jnp_eye M) Hi Hk).
Qed.

(** X5. [factored_rightmult(A, H, betas)] is the product [A Q] of [A] with
    the dense [Q] of [factored_to_QR(H, betas)], for [A] with [M] columns
    and one [beta] per column of [H]. *)
Theorem factored_rightmult_is_A_times_Q (A : mat T) :
  mcols A = M -> vlen betas = mcols H0 -> mcols H0 <= M ->
  meq (factored_rightmult A H0 betas) (matmul A (fst (factored_to_QR H0 betas))).
Proof.
  intros HA Hb Hshape.
  destruct (factored_rightmult_Rchain A HA ltac:(lia)) as (Hsh & Hent).
  destruct (factored_to_QR_Q laws H0 betas Hshape) as (EQ & HQ).
  assert (HQc : mcols (fst (factored_to_QR H0 betas)) = M) by exact (f_equal snd HQ).
  assert (Hr : mrows (factored_rightmult A H0 betas) = mrows A) by exact (f_equal fst Hsh).
  assert (Hc : mcols (factored_rightmult A H0 betas) = mcols A) by exact (f_equal snd Hsh).
  split; [|split].
  - rewrite Hr. reflexivity.
  - rewrite Hc. cbn [mcols matmul]. rewrite HQc. exact HA.
  - intros i k Hi Hk. rewrite Hc, HA in Hk.
    rewrite (Hent i k Hk), Hb, (Rchain_linear (mcols H0) (mget A) i Hk).
    cbn [mget matmul]. rewrite HA. apply ssum_ext. intros l Hl. f_equal.
    rewrite (EQ l k Hl Hk). symmetry. apply (chains_agree laws H0 betas (mcols H0) Hl Hk).
Qed.

(** X6. The dense test implementation [factored_rightmult_dense] and
    [factored_rightmult] return the same matrix, for [A] with [M] columns
    and at most one [beta] per column of [H]. *)
Theorem factored_rightmult_dense_agrees (A : mat T) :
  mcols A = M -> vlen betas <= mcols H0 -> mcols H0 <= M ->
  meq (factored_rightmult_dense A H0 betas) (factored_rightmult A H0 betas).
Proof.
  intros HA Hb Hshape.
  destruct (factored_rightmult_Rchain A HA ltac:(lia)) as (Hsh & Hent).
  destruct (factored_rightmult_dense_Rchain A HA ltac:(lia)) as (Hsh' & Hent').
  assert (Hr : mrows (factored_rightmult A H0 betas) = mrows A) by exact (f_equal fst Hsh).
  assert (Hc : mcols (factored_rightmult A H0 betas) = mcols A) by exact (f_equal snd Hsh).
  assert (Hr' : mrows (factored_rightmult_dense A H0 betas) = mrows A)
    by exact (f_equal fst Hsh').
  assert (Hc' : mcols (factored_rightmult_dense A H0 betas) = mcols A)
    by exact (f_equal snd Hsh').
  split; [|split].
  - rewrite Hr, Hr'. reflexivity.
  - rewrite Hc, Hc'. reflexivity.
  - intros i k Hi Hk. rewrite Hc', HA in Hk.
    rewrite (Hent i k Hk), (Hent' i k Hk). reflexivity.
Qed.
End FactoredProducts.

Lemma Z_scalar_laws : scalar_laws Z.
Proof. split; [exact InitialRing.Zth | reflexivity]. Qed.

Lemma factored_to_QR_is_reflector_product_witness :
  meq (fst (factored_to_QR H_id2 betas_id2)) (reflector_product H_id2 betas_id2 2).
Proof.
  apply (@factored_to_QR_is_reflector_product _ _ Z_scalar_laws H_id2 betas_id2).
  simpl. lia.
Defined.

Lemma factored_rightmult_is_A_times_Q_witness :
  meq (factored_rightmult (mat_of_rows 2 [[1; 2]; [3; 4]; [5; 6]]%Z) H_id2 betas_id2)
      (matmul (mat_of_rows 2 [[1; 2]; [3; 4]; [5; 6]]%Z)
              (fst (factored_to_QR H_id2 betas_id2))).
Proof.
  apply (@factored_rightmult_is_A_times_Q _ _ Z_scalar_laws H_id2 betas_id2
           (mat_of_rows 2 [[1; 2]; [3; 4]; [5; 6]]%Z)).
  - reflexivity.
  - reflexivity.
  - simpl. lia.
Defined.

Lemma factored_rightmult_dense_agrees_witness :
  meq (factored_rightmult_dense (mat_of_rows 2 [[1; 2]; [3; 4]; [5; 6]]%Z) H_id2 betas_id2)
      (factored_rightmult (mat_of_rows 2 [[1; 2]; [3; 4]; [5; 6]]%Z) H_id2 betas_id2).
Proof.
  apply (@factored_rightmult_dense_agrees _ _ Z_scalar_laws H_id2 betas_id2
           (mat_of_rows 2 [[1; 2]; [3; 4]; [5; 6]]%Z)).
  - reflexivity.
  - simpl. lia.
  - simpl. lia.
Defined.

Example factored_rightmult_run :
  mat_to_rows (factored_rightmult (mat_of_rows 2 [[1; 2]; [3; 4]; [5; 6]]%Z)
                                  H_id2 betas_id2)
  = [[-1; -2]; [-3; -4]; [-5; -6]]%Z
  /\ mat_to_rows (factored_rightmult_dense (mat_of_rows 2 [[1; 2]; [3; 4]; [5; 6]]%Z)
                                           H_id2 betas_id2)
     = [[-1; -2]; [-3; -4]; [-5; -6]]%Z.
Proof. split; vm_compute; reflexivity. Qed.

(** ** The WY form *)

Section WYForm.
Context {T : Type} {ops : ScalarOps T}.
Context (laws : ring_theory s0 s1 sadd smul ssub sopp eq).
Add Ring scalar_ring_wyf : laws.
Local Open Scope scalar_scope.

(** X7. For [1 <= N <= M], [factored_to_WY([H, betas])] returns [W] of the
    shape of [H] and [YH] of shape [(N, M)] whose row [c] is the conjugate
    of the [c]-th Householder vector: zero left of the diagonal, one on it,
    column [c] of [H] beyond. *)
Theorem factored_to_WY_YH_rows (H0 : mat T) (betas : vec T) :
  1 <= mcols H0 -> mcols H0 <= mrows H0 ->
  shape (fst (factored_to_WY (H0, betas))) = shape H0
  /\ shape (snd (factored_to_WY (H0, betas))) = (mcols H0, mrows H0)
  /\ forall c l, c < mcols H0 ->
       mget (snd (factored_to_WY (H0, betas))) c l
       = sconj (vget (householder_vector H0 c) l).
Proof.
  intros Hn Hshape. unfold factored_to_WY.
  rewrite factored_to_WY_loop_state.
  pose proof (wy_inv_state laws H0 betas (k := mcols H0 - 1) ltac:(lia) Hshape) as Inv.
  destruct (wy_state H0 betas (mcols H0 - 1)) as [[vj W] Y].
  destruct Inv as [HWr HWc HYr HYc Hvj HYd HYt HW0 HWd]. cbn [fst snd] in *.
  split; [|split].
  - unfold shape. rewrite HWr, HWc. reflexivity.
  - unfold shape. cbn [mrows mcols dag]. rewrite HYr, HYc. reflexivity.
  - intros c l Hc. cbn [mget dag]. rewrite HYd by lia. reflexivity.
Qed.

(** X8. [B_times_Q_WY(B, W, YH)] is the product of [B] with the dense
    [Q = WY_to_Q(W, YH)], for [B] of [m] columns, [W] of shape [(m, r)] and
    [YH] of shape [(r, m)]. *)
Theorem B_times_Q_WY_is_B_times_Q (B W YH : mat T) :
  mcols B = mrows W -> mcols W = mrows YH -> mcols YH = mrows W ->
  meq (B_times_Q_WY B W YH) (matmul B (WY_to_Q W YH)).
Proof.
  intros HB HW HY. split; [|split].
  - reflexivity.
  - cbn. exact HB.
  - intros i k Hi Hk. cbn [mrows mcols B_times_Q_WY msub] in Hi, Hk.
    unfold WY_to_Q, B_times_Q_WY.
    cbn [mget msub matmul mcols mrows jnp_eye].
    transitivity
      (ssum (mcols B) (fun l => mget B i l * (if l =? k then s1 else s0))
       - ssum (mcols B) (fun l => mget B i l *
           ssum (mcols W) (fun c => mget W l c * mget YH c k))).
    + rewrite (ssum_delta_r laws _ Hk). f_equal.
      transitivity (ssum (mcols W) (fun c => ssum (mcols B) (fun l =>
                      mget B i l * (mget W l c * mget YH c k)))).
      * apply ssum_ext. intros c _. rewrite <- (ssum_scale_r laws).
        apply ssum_ext. intros l _. ring.
      * rewrite (ssum_swap laws). apply ssum_ext. intros l _.
        rewrite (ssum_scale_l laws). reflexivity.
    + rewrite <- (ssum_sub laws). apply ssum_ext. intros l Hl.
      assert (E : ssum (mcols W) (fun c =>
                    ssum (mrows W) (fun a => (if l =? a then s1 else s0) * mget W a c)
                    * mget YH c k)
                  = ssum (mcols W) (fun c => mget W l c * mget YH c k)).
      { apply ssum_ext. intros c _. f_equal.
        apply (ssum_delta_l laws (fun a => mget W a c)). lia. }
      rewrite E. ring.
Qed.
End WYForm.

Lemma factored_to_WY_YH_rows_witness :
  shape (fst (factored_to_WY (H_id2, betas_id2))) = shape H_id2
  /\ shape (snd (factored_to_WY (H_id2, betas_id2))) = (2, 2)
  /\ forall c l, c < 2 ->
       mget (snd (factored_to_WY (H_id2, betas_id2))) c l
       = sconj (vget (householder_vector H_id2 c) l).
Proof.
  apply (factored_to_WY_YH_rows Z_laws H_id2 betas_id2); simpl; lia.
Defined.

Lemma B_times_Q_WY_is_B_times_Q_witness :
  meq (B_times_Q_WY (mat_of_rows 2 [[1; 2]; [3; 4]; [5; 6]]%Z)
                    (fst (factored_to_WY (H_id2, betas_id2)))
                    (snd (factored_to_WY (H_id2, betas_id2))))
      (matmul (mat_of_rows 2 [[1; 2]; [3; 4]; [5; 6]]%Z)
              (WY_to_Q (fst (factored_to_WY (H_id2, betas_id2)))
                       (snd (factored_to_WY (H_id2, betas_id2))))).
Proof.
  apply (B_times_Q_WY_is_B_times_Q Z_laws); reflexivity.
Defined.

Section WYFormConj.
Context {T : Type} {ops : ScalarOps T}.
Context (claws : conj_laws T).
Add Ring scalar_ring_wyc : (cl_ring claws).
Local Open Scope scalar_scope.

Lemma conj_add a b : sconj (a + b) = sconj a + sconj b.
Proof.
  replace (a + b) with (a - (s0 - b)) by ring.
  rewrite !(cl_sub claws), (cl_0 claws). ring.
Qed.

Lemma conj_ssum n (f : nat -> T) : sconj (ssum n f) = ssum n (fun l => sconj (f l)).
Proof.
  induction n as [|n IH]; simpl; [apply (cl_0 claws)|].
  rewrite conj_add, IH. reflexivity.
Qed.

(** X9. [Qdag_WY_times_B(B, W, YH)] is the product of the conjugate
    transpose of the dense [Q = WY_to_Q(W, YH)] with [B], for [B] of [m]
    rows, [W] of shape [(m, r)] and [YH] of shape [(r, m)]. *)
Theorem Qdag_WY_times_B_is_Qdag_times_B (B W YH : mat T) :
  mrows B = mrows W -> mcols W = mrows YH -> mcols YH = mrows W ->
  meq (Qdag_WY_times_B B W YH) (matmul (dag (WY_to_Q W YH)) B).
Proof.
  intros HB HW HY. split; [|split].
  - cbn. exact HB.
  - reflexivity.
  - intros i k Hi Hk. cbn [mrows mcols Qdag_WY_times_B msub] in Hi, Hk.
    unfold WY_to_Q, B_times_Q_WY, Qdag_WY_times_B.
    cbn [mget msub matmul mcols mrows jnp_eye dag].
    assert (EQ : forall l, l < mrows W ->
              sconj ((if l =? i then s1 else s0)
                     - ssum (mcols W) (fun c =>
                         ssum (mrows W) (fun a => (if l =? a then s1 else s0) * mget W a c)
                         * mget YH c i))
              = (if i =? l then s1 else s0)
                - ssum (mcols W) (fun c => sconj (mget YH c i) * sconj (mget W l c))).
    { intros l Hl. rewrite (cl_sub claws), conj_ssum. rewrite (Nat.eqb_sym l i).
      f_equal.
      - destruct (i =? l); [apply (cl_1 claws) | apply (cl_0 claws)].
      - apply ssum_ext. intros c _. rewrite (cl_mul claws).
        rewrite (ssum_delta_l (cl_ring claws) (fun a => mget W a c) Hl). ring. }
    transitivity
      (ssum (mrows W) (fun l => (if i =? l then s1 else s0) * mget B l k)
       - ssum (mrows W) (fun l =>
           ssum (mcols W) (fun c => sconj (mget YH c i) * sconj (mget W l c))
           * mget B l k)).
    + rewrite (ssum_delta_l (cl_ring claws) (fun l => mget B l k)) by lia.
      f_equal. rewrite <- HW.
      transitivity (ssum (mcols W) (fun c => ssum (mrows W) (fun l =>
                      sconj (mget YH c i) * sconj (mget W l c) * mget B l k))).
      * apply ssum_ext. intros c _. rewrite <- (ssum_scale_l (cl_ring claws)).
        apply ssum_ext. intros l _. ring.
      * rewrite (ssum_swap (cl_ring claws)). apply ssum_ext. intros l _.
        rewrite (ssum_scale_r (cl_ring claws)). reflexivity.
    + rewrite <- (ssum_sub (cl_ring claws)). apply ssum_ext. intros l Hl.
      rewrite (EQ l Hl). ring.
Qed.
End WYFormConj.

Lemma Qdag_WY_times_B_is_Qdag_times_B_witness :
  meq (Qdag_WY_times_B (mat_of_rows 1 [[(1, 1)]; [(2, 0)]]%Z)
                       (mat_of_rows 1 [[(0, 1)]; [(1, 0)]]%Z)
                       (mat_of_rows 2 [[(1, 0); (0, -1)]]%Z))
      (matmul (dag (WY_to_Q (mat_of_rows 1 [[(0, 1)]; [(1, 0)]]%Z)
                            (mat_of_rows 2 [[(1, 0); (0, -1)]]%Z)))
              (mat_of_rows 1 [[(1, 1)]; [(2, 0)]]%Z)).
Proof.
  apply (Qdag_WY_times_B_is_Qdag_times_B gauss_conj_laws); reflexivity.
Defined.

(** ** [sign] and [house] *)

(** X10. Over the reals [sign] is total: [sign(x) |x| = x], [sign(0) = 0],
    and [|sign(x)| = 1] for [x <> 0]. *)
Theorem sign_real (x : R) :
  exists s, sign x = Some s
            /\ (s * Rabs x = x)%R
            /\ (x = 0%R -> s = 0%R)
            /\ (x <> 0%R -> Rabs s = 1%R).
Proof.
  unfold sign. change (@s0 R R_ops) with 0%R. change (sabs x) with (Rabs x).
  destruct (Req_dec_T x 0) as [E|E].
  - rewrite (R_seqb_true E). exists (0 * x)%R. subst x.
    split; [reflexivity|]. split; [ring|]. split; [intros _; ring | intros C; contradiction].
  - rewrite (R_seqb_false E).
    assert (Ha : Rabs x <> 0%R) by (apply Rabs_no_R0; exact E).
    rewrite (R_sdiv_defined x Ha). exists (x / Rabs x)%R.
    split; [reflexivity|]. split; [field; exact Ha|].
    split; [intros C; contradiction|].
    intros _. unfold Rdiv. rewrite Rabs_mult, Rabs_inv, Rabs_Rabsolu.
    field. exact Ha.
Qed.

(** X11. Over the reals, on every non-empty vector whose head is not zero
    or whose tail is zero (the zero vector included), [house] returns
    [(v, beta)] with [v[0] = 1] such that [P x] for [P = I - beta v v^T]
    vanishes below index 0 and has the norm of [x], and [P] is orthogonal. *)
Theorem house_real_reflector (x : vec R) :
  1 <= vlen x ->
  vget x 0 <> 0%R \/ jnp_linalg_norm (vfrom x 1) = 0%R ->
  exists v beta,
    house x = Some (v, beta)
    /\ vlen v = vlen x
    /\ vget v 0 = 1%R
    /\ (forall i, 1 <= i < vlen x -> vget (apply_P (v, beta) x) i = 0%R)
    /\ jnp_linalg_norm (apply_P (v, beta) x) = jnp_linalg_norm x
    /\ meq (matmul (dag (form_dense_P (v, beta))) (form_dense_P (v, beta)))
           (jnp_eye (vlen x)).
Proof.
  intros Hlen Hcase.
  destruct (house_R_reflects x Hlen Hcase) as ([v beta] & E & (Hl & H1 & Hz & Hn) & Hinv).
  exists v, beta. cbn [fst snd] in *.
  split; [exact E|]. split; [exact Hl|]. split; [exact H1|].
  split; [exact Hz|]. split; [exact Hn|].
  rewrite <- Hl. apply (@form_dense_P_unitary _ _ R_conj_laws v beta); [reflexivity|].
  unfold normalised, vnorm_sqr, s2. unfold involutive in Hinv. cbn [fst snd] in Hinv.
  cbn [sconj R_ops s1 s0 sadd smul ssub].
  replace (1 + 1)%R with 2%R by ring. exact Hinv.
Qed.

Lemma house_real_reflector_witness :
  exists v beta,
    house x34_R = Some (v, beta)
    /\ vlen v = vlen x34_R
    /\ vget v 0 = 1%R
    /\ (forall i, 1 <= i < vlen x34_R -> vget (apply_P (v, beta) x34_R) i = 0%R)
    /\ jnp_linalg_norm (apply_P (v, beta) x34_R) = jnp_linalg_norm x34_R
    /\ meq (matmul (dag (form_dense_P (v, beta))) (form_dense_P (v, beta)))
           (jnp_eye (vlen x34_R)).
Proof.
  apply (house_real_reflector x34_R); [simpl; lia | left; simpl; lra].
Defined.

(** X12. Over the reals, on every vector whose head is zero and whose tail
    is not, [house] has no value: [sign(0) = 0] makes the pivot zero and
    the tail is divided by it. *)
Theorem house_real_zero_head (x : vec R) :
  vget x 0 = 0%R -> jnp_linalg_norm (vfrom x 1) <> 0%R -> house x = None.
Proof. exact (house_R_zero_head x). Qed.

Lemma house_real_zero_head_witness : house x01_R = None.
Proof.
  apply (house_real_zero_head x01_R); [reflexivity|].
  unfold jnp_linalg_norm. cbn.
  replace (0 + 1 * 1)%R with 1%R by ring. rewrite sqrt_1. lra.
Defined.

(** The squared moduli of a binary64 vector of zeros add up to zero. *)
Lemma float_zeros_sum n :
  ssum n (fun _ : nat => sre (smul 0%float (sconj 0%float))) = 0%float.
Proof.
  induction n as [|n IH]; [reflexivity|].
  cbn [ssum]. rewrite IH. reflexivity.
Qed.

(** X13. In binary64, on the zero vector of any length [n >= 1], [house]
    returns the vector [[1, 0, ..., 0]] and [beta = 0], the identity
    reflector. *)
Theorem house_float_zero_vector (n : nat) :
  1 <= n ->
  house (jnp_zeros1 n : vec float) = Some (vupd (jnp_zeros1 n) 0 1%float, 0%float).
Proof.
  intros _. unfold house, jnp_linalg_norm.
  cbn [vlen vget vfrom jnp_zeros1 s0 float_ops].
  rewrite (float_zeros_sum (n - 1)). reflexivity.
Qed.

Lemma house_float_zero_vector_witness :
  house (jnp_zeros1 3 : vec float) = Some (vupd (jnp_zeros1 3) 0 1%float, 0%float).
Proof. apply (@house_float_zero_vector 3). lia. Defined.

(** ** The factorisation *)

Lemma meq_trans {T : Type} `{ScalarOps T} (A B C : mat T) :
  meq A B -> meq B C -> meq A C.
Proof.
  intros (Hr & Hc & He) (Hr' & Hc' & He'). split; [|split].
  - rewrite Hr. exact Hr'.
  - rewrite Hc. exact Hc'.
  - intros i k Hi Hk. rewrite (He i k Hi Hk). apply He'; [rewrite <- Hr | rewrite <- Hc]; assumption.
Qed.

Lemma matmul_meq_l {T : Type} `{ScalarOps T} (X Y B : mat T) :
  meq X Y -> meq (matmul X B) (matmul Y B).
Proof.
  intros (Hr & Hc & He). split; [|split].
  - exact Hr.
  - reflexivity.
  - intros i k Hi Hk. cbn [mget matmul]. rewrite <- Hc.
    apply ssum_ext. intros l Hl. rewrite (He i l Hi Hl). reflexivity.
Qed.

(** X14. For a matrix [A] with [N <= M], of any dtype, whenever
    [__house_qr_factored(A)] returns [[H, beta]], [H] has the shape of [A]
    and [beta] has one entry per column of [A]. *)
Theorem __house_qr_factored_shape_length
        {T : Type} `{FieldOps T} (A H1 : mat T) (betas : vec T) :
  mcols A <= mrows A ->
  __house_qr_factored A = Some (H1, betas) ->
  shape H1 = shape A /\ vlen betas = mcols A.
Proof.
  intros _ E. split; [exact (__house_qr_factored_shape A E)|].
  revert E. unfold __house_qr_factored, matshape, shape.
  destruct (for_range (__house_qr_factored_step (mrows A)) (seq 0 (mcols A)) (A, []))
    as [[H2 beta]|] eqn:E; simpl; [|discriminate].
  intros E'. injection E' as _ <-. cbn [vlen vec_of_list].
  apply (@for_range_seq_invariant _
           (fun k (st : mat T * list T) => List.length (snd st) = k)
           (__house_qr_factored_step (mrows A)) (mcols A) 0 (A, []) (H2, beta)) in E.
  - exact E.
  - intros k [H3 b] s' _ Hb Estep. cbn [snd] in Hb.
    unfold __house_qr_factored_step in Estep.
    destruct (house (col_from H3 k k)) as [[v thisbeta]|]; simpl in Estep; [|discriminate].
    injection Estep as <-. cbn [snd]. rewrite length_app. simpl. lia.
  - reflexivity.
Qed.

Lemma __house_qr_factored_shape_length_witness :
  exists H1 betas,
    __house_qr_factored tall_3x2 = Some (H1, betas)
    /\ shape H1 = shape tall_3x2 /\ vlen betas = mcols tall_3x2.
Proof.
  eexists _, _. split; [vm_compute; reflexivity|].
  apply (@__house_qr_factored_shape_length float _ _ tall_3x2).
  - simpl. lia.
  - vm_compute. reflexivity.
Defined.

Definition A34_R : mat R := mat_of_rows 1 [[3%R]; [4%R]].

Lemma __house_qr_factored_A34_R :
  exists H1 betas, __house_qr_factored A34_R = Some (H1, betas).
Proof.
  unfold __house_qr_factored, matshape, shape.
  cbn [mcols mrows A34_R mat_of_rows seq for_range List.length].
  unfold __house_qr_factored_step.
  destruct (house_R_reflects (col_from A34_R 0 0)) as ([v beta] & E & _).
  - simpl. lia.
  - left. simpl. lra.
  - rewrite E. cbn [obind]. eexists _, _. reflexivity.
Qed.

(** X15. Over the reals, for [N <= M], whenever the factored QR of [A]
    has a value [(H, betas)], the dense factors of
    [factored_to_QR(H, betas)] satisfy [Q R = A] and [Q^T Q = I], and [R]
    is upper triangular. *)
Theorem factored_QR_real_correct (A H1 : mat R) (betas : vec R) :
  mcols A <= mrows A ->
  __house_qr_factored A = Some (H1, betas) ->
  meq (matmul (fst (factored_to_QR H1 betas)) (snd (factored_to_QR H1 betas))) A
  /\ meq (matmul (dag (fst (factored_to_QR H1 betas))) (fst (factored_to_QR H1 betas)))
         (jnp_eye (mrows A))
  /\ (forall i k, k < i -> mget (snd (factored_to_QR H1 betas)) i k = 0%R).
Proof. exact (@factored_QR_R_correct A H1 betas). Qed.

Lemma factored_QR_real_correct_witness :
  exists H1 betas,
    __house_qr_factored A34_R = Some (H1, betas)
    /\ meq (matmul (fst (factored_to_QR H1 betas)) (snd (factored_to_QR H1 betas))) A34_R
    /\ meq (matmul (dag (fst (factored_to_QR H1 betas))) (fst (factored_to_QR H1 betas)))
           (jnp_eye (mrows A34_R))
    /\ (forall i k, k < i -> mget (snd (factored_to_QR H1 betas)) i k = 0%R).
Proof.
  destruct __house_qr_factored_A34_R as (H1 & betas & E).
  exists H1, betas. split; [exact E|].
  apply (@factored_QR_real_correct A34_R H1 betas); [simpl; lia | exact E].
Defined.

(** X16. Over the reals, the factored QR of a matrix whose first column
    has a zero head and a non-zero tail has no value: the first pass of
    the loop calls [house] on that column, which divides by zero; so
    [house_qr] in mode ['factored'] has no result after its call of the
    factorisation. *)
Theorem factored_real_zero_head_column
        (jnp_linalg_qr : mat R -> string -> result (qr_ret R)) (A : mat R) :
  1 <= mcols A <= mrows A ->
  mget A 0 0 = 0%R ->
  jnp_linalg_norm (vfrom (col_from A 0 0) 1) <> 0%R ->
  __house_qr_factored A = None
  /\ house_qr jnp_linalg_qr A "factored" = ([Call "__house_qr_factored"%string], Undefined).
Proof.
  intros Hshape Hh Ht.
  assert (E : __house_qr_factored A = None).
  { unfold __house_qr_factored, matshape, shape.
    destruct (mcols A) as [|n] eqn:En; [lia|].
    cbn [seq for_range]. unfold __house_qr_factored_step at 1.
    rewrite (house_R_zero_head (col_from A 0 0)); [reflexivity | exact Hh | exact Ht]. }
  split; [exact E|].
  unfold house_qr, shape. cbn [String.eqb Ascii.eqb Bool.eqb orb].
  destruct (Nat.ltb_spec (mrows A) (mcols A)) as [Hlt|_]; [lia|].
  rewrite E. reflexivity.
Qed.

Lemma factored_real_zero_head_column_witness :
  __house_qr_factored A01_R = None
  /\ house_qr qr_stub A01_R "factored" = ([Call "__house_qr_factored"%string], Undefined).
Proof.
  apply (factored_real_zero_head_column qr_stub A01_R).
  - simpl. lia.
  - reflexivity.
  - unfold jnp_linalg_norm. cbn.
    replace (0 + 1 * 1)%R with 1%R by ring. rewrite sqrt_1. lra.
Defined.

(** X17. Over the reals, for [1 <= N <= M], whenever the factored QR of
    [A] has a value, [house_qr(A, mode='WY')] returns [[W, YH, R]] after
    one call of the factorisation and one of [factored_to_WY], with
    [(I - W YH) R = A] and [R] upper triangular. *)
Theorem house_qr_WY_real
        (jnp_linalg_qr : mat R -> string -> result (qr_ret R))
        (A H1 : mat R) (betas : vec R) :
  1 <= mcols A <= mrows A ->
  __house_qr_factored A = Some (H1, betas) ->
  exists W YH Rm,
    house_qr jnp_linalg_qr A "WY"
    = ([Call "__house_qr_factored"%string; Call "factored_to_WY"%string],
       Ok (OutWY W YH Rm))
    /\ meq (matmul (WY_to_Q W YH) Rm) A
    /\ (forall i k, k < i -> mget Rm i k = 0%R).
Proof.
  intros Hshape E.
  exists (fst (factored_to_WY (H1, betas))), (snd (factored_to_WY (H1, betas))),
         (jnp_triu H1).
  split; [|split].
  - unfold house_qr, shape. cbn [String.eqb Ascii.eqb Bool.eqb orb].
    destruct (Nat.ltb_spec (mrows A) (mcols A)) as [Hlt|_]; [lia|].
    rewrite E. reflexivity.
  - destruct (@factored_QR_R_correct A H1 betas ltac:(lia) E) as (HQR & _ & _).
    pose proof (__house_qr_factored_shape A E) as Hsh.
    assert (Hr : mrows H1 = mrows A) by exact (f_equal fst Hsh).
    assert (Hc : mcols H1 = mcols A) by exact (f_equal snd Hsh).
    eapply meq_trans; [|exact HQR].
    apply matmul_meq_l.
    apply (WY_to_Q_factored_to_QR R_laws); lia.
  - intros i k Hki. cbn [mget jnp_triu].
    destruct (Nat.leb_spec i k); [lia | reflexivity].
Qed.

Lemma house_qr_WY_real_witness :
  exists H1 betas,
    __house_qr_factored A34_R = Some (H1, betas)
    /\ exists W YH Rm,
        house_qr qr_stub A34_R "WY"
        = ([Call "__house_qr_factored"%string; Call "factored_to_WY"%string],
           Ok (OutWY W YH Rm))
        /\ meq (matmul (WY_to_Q W YH) Rm) A34_R
        /\ (forall i k, k < i -> mget Rm i k = 0%R).
Proof.
  destruct __house_qr_factored_A34_R as (H1 & betas & E).
  exists H1, betas. split; [exact E|].
  apply (@house_qr_WY_real qr_stub A34_R H1 betas); [simpl; lia | exact E].
Defined.

(** ** The drivers *)

Section DriverGuards.
Context {T : Type} `{FieldOps T}.
Variable jnp_linalg_qr : mat T -> string -> result (qr_ret T).
Variable gaussian_random_fill : mat T -> mat T.
Local Open Scope string_scope.

(** X18. In the modes ['reduced'], ['complete'] and ['r'], [house_qr]
    hands [A] and the mode to [jnp.linalg.qr] whatever the shape of [A] and
    returns what that call returns; an exception of that call comes out
    unchanged. *)
Theorem house_qr_dense_modes_delegate (A : mat T) (mode : string) :
  mode = "reduced" \/ mode = "complete" \/ mode = "r" ->
  house_qr jnp_linalg_qr A mode =
  ([Call "jnp.linalg.qr"],
   match jnp_linalg_qr A mode with
   | Ok d => Ok (OutDense d)
   | Raise e => Raise e
   | Undefined => Undefined
   end).
Proof.
  intros [-> | [-> | ->]]; unfold house_qr; cbn [String.eqb Ascii.eqb Bool.eqb orb].
  all: unfold bind, call, ret; cbn [fst snd].
  all: destruct (jnp_linalg_qr A _); reflexivity.
Qed.

(** X19. A mode other than the five that [house_qr] knows, on a matrix
    that is not wider than tall, is refused with [ValueError], the mode in
    its arguments, and nothing has been called. *)
Theorem house_qr_unknown_mode (A : mat T) (mode : string) :
  ~ In mode ["reduced"; "complete"; "r"; "factored"; "WY"] ->
  (mcols A <= mrows A)%nat ->
  house_qr jnp_linalg_qr A mode = ([], Raise (ValueError "Invalid mode: " (PyStr mode))).
Proof.
  intros Hm Hs.
  assert (Hne : forall known, In known ["reduced"; "complete"; "r"; "factored"; "WY"] ->
                              (mode =? known) = false).
  { intros known Hin. apply String.eqb_neq. intros ->. exact (Hm Hin). }
  apply house_qr_invalid_mode; [| | |exact Hs].
  - rewrite !Hne; [reflexivity | right; right; left; reflexivity
                   | right; left; reflexivity | left; reflexivity].
  - apply Hne. do 3 right. left. reflexivity.
  - apply Hne. do 4 right. left. reflexivity.
Qed.

(** X20. [recursiveQR_nojit] returns what [recursiveQR] returns on every
    argument: the same result or exception after the same calls. *)
Theorem recursiveQR_nojit_agrees (A : mat T) (n_block : Z) :
  recursiveQR_nojit jnp_linalg_qr A n_block = recursiveQR jnp_linalg_qr A n_block.
Proof.
  unfold recursiveQR_nojit, shape.
  change (recursiveQR jnp_linalg_qr A n_block) with (__recursiveQR jnp_linalg_qr A n_block).
  rewrite (__recursiveQR_equation_1 jnp_linalg_qr A n_block).
  destruct (Z_lt_dec n_block 1) as [Hlt|Hge]; cbn [__recursiveQR_unfold_clause_1].
  - assert (E : (n_block <? 1)%Z = true) by (apply Z.ltb_lt; lia).
    rewrite E. reflexivity.
  - assert (E : (n_block <? 1)%Z = false) by (apply Z.ltb_ge; lia).
    rewrite E.
    destruct (Z_le_dec (Z.of_nat (mcols A)) n_block) as [Hle|Hgt];
      cbn [__recursiveQR_unfold_clause_1_clause_2].
    + assert (E' : (Z.of_nat (mcols A) <=? n_block)%Z = true) by (apply Z.leb_le; lia).
      rewrite E'. reflexivity.
    + assert (E' : (Z.of_nat (mcols A) <=? n_block)%Z = false) by (apply Z.leb_gt; lia).
      rewrite E'. reflexivity.
Qed.

(** X21. A block size below 1 is refused by [recursiveQR] and by
    [recursiveQR_nojit] with [ValueError], the block size in its arguments,
    before the dense QR is called. *)
Theorem recursiveQR_block_guard (A : mat T) (n_block : Z) :
  (n_block < 1)%Z ->
  recursiveQR jnp_linalg_qr A n_block =
  ([], Raise (ValueError "n_block must be greater than 0; it was " (PyInt n_block)))
  /\ recursiveQR_nojit jnp_linalg_qr A n_block =
     ([], Raise (ValueError "n_block must be greater than 0; it was " (PyInt n_block))).
Proof.
  intros Hb. split; [apply recursiveQR_invalid_block; exact Hb|].
  unfold recursiveQR_nojit. apply Z.ltb_lt in Hb. rewrite Hb. reflexivity.
Qed.

(** X22. An integer [s] below 0 or at least [N] ([s = N] included) is
    refused by [block_power_svd] with [ValueError], [s] in its arguments,
    before the random fill and the dense QR are called. *)
Theorem block_power_svd_s_guard (A : mat T) (s : Z) (tol : T) (max_iter : Z) :
  (s < 0 \/ Z.of_nat (mcols A) <= s)%Z ->
  block_power_svd jnp_linalg_qr gaussian_random_fill A (PyInt s) tol max_iter =
  ([], Raise (ValueError
                "s must be a smaller natural number than the columns of A; it was "
                (PyInt s))).
Proof. apply block_power_svd_invalid_s. Qed.

(** X23. With [max_iter <= 1] (zero and negative values included) and a
    dense QR that answers, [block_power_svd] runs exactly one pass of its
    loop, prints the warning whatever the error of that pass, and returns
    its triple. *)
Theorem block_power_svd_single_pass (A : mat T) (sz : Z) (tol : T) (max_iter : Z) :
  (forall B, exists Q R, jnp_linalg_qr B "reduced" = Ok (QRpair Q R)) ->
  (0 <= sz < Z.of_nat (mcols A))%Z ->
  (max_iter <= 1)%Z ->
  let s := Z.to_nat sz in
  let V0 := gaussian_random_fill (jnp_zeros (mcols A) s) in
  exists U Sigma V err,
    __block_svd_iteration jnp_linalg_qr A V0 s
    = ([Call "jnp.linalg.qr"; Call "jnp.linalg.qr"], Ok (U, Sigma, V, err))
    /\ block_power_svd jnp_linalg_qr gaussian_random_fill A (PyInt sz) tol max_iter
       = ([Call "gaussian_random_fill"; Call "jnp.linalg.qr"; Call "jnp.linalg.qr";
           Print "Warning: max_iter reached, err was: " err],
          Ok (U, Sigma, V)).
Proof.
  intros Hqr Hs Hcap s V0.
  destruct (iteration_ok jnp_linalg_qr A s Hqr V0) as ([[[U Sigma] V] err] & Ex).
  exists U, Sigma, V, err. split; [exact Ex|].
  unfold block_power_svd, shape.
  assert (E : ((sz <? 0)%Z || (Z.of_nat (mcols A) <=? sz)%Z) = false).
  { apply orb_false_iff. split; [apply Z.ltb_ge | apply Z.leb_gt]; lia. }
  rewrite E. fold s. unfold bind at 1, call. cbn [fst snd]. fold V0.
  rewrite block_power_svd_loop_equation_1. cbv zeta. rewrite Ex.
  assert (Ecap : (0 + 1 >=? max_iter)%Z = true).
  { rewrite Z.geb_leb. apply Z.leb_le. lia. }
  unfold bind at 1 3. cbn [fst snd]. rewrite Ecap.
  destruct (sumbool_of_bool (sleb err tol || true)) as [Hd|Hd].
  - unfold bind. cbn. reflexivity.
  - rewrite orb_true_r in Hd. discriminate Hd.
Qed.
End DriverGuards.

Lemma house_qr_dense_modes_delegate_witness :
  house_qr qr_stub wide_1x2 "complete" =
  ([Call "jnp.linalg.qr"%string],
   match qr_stub wide_1x2 "complete" with
   | Ok d => Ok (OutDense d)
   | Raise e => Raise e
   | Undefined => Undefined
   end).
Proof.
  apply (@house_qr_dense_modes_delegate float _ _ qr_stub wide_1x2 "complete").
  right. left. reflexivity.
Defined.

Lemma house_qr_unknown_mode_witness :
  house_qr qr_stub tall_3x2 "bogus"
  = ([], Raise (ValueError "Invalid mode: " (PyStr "bogus"))).
Proof.
  apply (@house_qr_unknown_mode float _ _ qr_stub tall_3x2 "bogus").
  - simpl. intros [C|[C|[C|[C|[C|[]]]]]]; discriminate C.
  - simpl. lia.
Defined.

Lemma recursiveQR_block_guard_witness :
  recursiveQR qr_stub tall_3x2 0 =
  ([], Raise (ValueError "n_block must be greater than 0; it was " (PyInt 0)))
  /\ recursiveQR_nojit qr_stub tall_3x2 0 =
     ([], Raise (ValueError "n_block must be greater than 0; it was " (PyInt 0))).
Proof. apply (@recursiveQR_block_guard float _ qr_stub tall_3x2 0). lia. Defined.

Lemma block_power_svd_s_guard_witness :
  block_power_svd qr_stub (fun V => V) tall_3x2 (PyInt 2) 0%float 10 =
  ([], Raise (ValueError
                "s must be a smaller natural number than the columns of A; it was "
                (PyInt 2))).
Proof.
  apply (@block_power_svd_s_guard float _ _ qr_stub (fun V => V) tall_3x2 2 0%float 10).
  right. simpl. lia.
Defined.

Lemma block_power_svd_single_pass_witness :
  exists U Sigma V err,
    __block_svd_iteration qr_stub tall_3x2 (jnp_eye 2) 1
    = ([Call "jnp.linalg.qr"%string; Call "jnp.linalg.qr"%string], Ok (U, Sigma, V, err))
    /\ block_power_svd qr_stub (fun V => jnp_eye 2) tall_3x2 (PyInt 1) 0%float 0
       = ([Call "gaussian_random_fill"%string; Call "jnp.linalg.qr"%string;
           Call "jnp.linalg.qr"%string;
           Print "Warning: max_iter reached, err was: "%string err],
          Ok (U, Sigma, V)).
Proof.
  apply (@block_power_svd_single_pass float _ _ qr_stub (fun V => jnp_eye 2) tall_3x2 1
           0%float 0).
  - intros B. unfold qr_stub. eexists _, _. reflexivity.
  - simpl. lia.
  - lia.
Defined.

(** ** Recursive QR *)

(** [R] vanishes below its diagonal. *)
Definition upper_triangular {T : Type} `{ScalarOps T} (R : mat T) : Prop :=
  forall i k, k < i -> i < mrows R -> mget R i k = s0.

(** [Q] and [R] are reduced factors of [A]: [Q] of the shape of [A], [R]
    square and upper triangular, [Q R = A]. *)
Definition factors {T : Type} `{ScalarOps T} (A Q R : mat T) : Prop :=
  shape Q = (mrows A, mcols A) /\ shape R = (mcols A, mcols A)
  /\ meq (matmul Q R) A /\ upper_triangular R.

(** The external dense QR in reduced mode returns reduced factors of every
    matrix that is not wider than tall. *)
Definition reduced_factors {T : Type} `{ScalarOps T}
           (jnp_linalg_qr : mat T -> string -> result (qr_ret T)) : Prop :=
  forall B, mcols B <= mrows B ->
  exists Q R, jnp_linalg_qr B "reduced"%string = Ok (QRpair Q R) /\ factors B Q R.

Section RecursiveProduct.
Context {T : Type} {ops : ScalarOps T}.
Context (laws : ring_theory s0 s1 sadd smul ssub sopp eq).
Add Ring scalar_ring_rec : laws.
Local Open Scope scalar_scope.

(** The assembly of the factors of the two halves. *)
Lemma block_factors (A Q0 R00 Q1 R11 : mat T) (n0 : nat) :
  n0 <= mcols A ->
  factors (cols_upto A n0) Q0 R00 ->
  factors (cols_from
             (upd_cols_from A n0
                (msub (cols_from A n0)
                      (matmul Q0 (matmul (dag Q0) (cols_from A n0))))) n0) Q1 R11 ->
  factors A (jnp_hstack Q0 Q1)
          (jnp_vstack (jnp_hstack R00 (matmul (dag Q0) (cols_from A n0)))
                      (jnp_hstack (jnp_zeros (mrows R11) (mcols R00)) R11)).
Proof.
  intros Hn0 (HQ0 & HR00 & (_ & _ & E0) & U0) (HQ1 & HR11 & (_ & _ & E1) & U1).
  unfold shape in HQ0, HR00, HQ1, HR11.
  cbn [mrows mcols cols_upto cols_from block_from upd_cols_from upd_block] in HQ0, HR00, HQ1, HR11.
  rewrite Nat.min_l in HQ0, HR00 by exact Hn0.
  injection HQ0 as HQ0r HQ0c. injection HR00 as HR00r HR00c.
  injection HQ1 as HQ1r HQ1c. injection HR11 as HR11r HR11c.
  rewrite Nat.sub_0_r in HQ1r.
  set (R01 := matmul (dag Q0) (cols_from A n0)) in *.
  assert (P0 : forall i k, i < mrows A -> k < n0 ->
             ssum n0 (fun l => mget Q0 i l * mget R00 l k) = mget A i k).
  { intros i k Hi Hk. specialize (E0 i k).
    cbn [mrows mcols mget matmul cols_upto] in E0. rewrite HQ0c in E0.
    apply E0; lia. }
  assert (P1 : forall i k, i < mrows A -> k < mcols A - n0 ->
             ssum (mcols A - n0) (fun l => mget Q1 i l * mget R11 l k)
             = mget A i (n0 + k)
               - ssum n0 (fun l => mget Q0 i l * mget R01 l k)).
  { intros i k Hi Hk. specialize (E1 i k).
    cbn [mrows mcols mget matmul cols_from block_from upd_cols_from upd_block msub
         Nat.leb andb Nat.add] in E1.
    rewrite HQ1c, HQ0c in E1.
    destruct (Nat.leb_spec n0 (n0 + k)) as [_|C]; [|lia].
    rewrite Nat.sub_0_r in E1. replace (n0 + k - n0)%nat with k in E1 by lia.
    apply E1; lia. }
  split; [|split; [|split]].
  - unfold shape. cbn [mrows mcols jnp_hstack]. f_equal; lia.
  - unfold shape. cbn [mrows mcols jnp_hstack jnp_vstack jnp_zeros R01 matmul cols_from
                       block_from]. f_equal; lia.
  - split; [|split].
    + cbn [mrows matmul jnp_hstack]. exact HQ0r.
    + cbn [mcols matmul jnp_hstack jnp_vstack R01 cols_from block_from]. lia.
    + intros i k Hi Hk.
      cbn [mrows mcols matmul jnp_hstack jnp_vstack R01 cols_from block_from] in Hi, Hk.
      rewrite HQ0r in Hi. rewrite HR00c in Hk.
      replace (n0 + (mcols A - n0))%nat with (mcols A) in Hk by lia.
      change (mget (matmul (jnp_hstack Q0 Q1)
                (jnp_vstack (jnp_hstack R00 R01)
                   (jnp_hstack (jnp_zeros (mrows R11) (mcols R00)) R11))) i k)
        with (ssum (mcols Q0 + mcols Q1)
                (fun l => mget (jnp_hstack Q0 Q1) i l
                          * mget (jnp_vstack (jnp_hstack R00 R01)
                                    (jnp_hstack (jnp_zeros (mrows R11) (mcols R00)) R11)) l k)).
      rewrite HQ0c, HQ1c, (ssum_split laws).
      assert (S1 : ssum n0 (fun l => mget (jnp_hstack Q0 Q1) i l
                     * mget (jnp_vstack (jnp_hstack R00 R01)
                               (jnp_hstack (jnp_zeros (mrows R11) (mcols R00)) R11)) l k)
                   = ssum n0 (fun l => mget Q0 i l *
                       (if k <? n0 then mget R00 l k else mget R01 l (k - n0)))).
      { apply ssum_ext. intros l Hl.
        cbn [mget mrows mcols jnp_hstack jnp_vstack].
        rewrite HQ0c, HR00r, HR00c.
        destruct (Nat.ltb_spec l n0); [reflexivity | lia]. }
      assert (S2 : ssum (mcols A - n0) (fun l => mget (jnp_hstack Q0 Q1) i (n0 + l)
                     * mget (jnp_vstack (jnp_hstack R00 R01)
                               (jnp_hstack (jnp_zeros (mrows R11) (mcols R00)) R11))
                            (n0 + l) k)
                   = ssum (mcols A - n0) (fun l => mget Q1 i l *
                       (if k <? n0 then s0 else mget R11 l (k - n0)))).
      { apply ssum_ext. intros l Hl.
        cbn [mget mrows mcols jnp_hstack jnp_vstack jnp_zeros].
        rewrite HQ0c, HR00r, HR00c.
        destruct (Nat.ltb_spec (n0 + l) n0); [lia|].
        replace (n0 + l - n0)%nat with l by lia. reflexivity. }
      rewrite S1, S2.
      destruct (Nat.ltb_spec k n0) as [Hkn|Hkn].
      * rewrite (P0 i k Hi Hkn).
        rewrite (ssum_zero laws (fun l => mget Q1 i l * s0)) by (intros; ring). ring.
      * rewrite (P1 i (k - n0)%nat Hi ltac:(lia)).
        replace (n0 + (k - n0))%nat with k by lia. ring.
  - intros i k Hki Hi.
    cbn [mrows mcols jnp_hstack jnp_vstack jnp_zeros] in Hi.
    cbn [mget mrows mcols jnp_hstack jnp_vstack jnp_zeros].
    rewrite HR00r, HR00c in *.
    destruct (Nat.ltb_spec i n0) as [Hin|Hin].
    + destruct (Nat.ltb_spec k n0) as [_|C]; [|lia].
      apply U0; [exact Hki | lia].
    + destruct (Nat.ltb_spec k n0) as [_|Hkn]; [reflexivity|].
      apply U1; lia.
Qed.

Variable jnp_linalg_qr : mat T -> string -> result (qr_ret T).
Hypothesis qr_factors : reduced_factors jnp_linalg_qr.

Lemma __recursiveQR_factors (n : nat) : forall (A : mat T) (n_block : Z),
  mcols A = n -> mcols A <= mrows A -> (1 <= n_block)%Z ->
  exists Q R l, __recursiveQR jnp_linalg_qr A n_block = (l, Ok (Q, R))
                /\ factors A Q R.
Proof.
  induction n as [n IH] using lt_wf_ind. intros A n_block Hn Hshape Hb.
  rewrite __recursiveQR_equation_1.
  destruct (Z_lt_dec n_block 1) as [Hlt|Hge]; [lia|].
  cbn [__recursiveQR_unfold_clause_1].
  destruct (Z_le_dec (Z.of_nat (mcols A)) n_block) as [Hbase|Hrec];
    cbn [__recursiveQR_unfold_clause_1_clause_2].
  - destruct (qr_factors A Hshape) as (Q & R & E & HF).
    exists Q, R. eexists. unfold qr_reduced, bind, call. cbn [fst snd].
    rewrite E. cbn. split; [reflexivity | exact HF].
  - cbv zeta.
    assert (Hn2 : 2 <= mcols A) by lia.
    pose proof (Nat.div_lt (mcols A) 2 ltac:(lia) ltac:(lia)) as Hlt0.
    pose proof (Nat.div_str_pos (mcols A) 2 ltac:(lia)) as Hpos0.
    set (n0 := mcols A / 2) in *.
    destruct (IH (mcols (cols_upto A n0)) ltac:(simpl; lia) (cols_upto A n0) n_block
                 eq_refl ltac:(simpl; lia) Hb)
      as (Q0 & R00 & l0 & E0 & HF0).
    rewrite E0. unfold bind at 1. cbn [fst snd].
    set (A' := upd_cols_from A n0
                 (msub (cols_from A n0) (matmul Q0 (matmul (dag Q0) (cols_from A n0))))).
    destruct (IH (mcols (cols_from A' n0)) ltac:(simpl; lia) (cols_from A' n0) n_block
                 eq_refl ltac:(simpl; lia) Hb)
      as (Q1 & R11 & l1 & E1 & HF1).
    rewrite E1. unfold bind. cbn [fst snd ret].
    eexists _, _, _. split; [reflexivity|].
    apply block_factors; [lia | exact HF0 | exact HF1].
Qed.
End RecursiveProduct.

(** X24. Given a dense QR that returns reduced factors ([Q R = B], [R]
    upper triangular) of every matrix that is not wider than tall,
    [recursiveQR(A, n_block)] with [N <= M] and [n_block >= 1] returns
    [Q] of shape [(M, N)] and an upper triangular [R] of shape [(N, N)]
    with [Q R = A]. *)
Theorem recursiveQR_reconstructs
        {T : Type} {ops : ScalarOps T}
        (laws : ring_theory s0 s1 sadd smul ssub sopp eq)
        (jnp_linalg_qr : mat T -> string -> result (qr_ret T))
        (A : mat T) (n_block : Z) :
  reduced_factors jnp_linalg_qr ->
  mcols A <= mrows A -> (1 <= n_block)%Z ->
  exists Q R l,
    recursiveQR jnp_linalg_qr A n_block = (l, Ok (Q, R))
    /\ shape Q = (mrows A, mcols A) /\ shape R = (mcols A, mcols A)
    /\ meq (matmul Q R) A
    /\ upper_triangular R.
Proof.
  intros Hqr Hshape Hb.
  destruct (@__recursiveQR_factors T ops laws jnp_linalg_qr Hqr (mcols A) A n_block
              eq_refl Hshape Hb) as (Q & R & l & E & HF).
  exists Q, R, l. split; [exact E | exact HF].
Qed.

Lemma qr_stub_reduced_factors {T : Type} {ops : ScalarOps T}
      (laws : ring_theory s0 s1 sadd smul ssub sopp eq) :
  reduced_factors (qr_stub (T := T)).
Proof.
  intros B HB. unfold qr_stub. eexists _, _. split; [reflexivity|].
  rewrite Nat.min_r by exact HB.
  split; [reflexivity | split; [reflexivity | split]].
  - split; [reflexivity | split; [reflexivity|]].
    intros i k Hi Hk. cbn [mrows mcols matmul jnp_eye] in Hi, Hk.
    cbn [mget mcols matmul jnp_eye].
    apply (ssum_delta_r laws (fun l => mget B i l) Hk).
  - intros i k Hki _. cbn [mget jnp_eye].
    destruct (Nat.eqb_spec i k); [lia | reflexivity].
Qed.

Lemma recursiveQR_reconstructs_witness :
  exists Q R l,
    recursiveQR qr_stub (mat_of_rows 2 [[1; 2]; [3; 4]; [5; 6]]%Z) 1 = (l, Ok (Q, R))
    /\ shape Q = (3, 2) /\ shape R = (2, 2)
    /\ meq (matmul Q R) (mat_of_rows 2 [[1; 2]; [3; 4]; [5; 6]]%Z)
    /\ upper_triangular R.
Proof.
  apply (@recursiveQR_reconstructs Z Z_ops Z_laws qr_stub
           (mat_of_rows 2 [[1; 2]; [3; 4]; [5; 6]]%Z) 1).
  - apply (qr_stub_reduced_factors Z_laws).
  - simpl. lia.
  - lia.
Defined.

Example recursiveQR_run :
  option_map show_QR
    (match snd (recursiveQR qr_stub (mat_of_rows 2 [[1; 2]; [3; 4]; [5; 6]]%Z) 1) with
     | Ok p => Some p | _ => None end)
  = Some ([[1; -42]; [3; -128]; [5; -214]], [[1; 44]; [0; 1]])%Z.
Proof. vm_compute. reflexivity. Qed.

(** ** The remaining routines *)

(** X26.Whatever the dtype, whenever [house(x)] returns [(v, beta)] on a
    non-empty [x], [v] has the length of [x] and its first component is
    1. *)
Theorem house_first_component
        {T : Type} `{FieldOps T} (x v : vec T) (beta : T) :
  1 <= vlen x -> house x = Some (v, beta) ->
  vlen v = vlen x /\ vget v 0 = s1.
Proof.
  intros _. unfold house.
  destruct (seqb (jnp_linalg_norm (vfrom x 1)) s0).
  - unfold __house_zero_norm. intros E. injection E as <- _. split; reflexivity.
  - unfold __house_nonzero_norm.
    destruct (sign (vget x 0)) as [sgn|]; cbn [obind]; [|discriminate].
    match goal with
    | |- context [if ?b then _ else _] => destruct b
    end.
    all: match goal with
         | |- context [vdiv ?w ?c] => destruct (vdiv w c) as [tail|]
         end; cbn [obind]; [|discriminate].
    all: match goal with
         | |- context [sdiv ?a ?b] => destruct (sdiv a b) as [q1|]
         end; cbn [obind]; [|discriminate].
    all: match goal with
         | |- context [sdiv ?a ?b] => destruct (sdiv a b) as [q2|]
         end; cbn [obind]; [|discriminate].
    all: intros E; injection E as <- _; split; reflexivity.
Qed.

Lemma house_first_component_witness :
  exists v beta,
    house x01 = Some (v, beta) /\ vlen v = vlen x01 /\ vget v 0 = s1.
Proof.
  destruct (house x01) as [[v beta]|] eqn:E; [|vm_compute in E; discriminate E].
  exists v, beta. split; [reflexivity|].
  apply (@house_first_component float _ _ x01 v beta); [simpl; lia | exact E].
Defined.

Section SVDShapes.
Context {T : Type} `{FieldOps T}.
Variable jnp_linalg_qr : mat T -> string -> result (qr_ret T).
Hypothesis qr_shapes : reduced_shapes jnp_linalg_qr.
Variables (A : mat T) (s : nat).
Hypothesis s_rows : s <= mrows A.
Hypothesis s_cols : s <= mcols A.

(** The shapes of the [(U, Sigma, V)] of a pass. *)
Definition svd_shapes (x : mat T * vec T * mat T) : Prop :=
  shape (fst (fst x)) = (mrows A, s)
  /\ vlen (snd (fst x)) = s
  /\ shape (snd x) = (mcols A, s).

Lemma iteration_shapes V l x :
  shape V = (mcols A, s) ->
  __block_svd_iteration jnp_linalg_qr A V s = (l, Ok x) ->
  svd_shapes (fst x).
Proof.
  intros HV. unfold shape in HV. injection HV as HVr HVc.
  unfold __block_svd_iteration.
  destruct (qr_reduced_shapes qr_shapes (matmul A V)) as (Ql & Rl & l1 & E1 & HQl & HRl).
  { cbn [mrows mcols matmul]. lia. }
  rewrite E1. unfold bind at 1. cbn [fst snd].
  unfold shape in HQl, HRl. cbn [mrows mcols matmul] in HQl, HRl.
  injection HQl as HQlr HQlc. injection HRl as HRlr HRlc.
  destruct (qr_reduced_shapes qr_shapes (matmul (dag A) (cols_upto Ql s)))
    as (Qr & Rr & l2 & E2 & HQr & HRr).
  { cbn [mrows mcols matmul dag cols_upto]. lia. }
  rewrite E2. unfold bind. cbn [fst snd ret].
  unfold shape in HQr, HRr. cbn [mrows mcols matmul dag cols_upto] in HQr, HRr.
  injection HQr as HQrr HQrc. injection HRr as HRrr HRrc.
  intros E. injection E as _ <-. unfold svd_shapes, shape.
  cbn [fst snd mrows mcols vlen cols_upto jnp_diag block_upto].
  split; [|split]; [f_equal; lia | lia | f_equal; lia].
Qed.

Lemma svd_pass_shapes V k x :
  svd_pass jnp_linalg_qr A s V k x ->
  shape V = (mcols A, s) -> svd_shapes (triple_of x).
Proof.
  induction 1 as [V l x E | V l y k x E Hp IH]; intros HV.
  - exact (iteration_shapes HV E).
  - apply IH. pose proof (iteration_shapes HV E) as (_ & _ & HV'). exact HV'.
Qed.
End SVDShapes.

(** X27. For [0 <= s < N] and [s <= M], with a dense QR that answers every
    reduced-mode call and returns reduced shapes on matrices that are not
    wider than tall, and a random fill that keeps the shape of its
    argument, [block_power_svd(A, s)] returns [U] of shape [(M, s)],
    [Sigma] of length [s] and [V] of shape [(N, s)]. *)
Theorem block_power_svd_shapes
        {T : Type} `{FieldOps T}
        (jnp_linalg_qr : mat T -> string -> result (qr_ret T))
        (gaussian_random_fill : mat T -> mat T)
        (A : mat T) (sz : Z) (tol : T) (max_iter : Z) :
  (forall B, exists Q R, jnp_linalg_qr B "reduced"%string = Ok (QRpair Q R)) ->
  reduced_shapes jnp_linalg_qr ->
  (forall V, shape (gaussian_random_fill V) = shape V) ->
  (0 <= sz < Z.of_nat (mcols A))%Z -> (sz <= Z.of_nat (mrows A))%Z ->
  exists U Sigma V l,
    block_power_svd jnp_linalg_qr gaussian_random_fill A (PyInt sz) tol max_iter
    = (l, Ok (U, Sigma, V))
    /\ shape U = (mrows A, Z.to_nat sz)
    /\ vlen Sigma = Z.to_nat sz
    /\ shape V = (mcols A, Z.to_nat sz).
Proof.
  intros Hqr Hsh Hfill Hs Hm.
  set (s := Z.to_nat sz).
  set (V0 := gaussian_random_fill (jnp_zeros (mcols A) s)).
  destruct (block_power_svd_loop_spec jnp_linalg_qr A s tol max_iter Hqr V0 0%Z eq_refl)
    as (k & x & l & Eloop & Hpass & _).
  assert (HV0 : shape V0 = (mcols A, s)).
  { unfold V0. rewrite Hfill. reflexivity. }
  pose proof (@svd_pass_shapes T _ _ jnp_linalg_qr Hsh A s ltac:(lia) ltac:(lia)
                V0 k x Hpass HV0) as (HU & HS & HV).
  destruct x as [[[U Sigma] V] err]. cbn [triple_of fst snd] in *.
  exists U, Sigma, V. eexists. split; [|split; [exact HU | split; [exact HS | exact HV]]].
  unfold block_power_svd, shape.
  assert (E : ((sz <? 0)%Z || (Z.of_nat (mcols A) <=? sz)%Z) = false).
  { apply orb_false_iff. split; [apply Z.ltb_ge | apply Z.leb_gt]; lia. }
  rewrite E. unfold bind at 1, call. cbn [fst snd].
  fold s. fold V0. rewrite Eloop. cbn [fst snd]. reflexivity.
Qed.

Lemma block_power_svd_shapes_witness :
  exists U Sigma V l,
    block_power_svd qr_stub (fun V => V) tall_3x2 (PyInt 1) 0%float 3
    = (l, Ok (U, Sigma, V))
    /\ shape U = (mrows tall_3x2, Z.to_nat 1)
    /\ vlen Sigma = Z.to_nat 1
    /\ shape V = (mcols tall_3x2, Z.to_nat 1).
Proof.
  apply (@block_power_svd_shapes float _ _ qr_stub (fun V => V) tall_3x2 1 0%float 3).
  - intros B. unfold qr_stub. eexists _, _. reflexivity.
  - apply qr_stub_reduced_shapes.
  - intros V. reflexivity.
  - simpl. lia.
  - simpl. lia.
Defined.

(** X28. On a matrix without columns, whatever the dtype, the loop of
    [__house_qr_factored] does not run: the factored form is [A] itself
    with no [beta], and [factored_to_QR] turns it into the identity of
    order [M] and an [R] without columns. *)
Theorem factored_no_columns {T : Type} `{FieldOps T} (A : mat T) :
  mcols A = 0 ->
  __house_qr_factored A = Some (A, vec_of_list [])
  /\ fst (factored_to_QR A (vec_of_list [])) = jnp_eye (mrows A)
  /\ shape (snd (factored_to_QR A (vec_of_list []))) = (mrows A, 0).
Proof.
  intros Hc. split; [|split].
  - unfold __house_qr_factored, matshape, shape. rewrite Hc. reflexivity.
  - unfold factored_to_QR, shape. rewrite Hc. reflexivity.
  - unfold factored_to_QR, shape. cbn [snd mrows mcols jnp_triu]. rewrite Hc. reflexivity.
Qed.

Lemma factored_no_columns_witness :
  __house_qr_factored (jnp_zeros 2 0 : mat float)
  = Some (jnp_zeros 2 0 : mat float, vec_of_list [])
  /\ fst (factored_to_QR (jnp_zeros 2 0 : mat float) (vec_of_list [])) = jnp_eye 2
  /\ shape (snd (factored_to_QR (jnp_zeros 2 0 : mat float) (vec_of_list []))) = (2, 0).
Proof. apply (@factored_no_columns float _ _ (jnp_zeros 2 0)). reflexivity. Defined.

(** X29. Over the reals, for [N <= M], whenever the factored QR of [A]
    has a value [(H, betas)], every reflector stored in it is orthogonal:
    [P_j^T P_j = I] for [P_j = form_dense_P([v_j, betas[j]])] and each
    column [j] of [H]. *)
Theorem factored_reflectors_orthogonal (A H1 : mat R) (betas : vec R) (j : nat) :
  mcols A <= mrows A ->
  __house_qr_factored A = Some (H1, betas) ->
  j < mcols A ->
  meq (matmul (dag (reflector H1 betas j)) (reflector H1 betas j)) (jnp_eye (mrows A)).
Proof.
  intros Htall E Hj.
  destruct (@__house_qr_factored_R_inv A H1 betas Htall E) as (bl & -> & Inv).
  destruct Inv as [Hshape _ Hnorm _ _]. cbn [fst snd] in *.
  assert (Hr : mrows H1 = mrows A) by exact (f_equal fst Hshape).
  specialize (Hnorm j Hj). unfold normalized, vs_of, bs_of in Hnorm.
  unfold reflector.
  replace (mrows A) with (vlen (householder_vector H1 j)) by exact Hr.
  apply (@form_dense_P_unitary _ _ R_conj_laws); [reflexivity|].
  unfold normalised, vnorm_sqr, s2.
  cbn [sconj R_ops s1 s0 sadd smul ssub vlen householder_vector vget vec_of_list].
  rewrite Hr. replace (1 + 1)%R with 2%R by ring. exact Hnorm.
Qed.

Lemma factored_reflectors_orthogonal_witness :
  exists H1 betas,
    __house_qr_factored A34_R = Some (H1, betas)
    /\ meq (matmul (dag (reflector H1 betas 0)) (reflector H1 betas 0))
           (jnp_eye (mrows A34_R)).
Proof.
  destruct __house_qr_factored_A34_R as (H1 & betas & E).
  exists H1, betas. split; [exact E|].
  apply (@factored_reflectors_orthogonal A34_R H1 betas 0); [simpl; lia | exact E | simpl; lia].
Defined.

(** ** Recursive QR against the factored form, value by value *)










